(** * Reference table, reference counting and copying collector (refs.c)

    A shallow embedding of [src/GarbageCollector/refs.c]: the reference
    table, [make_ref], [deref], [get_ref], [refs_used], [incref], [decref],
    [traverse_decref], [copy_contents] and [collect_garbage], over an explicit
    program state, followed by the properties of the specification. *)

From Stdlib Require Import ZArith List Lia.
From stdpp Require Import base option list gmap.

Local Open Scope Z_scope.

(** ** Results of running a piece of the program

    [Fault] is a failed [assert], or a read or write the C program has no
    defined behaviour for (a table index out of range, a null or wild
    pointer).  [OutOfFuel] only exists for the recursion bound of the two
    recursive functions; the lemmas on [decref] and [collect_garbage] show
    that they do not return it. *)

Inductive result (A : Type) : Type :=
| Ok (a : A)
| Fault
| OutOfFuel.
Arguments Ok {A} a.
Arguments Fault {A}.
Arguments OutOfFuel {A}.

#[export] Instance result_ret : MRet result := fun A a => Ok a.
#[export] Instance result_bind : MBind result := fun A B f m =>
  match m with
  | Ok a => f a
  | Fault => Fault
  | OutOfFuel => OutOfFuel
  end.

(** ** Values and handles *)

(** Modelled from the spec: [refs.h] and [types.h] are not among the
    sources.  A handle ([reference_t]) is a signed integer ([deref] asserts
    [ref >= 0]); [NULL_REF] and [TOMBSTONE_REF] are the two reserved
    sentinels, distinct from each other and from every table index. *)
Definition reference_t := Z.
Definition NULL_REF : reference_t := -1.
Definition TOMBSTONE_REF : reference_t := -2.

(** The C null pointer; pool addresses are positive. *)
Definition NULL : Z := 0.

(** Modelled from the spec: the kinds of [types.h].  [VAL_SCALAR] stands
    for every leaf kind, whose payload this module never inspects. *)
Inductive value_type_t := VAL_FREE | VAL_SCALAR | VAL_LIST | VAL_DICT | VAL_REF_ARRAY.

#[export] Instance value_type_eq_dec : EqDecision value_type_t.
Proof. solve_decision. Defined.

(** Modelled from the spec: the payload layouts of [types.h].  A list
    holds one child handle, a dict two, a reference array a fixed-capacity
    sequence of handles (its length is the capacity).  [RawData] is a
    payload without handles: scalar data, or the [0xCC] fill of a value that
    was just created. *)
Inductive payload_t :=
| RawData
| ListData (values : reference_t)
| DictData (keys values : reference_t)
| RefArrayData (entries : list reference_t).

Record value_t := Value {
  type : value_type_t;
  ref_count : Z;
  value_size : Z;
  data : payload_t
}.

(** Modelled from the spec: [ref_count] is an unsigned counter; its width
    is taken to be 32 bits. *)
Definition wrap_count (n : Z) : Z := n mod 2 ^ 32.

Definition set_type (t : value_type_t) (v : value_t) : value_t :=
  Value t (ref_count v) (value_size v) (data v).
Definition set_ref_count (n : Z) (v : value_t) : value_t :=
  Value (type v) n (value_size v) (data v).
Definition set_data (d : payload_t) (v : value_t) : value_t :=
  Value (type v) (ref_count v) (value_size v) d.

(** ** Program state

    The module-local variables of refs.c, the memory they point into, and
    the state of the pool allocator.  [heap] maps the address of a value to
    the value stored there; [ref_table] holds the [num_refs] slots in use
    (the capacity of the table is [max_refs]). *)
Record state := State {
  heap : gmap Z value_t;
  arena_base : Z;
  arena_size : Z;
  blocks : list (Z * Z);
  from_space : Z;
  to_space : Z;
  pool_size : Z;
  ref_table : list Z;
  max_refs : Z
}.

Definition num_refs (s : state) : Z := Z.of_nat (length (ref_table s)).

Definition with_heap (h : gmap Z value_t) (s : state) : state :=
  State h (arena_base s) (arena_size s) (blocks s) (from_space s) (to_space s)
        (pool_size s) (ref_table s) (max_refs s).
Definition with_blocks (bs : list (Z * Z)) (s : state) : state :=
  State (heap s) (arena_base s) (arena_size s) bs (from_space s) (to_space s)
        (pool_size s) (ref_table s) (max_refs s).
Definition with_table (t : list Z) (s : state) : state :=
  State (heap s) (arena_base s) (arena_size s) (blocks s) (from_space s) (to_space s)
        (pool_size s) t (max_refs s).
Definition with_max_refs (m : Z) (s : state) : state :=
  State (heap s) (arena_base s) (arena_size s) (blocks s) (from_space s) (to_space s)
        (pool_size s) (ref_table s) m.

(** [*p] for a pointer to a value: there is none at a null or wild address. *)
Definition load (s : state) (p : Z) : result value_t :=
  match heap s !! p with
  | Some v => Ok v
  | None => Fault
  end.

Definition store (p : Z) (v : value_t) (s : state) : state :=
  with_heap (<[p := v]> (heap s)) s.

(** [ref_table[ref]]: an index outside [0 .. num_refs - 1] is not a slot. *)
Definition slot (s : state) (ref : reference_t) : result Z :=
  if (0 <=? ref) && (ref <? num_refs s) then
    match ref_table s !! Z.to_nat ref with
    | Some p => Ok p
    | None => Fault
    end
  else Fault.

(** [ref_table[ref] = p] *)
Definition set_slot (ref : reference_t) (p : Z) (s : state) : state :=
  with_table (<[Z.to_nat ref := p]> (ref_table s)) s.

(** ** The pool allocator *)

(** Modelled from the spec: the allocator of [mm.h] ([mm_init],
    [mm_malloc], [mm_free], [is_pool_address], [mem_used]) is not among the
    sources.  It serves one arena, first fit: [blocks] lists the storage it
    has handed out, as (address, size) in address order; [mm_init] resets it
    over a region. *)
Definition mm_init (size : Z) (region : Z) (s : state) : state :=
  State (heap s) region size [] (from_space s) (to_space s)
        (pool_size s) (ref_table s) (max_refs s).

(** Modelled from the spec: [belongs_to_active_region]. *)
Definition is_pool_address (s : state) (p : Z) : bool :=
  (arena_base s <=? p) && (p <? arena_base s + arena_size s).

(** Modelled from the spec: the lowest address from [cur] on where [size]
    bytes fit between the blocks in use and below [lim]. *)
Fixpoint first_fit (cur lim size : Z) (bs : list (Z * Z)) : option Z :=
  match bs with
  | [] => if cur + size <=? lim then Some cur else None
  | (a, n) :: bs' =>
      if cur + size <=? a then Some cur else first_fit (a + n) lim size bs'
  end.

(** Modelled from the spec: the books of the allocator stay in address
    order. *)
Fixpoint insert_block (b : Z * Z) (bs : list (Z * Z)) : list (Z * Z) :=
  match bs with
  | [] => [b]
  | c :: bs' => if fst b <? fst c then b :: bs else c :: insert_block b bs'
  end.

(** Modelled from the spec: [allocate(size)], raw storage or failure.  The
    storage starts with the header of a free value of that size. *)
Definition mm_malloc (size : Z) (s : state) : option (Z * state) :=
  match first_fit (arena_base s) (arena_base s + arena_size s) size (blocks s) with
  | None => None
  | Some p =>
      Some (p, with_blocks (insert_block (p, size) (blocks s))
                 (store p (Value VAL_FREE 0 size RawData) s))
  end.

(** Modelled from the spec: [release(storage)].  Releasing what the
    allocator did not hand out is a fault. *)
Definition mm_free (p : Z) (s : state) : result state :=
  if existsb (fun b => fst b =? p) (blocks s) then
    Ok (with_blocks (filter (fun b => fst b ≠ p) (blocks s))
          (with_heap (alter (set_type VAL_FREE) p (heap s)) s))
  else Fault.

(** Modelled from the spec: [bytes_in_use()]. *)
Definition mem_used (s : state) : Z :=
  foldr (fun b acc => snd b + acc) 0 (blocks s).

(** ** The reference table *)

Definition ALIGNMENT : Z := 8.

Definition init_refs (memory_size : Z) (memory_pool : Z) : state :=
  let pool_size := (memory_size / 2) / ALIGNMENT * ALIGNMENT in
  State ∅ memory_pool pool_size [] memory_pool
        (memory_pool + (memory_size / 2) / ALIGNMENT * ALIGNMENT)
        pool_size [] 0.

(** The scan of [assign_reference], and of [get_ref]: the first index from
    [i] on whose slot is [p]. *)
Fixpoint find_slot (p : Z) (t : list Z) (i : reference_t) : option reference_t :=
  match t with
  | [] => None
  | q :: t' => if q =? p then Some i else find_slot p t' (i + 1)
  end.

Section Create.

(** [INITIAL_SIZE] comes from [config.h] and [sizeof(value_t)] from
    [types.h]; neither is among the sources. *)
Variable INITIAL_SIZE : Z.
Variable SIZEOF_VALUE_T : Z.

(** The table is grown with [realloc], which is taken to succeed (the
    program exits when it does not). *)
Definition assign_reference (value : Z) (s : state) : reference_t * state :=
  match find_slot NULL (ref_table s) 0 with
  | Some i => (i, set_slot i value s)
  | None =>
      let s1 :=
        if num_refs s =? max_refs s then
          with_max_refs (if max_refs s =? 0 then INITIAL_SIZE else max_refs s * 2) s
        else s in
      (num_refs s, with_table (ref_table s1 ++ [value]) s1)
  end.

(** [size_t] arithmetic is 64-bit. *)
Definition align_size (size : Z) : Z :=
  ((size + ALIGNMENT - 1) mod 2 ^ 64) / ALIGNMENT * ALIGNMENT.

(** [memset(value + 1, 0xCC, value->value_size - sizeof(value_t))]: the
    fill of the payload, which starts where the header ends.  Its length
    is computed in [size_t]; when the value is smaller than its header the
    subtraction wraps, and the fill runs over the memory beyond the
    storage of the value. *)
Definition fill_payload (value : Z) (s : state) : result state :=
  v ← load s value;
  let len := (value_size v - SIZEOF_VALUE_T) mod 2 ^ 64 in
  if SIZEOF_VALUE_T + len <=? value_size v
  then Ok (store value (set_data RawData v) s)
  else Fault.

Definition make_ref (ty : value_type_t) (size : Z) (s : state)
  : result (reference_t * state) :=
  let size := align_size size in
  match mm_malloc size s with
  | None => Ok (NULL_REF, s)
  | Some (value, s1) =>
      v ← load s1 value;
      if decide (type v = VAL_FREE) then
        let s2 := store value (set_ref_count 1 (set_type ty v)) s1 in
        s3 ← fill_payload value s2;
        Ok (assign_reference value s3)
      else Fault
  end.

End Create.

Definition deref (ref : reference_t) (s : state) : result Z :=
  if (0 <=? ref) && (ref <? num_refs s) then
    value ← slot s ref;
    if is_pool_address s value then Ok value else Fault
  else Fault.

Definition get_ref (value : Z) (s : state) : result reference_t :=
  match find_slot value (ref_table s) 0 with
  | Some i => Ok i
  | None => Fault
  end.

Definition refs_used (s : state) : Z :=
  foldr (fun p acc => if p =? NULL then acc else acc + 1) 0 (ref_table s).

(** ** Reference counting *)

Definition incref (ref : reference_t) (s : state) : result state :=
  value ← deref ref s;
  v ← load s value;
  Ok (store value (set_ref_count (wrap_count (ref_count v + 1)) v) s).

Definition is_sentinel (ref : reference_t) : bool :=
  (ref =? NULL_REF) || (ref =? TOMBSTONE_REF).

(** The loop over the entries of a reference array. *)
Fixpoint ref_array_loop (f : reference_t -> state -> result state)
    (entries : list reference_t) (s : state) : result state :=
  match entries with
  | [] => Ok s
  | ref :: rest =>
      s' ← (if is_sentinel ref then Ok s else f ref s);
      ref_array_loop f rest s'
  end.

(** The walk over the handles embedded in a value, as both
    [traverse_decref] and [copy_contents] write it out.  A composite kind
    over a payload without its handles (the [0xCC] fill) reads no handle of
    the table. *)
Definition for_each_child (f : reference_t -> state -> result state)
    (v : value_t) (s : state) : result state :=
  match type v with
  | VAL_LIST =>
      match data v with
      | ListData values => f values s
      | _ => Fault
      end
  | VAL_DICT =>
      match data v with
      | DictData keys values => s1 ← f keys s; f values s1
      | _ => Fault
      end
  | VAL_REF_ARRAY =>
      match data v with
      | RefArrayData entries => ref_array_loop f entries s
      | _ => Fault
      end
  | _ => Ok s
  end.

(** [traverse_decref(value)], over whichever [decref] it calls back.  The
    value is read once, when the walk starts: none of the calls the walk
    makes writes the payload of a value. *)
Definition traverse_with (f : reference_t -> state -> result state)
    (value : Z) (s : state) : result state :=
  v ← load s value;
  for_each_child f v s.

(** The body of [decref], with its recursive calls going to [rec]. *)
Definition decref_body (rec : reference_t -> state -> result state)
    (ref : reference_t) (s : state) : result state :=
  p ← slot s ref;
  if is_pool_address s p then
    value ← deref ref s;
    v ← load s value;
    let v' := set_ref_count (wrap_count (ref_count v - 1)) v in
    let s1 := store value v' s in
    if 0 <? ref_count v' then Ok s1
    else
      let s2 := set_slot ref NULL s1 in
      s3 ← traverse_with rec value s2;
      mm_free value s3
  else Ok s.

Fixpoint decref_fuel (fuel : nat) (ref : reference_t) (s : state) : result state :=
  match fuel with
  | O => OutOfFuel
  | S fuel' => decref_body (decref_fuel fuel') ref s
  end.

(** Every nested call that does anything follows the clearing of a slot, so
    the calls nest no deeper than the table is long. *)
Definition decref (ref : reference_t) (s : state) : result state :=
  decref_fuel (S (length (ref_table s))) ref s.

Definition traverse_decref (value : Z) (s : state) : result state :=
  traverse_with decref value s.

(** ** The copying collector *)

(** The body of [copy_contents], with its recursive calls going to [rec]. *)
Definition copy_contents_body (rec : reference_t -> state -> result state)
    (ref : reference_t) (s : state) : result state :=
  p ← slot s ref;
  if negb (is_pool_address s p) then
    old ← load s p;
    match mm_malloc (value_size old) s with
    | None => Fault
    | Some (value, s1) =>
        old_value ← load s1 p;
        let s2 := store value old_value s1 in
        let s3 := set_slot ref value s2 in
        v ← load s3 value;
        for_each_child rec v s3
    end
  else Ok s.

Fixpoint copy_contents_fuel (fuel : nat) (ref : reference_t) (s : state)
  : result state :=
  match fuel with
  | O => OutOfFuel
  | S fuel' => copy_contents_body (copy_contents_fuel fuel') ref s
  end.

(** Every nested call that does anything follows the relocation of a slot. *)
Definition copy_contents (ref : reference_t) (s : state) : result state :=
  copy_contents_fuel (S (length (ref_table s))) ref s.

(** Modelled from the spec: [foreach_global] of [eval.h] is not among the
    sources; it calls the visitor on every root handle.  The roots are the
    handles bound to the evaluator's globals. *)
Fixpoint foreach_global (f : reference_t -> state -> result state)
    (roots : list reference_t) (s : state) : result state :=
  match roots with
  | [] => Ok s
  | ref :: rest => s' ← f ref s; foreach_global f rest s'
  end.

Definition swap_spaces (s : state) : state :=
  State (heap s) (arena_base s) (arena_size s) (blocks s) (to_space s) (from_space s)
        (pool_size s) (ref_table s) (max_refs s).

(** One iteration of the sweep loop of [collect_garbage]. *)
Definition sweep_slot (i : reference_t) (s : state) : result state :=
  p ← slot s i;
  if negb (is_pool_address s p) && negb (p =? NULL) then
    s1 ← traverse_decref p s;
    Ok (set_slot i NULL s1)
  else Ok s.

(** The sweep loop, [n] iterations from index [i] on. *)
Fixpoint sweep (n : nat) (i : reference_t) (s : state) : result state :=
  match n with
  | O => Ok s
  | S n' => s' ← sweep_slot i s; sweep n' (i + 1) s'
  end.

(** The report of the bytes reclaimed, which [collect_garbage] prints when
    the interpreter is interactive, is left out. *)
Definition collect_garbage (roots : list reference_t) (s : state) : result state :=
  let s1 := mm_init (pool_size s) (to_space s) s in
  s2 ← foreach_global copy_contents roots s1;
  let s3 := swap_spaces s2 in
  sweep (length (ref_table s3)) 0 s3.

(** ** Notions used to state the properties *)

(** [m] does not run out of fuel, and its result, if any, satisfies [Q]. *)
Definition post {A} (m : result A) (Q : A -> Prop) : Prop :=
  match m with
  | Ok a => Q a
  | Fault => True
  | OutOfFuel => False
  end.

(** The number of slots that hold a pool address. *)
Definition pool_slots (s : state) : nat :=
  length (filter (fun p => is_pool_address s p = true) (ref_table s)).

(** The states [decref] and [copy_contents] move between have the table
    length and the arena of [s]. *)
Definition same_frame (s s' : state) : Prop :=
  length (ref_table s') = length (ref_table s) /\
  arena_base s' = arena_base s /\ arena_size s' = arena_size s.

(** The handles the walk over a value visits, in order; there are none to
    read when a composite kind lies over a payload without its handles. *)
Definition children (v : value_t) : option (list reference_t) :=
  match type v with
  | VAL_LIST =>
      match data v with
      | ListData values => Some [values]
      | _ => None
      end
  | VAL_DICT =>
      match data v with
      | DictData keys values => Some [keys; values]
      | _ => None
      end
  | VAL_REF_ARRAY =>
      match data v with
      | RefArrayData entries => Some (filter (fun r => is_sentinel r = false) entries)
      | _ => None
      end
  | _ => Some []
  end.

Definition sumZ {A} (g : A -> Z) (l : list A) : Z :=
  foldr (fun x acc => g x + acc) 0 l.

Definition size_at (s : state) (p : Z) : Z :=
  match heap s !! p with
  | Some v => value_size v
  | None => 0
  end.

(** The bytes of the values that slots of the table hold in the pool. *)
Definition slot_bytes (s : state) : Z :=
  sumZ (fun p => if is_pool_address s p then size_at s p else 0) (ref_table s).

(** Every handle embedded in the value is an index of the table. *)
Definition wf_value (s : state) (v : value_t) : Prop :=
  exists cs, children v = Some cs /\ forall c, c ∈ cs -> 0 <= c < num_refs s.

(** The pool side of a consistent state: no two slots share a value of the
    pool, and every such value is storage the allocator has handed out. *)
Record pool_ok (s : state) : Prop := {
  pool_null : is_pool_address s NULL = false;
  pool_nodup : NoDup (filter (fun p => is_pool_address s p = true) (ref_table s));
  pool_blocks_nodup : NoDup (map fst (blocks s));
  pool_values : forall p, p ∈ ref_table s -> is_pool_address s p = true ->
    exists v, heap s !! p = Some v /\ wf_value s v /\ (p, value_size v) ∈ blocks s
}.

(** What a call of [decref] can change. *)
Record decref_rel (s s' : state) : Prop := {
  dr_frame : same_frame s s';
  dr_spaces : from_space s' = from_space s /\ to_space s' = to_space s /\
              pool_size s' = pool_size s /\ max_refs s' = max_refs s;
  dr_table : forall i p, ref_table s !! i = Some p ->
    ref_table s' !! i = Some p \/ ref_table s' !! i = Some NULL;
  dr_heap_out : forall a, is_pool_address s a = false -> heap s' !! a = heap s !! a;
  dr_heap_in : forall a, a ∉ ref_table s -> heap s' !! a = heap s !! a;
  dr_kept : forall p v, p ∈ ref_table s' -> is_pool_address s p = true ->
    heap s !! p = Some v ->
    exists v', heap s' !! p = Some v' /\ type v' = type v /\ data v' = data v /\
               value_size v' = value_size v /\
               (0 <= ref_count v < 2 ^ 32 -> 0 <= ref_count v' < 2 ^ 32);
  dr_sizes : forall a, size_at s' a = size_at s a;
  dr_blocks_sub : forall b, b ∈ blocks s' -> b ∈ blocks s;
  dr_blocks : forall b, b ∈ blocks s ->
    b ∈ blocks s' \/
    (is_pool_address s (fst b) = true /\ fst b ∈ ref_table s /\ fst b ∉ ref_table s');
  dr_freed : forall b, b ∈ blocks s -> b ∉ blocks s' ->
    exists w, heap s' !! fst b = Some w /\ type w = VAL_FREE /\ ref_count w = 0;
  dr_account : mem_used s - mem_used s' = slot_bytes s - slot_bytes s'
}.

(** ** The graph of handles *)

(** The value a handle designates, if its slot holds one. *)
Definition value_at (s : state) (h : reference_t) : option value_t :=
  match slot s h with
  | Ok p => if p =? NULL then None else heap s !! p
  | _ => None
  end.

(** The handles embedded in the value of [h]. *)
Definition kids (s : state) (h : reference_t) : list reference_t :=
  match value_at s h with
  | Some v => default [] (children v)
  | None => []
  end.

(** [h] is a root, or is reached from a root through composite payloads. *)
Inductive reach (s : state) (roots : list reference_t) : reference_t -> Prop :=
| reach_root h : h ∈ roots -> reach s roots h
| reach_child h c : reach s roots h -> c ∈ kids s h -> reach s roots c.

(** The slot of [h] holds a value. *)
Definition live (s : state) (h : reference_t) : Prop :=
  exists p, slot s h = Ok p /\ p ≠ NULL.

(** The slot of [h] holds a value of the pool the allocator serves. *)
Definition pooled (s : state) (h : reference_t) : Prop :=
  exists p, slot s h = Ok p /\ is_pool_address s p = true.

(** The number of slots that hold no pool address. *)
Definition pending_slots (s : state) : nat :=
  length (filter (fun p => is_pool_address s p = false) (ref_table s)).

(** The bytes of the values that slots hold outside the pool. *)
Definition pending_bytes (s : state) : Z :=
  sumZ (fun p => if is_pool_address s p then 0
                 else if p =? NULL then 0 else size_at s p) (ref_table s).

(** The blocks lie one after the other from [cur] on. *)
Fixpoint packed (cur : Z) (bs : list (Z * Z)) : Prop :=
  match bs with
  | [] => True
  | (a, n) :: bs' => a = cur /\ 0 < n /\ packed (cur + n) bs'
  end.

(** The state the copying starts from: the allocator was reset over a
    region that holds none of the table's values. *)
Record copy_start (s0 : state) : Prop := {
  cs_null : is_pool_address s0 NULL = false;
  cs_blocks : blocks s0 = [];
  cs_outside : forall p, p ∈ ref_table s0 -> is_pool_address s0 p = false;
  cs_values : forall p, p ∈ ref_table s0 -> p ≠ NULL ->
    exists v, heap s0 !! p = Some v /\ 0 < value_size v /\ wf_value s0 v;
  cs_fit : pending_bytes s0 <= arena_size s0
}.

(** What holds while the values reachable from the roots are copied. *)
Record copy_inv (s0 s : state) : Prop := {
  ci_frame : same_frame s0 s;
  ci_spaces : from_space s = from_space s0 /\ to_space s = to_space s0 /\
              pool_size s = pool_size s0 /\ max_refs s = max_refs s0;
  ci_slot : forall i p0, ref_table s0 !! i = Some p0 ->
    ref_table s !! i = Some p0 \/
    (p0 ≠ NULL /\ exists p v, ref_table s !! i = Some p /\
       is_pool_address s p = true /\ heap s0 !! p0 = Some v /\ heap s !! p = Some v);
  ci_heap : forall a, is_pool_address s a = false -> heap s !! a = heap s0 !! a;
  ci_pool : pool_ok s;
  ci_packed : packed (arena_base s) (blocks s);
  ci_exact : mem_used s = slot_bytes s;
  ci_cap : mem_used s + pending_bytes s <= arena_size s
}.

(** What calls of [copy_contents] on [roots] add: slots of the pool stay,
    and a handle newly in the pool has its embedded handles in the pool and
    is reached from [roots]. *)
Record copy_step (s0 : state) (roots : list reference_t) (s s' : state) : Prop := {
  cp_pending : (pending_slots s' <= pending_slots s)%nat;
  cp_mono : forall i p, ref_table s !! i = Some p -> is_pool_address s p = true ->
    ref_table s' !! i = Some p;
  cp_new : forall h, pooled s' h ->
    pooled s h \/ ((forall c, c ∈ kids s0 h -> pooled s' c) /\ reach s0 roots h)
}.

(** The state after [copy_contents] has copied the value [v] of [ref] to the
    first free address of the pool and repointed the slot. *)
Definition relocated (s : state) (ref : reference_t) (v : value_t) : state :=
  let value := arena_base s + mem_used s in
  set_slot ref value
    (store value v
       (with_blocks (blocks s ++ [(value, value_size v)])
          (store value (Value VAL_FREE 0 (value_size v) RawData) s))).

(** What a visitor has to do for the walks of the copying: it is met by
    [copy_contents], and by [copy_contents_fuel] with enough fuel. *)
Definition copies (s0 : state) (k : nat)
    (rec : reference_t -> state -> result state) : Prop :=
  forall s c, copy_inv s0 s -> (pending_slots s <= k)%nat ->
    (forall h, reach s0 [c] h -> live s0 h) ->
    exists s', rec c s = Ok s' /\ copy_inv s0 s' /\ copy_step s0 [c] s s' /\ pooled s' c.

(** The values left outside the pool can be walked. *)
Definition garbage_ok (s : state) : Prop :=
  forall p, p ∈ ref_table s -> is_pool_address s p = false -> p ≠ NULL ->
    exists v, heap s !! p = Some v /\ wf_value s v.

(** ** Consistent states

    The state between two operations of the interface: the allocator serves
    the active half of the pool, every slot is unused or holds a value of
    that half, no two slots hold the same value, every value in a slot is
    storage the allocator has handed out, with a 32-bit count, a positive
    size and embedded handles that are indices of the table. *)
Record steady (s : state) : Prop := {
  st_from : 0 < from_space s;
  st_to : 0 < to_space s;
  st_size : 0 <= pool_size s;
  st_disjoint : from_space s + pool_size s <= to_space s \/
                to_space s + pool_size s <= from_space s;
  st_arena : arena_base s = from_space s /\ arena_size s = pool_size s;
  st_slots : forall p, p ∈ ref_table s -> p = NULL \/ is_pool_address s p = true;
  st_pool : pool_ok s;
  st_values : forall p v, p ∈ ref_table s -> p ≠ NULL -> heap s !! p = Some v ->
    0 < value_size v /\ 0 <= ref_count v < 2 ^ 32;
  st_blocks : forall b, b ∈ blocks s -> 0 <= snd b;
  st_fit : mem_used s <= pool_size s
}.

(** The bytes of the values whose slots were in use in the first table and
    are unused in the second. *)
Fixpoint reclaimed (size : Z -> Z) (t t' : list Z) : Z :=
  match t, t' with
  | p :: t, p' :: t' =>
      (if negb (p =? NULL) && (p' =? NULL) then size p else 0) + reclaimed size t t'
  | _, _ => 0
  end.

Definition reclaimed_bytes (s s' : state) : Z :=
  reclaimed (size_at s) (ref_table s) (ref_table s').

(** ** Counting references *)

(** [n] calls of [decref] on the same handle. *)
Fixpoint decref_times (n : nat) (ref : reference_t) (s : state) : result state :=
  match n with
  | O => Ok s
  | S n' => s' ← decref ref s; decref_times n' ref s'
  end.

(** How often the handle [h] occurs among [cs]. *)
Definition occ (h : reference_t) (cs : list reference_t) : Z :=
  sumZ (fun c => if c =? h then 1 else 0) cs.

(** How many of the handles [cs] have the pool address [a] in their slot. *)
Definition hits (s : state) (cs : list reference_t) (a : Z) : Z :=
  sumZ (fun c => match slot s c with
                 | Ok q => if (q =? a) && is_pool_address s q then 1 else 0
                 | _ => 0
                 end) cs.

(** What a walk with [decref] changes when no count reaches zero: the
    counts of the values it visits. *)
Record counts_rel (cs : list reference_t) (s s' : state) : Prop := {
  cr_table : ref_table s' = ref_table s;
  cr_blocks : blocks s' = blocks s;
  cr_arena : arena_base s' = arena_base s /\ arena_size s' = arena_size s;
  cr_spaces : from_space s' = from_space s /\ to_space s' = to_space s /\
              pool_size s' = pool_size s /\ max_refs s' = max_refs s;
  cr_heap : forall a, heap s' !! a =
    match heap s !! a with
    | Some w => Some (set_ref_count (ref_count w - hits s cs a) w)
    | None => None
    end
}.

(** Whether the slot of [j] holds a pool address. *)
Definition pooled_b (s : state) (j : reference_t) : bool :=
  match slot s j with
  | Ok p => is_pool_address s p
  | _ => false
  end.

(** How often [h] is embedded in the values of the handles [i], [i+1], ...
    ([n] of them) that [keep] leaves out. *)
Fixpoint refs_from (keep : reference_t -> bool) (s : state) (n : nat)
    (i : reference_t) (h : reference_t) : Z :=
  match n with
  | O => 0
  | S n' => (if keep i then 0 else occ h (kids s i)) + refs_from keep s n' (i + 1) h
  end.

(** How often [h] is embedded in the values of the handles that are not
    among [R]. *)
Definition garbage_refs (s : state) (R : list reference_t) (h : reference_t) : Z :=
  refs_from (fun j => bool_decide (j ∈ R)) s (length (ref_table s)) 0 h.

(** How often [h] is embedded in the values of the table, whichever
    handles hold them. *)
Definition embedded_refs (s : state) (h : reference_t) : Z :=
  refs_from (fun _ => false) s (length (ref_table s)) 0 h.

(** ** What a collection does to a slot

    [s] is the state before, [s2] the state after the copying, [s'] the
    state after the sweep; [p] is what slot [i] held before. *)

(** The slot held no value the copying reached: it ends up unused, and
    what it pointed at is left as it was. *)
Definition slot_swept (s s2 s' : state) (i : nat) (p : Z) : Prop :=
  ref_table s2 !! i = Some p /\ is_pool_address s2 p = false /\
  ref_table s' !! i = Some NULL /\
  heap s2 !! p = heap s !! p /\ heap s' !! p = heap s !! p.

(** The slot held a value the copying reached: the copy is in the new
    region, and the slot holds it until a decrement of the sweep releases it. *)
Definition slot_moved (s s2 s' : state) (i : nat) (p : Z) : Prop :=
  p ≠ NULL /\ exists p2 v, ref_table s2 !! i = Some p2 /\
    is_pool_address s2 p2 = true /\ heap s !! p = Some v /\ heap s2 !! p2 = Some v /\
    (ref_table s' !! i = Some p2 \/ ref_table s' !! i = Some NULL).

(** ** A concrete pool

    Four values in a pool of two halves of 1024 bytes at address 1000:
    handle 0 is a scalar, referenced twice; handle 1 (the only root) is a
    reference array holding 0 and the two sentinels; handle 2 is a list
    whose child is itself; handle 3 is a dict whose keys are handle 0 and
    whose values are itself. *)
Definition demo : state :=
  State {[1000 := Value VAL_SCALAR 2 24 RawData;
          1024 := Value VAL_REF_ARRAY 1 40 (RefArrayData [0; NULL_REF; TOMBSTONE_REF]);
          1064 := Value VAL_LIST 1 24 (ListData 2);
          1088 := Value VAL_DICT 1 32 (DictData 0 3)]}
        1000 1024 [(1000, 24); (1024, 40); (1064, 24); (1088, 32)]
        1000 2024 1024 [1000; 1024; 1064; 1088] 8.

(** The first concrete pool with one more reference to the list of handle
    2, held outside of values. *)
Definition demo_held : state :=
  store 1064 (Value VAL_LIST 2 24 (ListData 2)) demo.

(** A second concrete pool, of the same shape: handle 0 is a list that
    holds the only reference to the scalar at handle 1. *)
Definition chain : state :=
  State {[1000 := Value VAL_LIST 1 24 (ListData 1);
          1024 := Value VAL_SCALAR 1 24 RawData]}
        1000 1024 [(1000, 24); (1024, 24)]
        1000 2024 1024 [1000; 1024] 8.

(** The first concrete pool after a collection with handle 1 as its only
    root. *)
Definition demo_collected : state :=
  match collect_garbage [1] demo with
  | Ok s' => s'
  | _ => demo
  end.

(** The number of slots in use in the first table and unused in the second. *)
Definition released_count (s s' : state) : Z :=
  reclaimed (fun _ => 1) (ref_table s) (ref_table s').

(** * Lemmas *)

(** ** Basic facts: the result monad, slots, memory *)

Lemma bind_Ok {A B} (m : result A) (f : A -> result B) (b : B) :
  m ≫= f = Ok b -> exists a, m = Ok a /\ f a = Ok b.
Proof. destruct m; simpl; intros H; try discriminate. eauto. Qed.

Lemma slot_Ok s ref p :
  slot s ref = Ok p <->
  0 <= ref < num_refs s /\ ref_table s !! Z.to_nat ref = Some p.
Proof.
  unfold slot. destruct (Z.leb_spec 0 ref), (Z.ltb_spec ref (num_refs s)); simpl;
    try (split; [discriminate | intros [? ?]; lia]).
  destruct (ref_table s !! Z.to_nat ref) eqn:E.
  - split; [intros [= ->]; auto | intros [_ [= ->]]; auto].
  - split; [discriminate | intros [_ ?]; discriminate].
Qed.

Lemma slot_in_range s ref :
  0 <= ref < num_refs s -> exists p, slot s ref = Ok p.
Proof.
  intros H. unfold num_refs in H.
  destruct (lookup_lt_is_Some_2 (ref_table s) (Z.to_nat ref)) as [p Hp]; [lia|].
  exists p. apply slot_Ok. auto.
Qed.

Lemma slot_not_OutOfFuel s ref : slot s ref ≠ OutOfFuel.
Proof.
  unfold slot. destruct (_ && _); [|done]. by destruct (_ !! _).
Qed.

Lemma find_slot_Some p t : forall i j,
  find_slot p t i = Some j ->
  i <= j /\ t !! Z.to_nat (j - i) = Some p /\
  forall k, (k < Z.to_nat (j - i))%nat -> t !! k ≠ Some p.
Proof.
  induction t as [|q t IH]; intros i j H; simpl in H; [done|].
  destruct (Z.eqb_spec q p) as [->|Hne].
  - injection H as <-. rewrite Z.sub_diag. simpl. split; [lia|]. split; [done|]. intros k Hk; lia.
  - apply IH in H as (Hle & Hl & Hmin).
    replace (Z.to_nat (j - i)) with (S (Z.to_nat (j - (i + 1)))) by lia.
    split; [lia|]. split; [done|].
    intros [|k] Hk; simpl; [congruence|]. apply Hmin. lia.
Qed.

Lemma find_slot_None p t i : find_slot p t i = None <-> p ∉ t.
Proof.
  revert i. induction t as [|q t IH]; intros i; simpl.
  - split; [intros _; apply not_elem_of_nil | done].
  - destruct (Z.eqb_spec q p) as [->|Hne].
    + split; [done|]. intros H. exfalso. apply H. left.
    + rewrite IH. rewrite not_elem_of_cons.
      split; [intros ?; split; [congruence|done] | by intros [_ ?]].
Qed.

Lemma find_slot_lt p t i j :
  find_slot p t i = Some j -> j < i + Z.of_nat (length t).
Proof.
  intros H. apply find_slot_Some in H as (Hle & Hl & _).
  apply lookup_lt_Some in Hl. lia.
Qed.

(** ** Creating a value *)

Lemma mm_malloc_Some size s p s1 :
  mm_malloc size s = Some (p, s1) ->
  ref_table s1 = ref_table s /\ max_refs s1 = max_refs s /\
  heap s1 = <[p := Value VAL_FREE 0 size RawData]> (heap s) /\
  blocks s1 = insert_block (p, size) (blocks s) /\
  arena_base s1 = arena_base s /\ arena_size s1 = arena_size s /\
  from_space s1 = from_space s /\ to_space s1 = to_space s /\
  pool_size s1 = pool_size s.
Proof.
  unfold mm_malloc. destruct (first_fit _ _ _ _); [|done].
  intros [= <- <-]. simpl. repeat split; done.
Qed.

Section CreateFacts.

Variable INITIAL_SIZE : Z.
Variable SIZEOF_VALUE_T : Z.

Lemma align_size_range size : 0 <= align_size size < 2 ^ 64.
Proof.
  unfold align_size, ALIGNMENT.
  pose proof (Z.mod_pos_bound (size + 8 - 1) (2 ^ 64) ltac:(lia)) as Hb.
  pose proof (Z.div_mod ((size + 8 - 1) mod 2 ^ 64) 8 ltac:(lia)) as Hd.
  pose proof (Z.mod_pos_bound ((size + 8 - 1) mod 2 ^ 64) 8 ltac:(lia)) as Hb8.
  lia.
Qed.

(** The fill stays inside a value that is no smaller than its header. *)
Lemma fill_payload_Ok value s v :
  heap s !! value = Some v -> 0 <= SIZEOF_VALUE_T <= value_size v ->
  value_size v < 2 ^ 64 ->
  fill_payload SIZEOF_VALUE_T value s = Ok (store value (set_data RawData v) s).
Proof.
  intros Hv Hh Hlt. unfold fill_payload, load. rewrite Hv. simpl.
  rewrite Z.mod_small by lia.
  destruct (Z.leb_spec (SIZEOF_VALUE_T + (value_size v - SIZEOF_VALUE_T)) (value_size v));
    [done | lia].
Qed.

(** It runs past a value that is smaller than its header. *)
Lemma fill_payload_Fault value s v :
  heap s !! value = Some v -> 0 <= value_size v < SIZEOF_VALUE_T ->
  SIZEOF_VALUE_T < 2 ^ 64 ->
  fill_payload SIZEOF_VALUE_T value s = Fault.
Proof.
  intros Hv Hh Hlt. unfold fill_payload, load. rewrite Hv. simpl.
  replace (value_size v - SIZEOF_VALUE_T)
    with (value_size v - SIZEOF_VALUE_T + 2 ^ 64 + (-1) * 2 ^ 64) by lia.
  rewrite Z.mod_add by lia. rewrite Z.mod_small by lia.
  destruct (Z.leb_spec (SIZEOF_VALUE_T + (value_size v - SIZEOF_VALUE_T + 2 ^ 64))
              (value_size v)); [lia | done].
Qed.

Lemma make_ref_success ty size s p s1 :
  0 <= SIZEOF_VALUE_T <= align_size size ->
  mm_malloc (align_size size) s = Some (p, s1) ->
  make_ref INITIAL_SIZE SIZEOF_VALUE_T ty size s =
    Ok (assign_reference INITIAL_SIZE p
          (store p (Value ty 1 (align_size size) RawData) s1)).
Proof.
  intros Hsz Hm. unfold make_ref. rewrite Hm.
  apply mm_malloc_Some in Hm as (_ & _ & Hh & _).
  unfold load at 1. rewrite Hh, lookup_insert_eq. simpl.
  rewrite (fill_payload_Ok p _ (Value ty 1 (align_size size) RawData)).
  - simpl. do 2 f_equal. unfold store, with_heap. simpl. f_equal. apply insert_insert_eq.
  - simpl. apply lookup_insert_eq.
  - done.
  - simpl. apply align_size_range.
Qed.

(** [make_ref] on storage smaller than the header of a value. *)
Lemma make_ref_short ty size s p s1 :
  align_size size < SIZEOF_VALUE_T < 2 ^ 64 ->
  mm_malloc (align_size size) s = Some (p, s1) ->
  make_ref INITIAL_SIZE SIZEOF_VALUE_T ty size s = Fault.
Proof.
  intros Hsz Hm. unfold make_ref. rewrite Hm.
  apply mm_malloc_Some in Hm as (_ & _ & Hh & _).
  unfold load at 1. rewrite Hh, lookup_insert_eq. simpl.
  rewrite (fill_payload_Fault p _ (Value ty 1 (align_size size) RawData)); [done | | |].
  - simpl. apply lookup_insert_eq.
  - simpl. pose proof (align_size_range size). lia.
  - lia.
Qed.

Lemma assign_reference_reuse p s j :
  find_slot NULL (ref_table s) 0 = Some j ->
  assign_reference INITIAL_SIZE p s = (j, set_slot j p s).
Proof. intros H. unfold assign_reference. by rewrite H. Qed.

Lemma assign_reference_append p s :
  find_slot NULL (ref_table s) 0 = None ->
  assign_reference INITIAL_SIZE p s =
    (num_refs s,
     State (heap s) (arena_base s) (arena_size s) (blocks s) (from_space s)
       (to_space s) (pool_size s) (ref_table s ++ [p])
       (if num_refs s =? max_refs s
        then (if max_refs s =? 0 then INITIAL_SIZE else max_refs s * 2)
        else max_refs s)).
Proof.
  intros H. unfold assign_reference. rewrite H.
  destruct (num_refs s =? max_refs s); reflexivity.
Qed.

End CreateFacts.

(** ** Reasoning about results *)

Lemma post_bind {A B} (m : result A) (k : A -> result B) Q :
  post m (fun a => post (k a) Q) -> post (m ≫= k) Q.
Proof. destruct m; simpl; auto. Qed.

Lemma post_mono {A} (m : result A) (Q Q' : A -> Prop) :
  (forall a, Q a -> Q' a) -> post m Q -> post m Q'.
Proof. destruct m; simpl; auto. Qed.

Lemma post_not_OutOfFuel {A} (m : result A) Q : post m Q -> m ≠ OutOfFuel.
Proof. destruct m; simpl; congruence. Qed.

Lemma bind_not_OutOfFuel {A B} (m : result A) (k : A -> result B) :
  m ≫= k ≠ OutOfFuel ->
  m ≠ OutOfFuel /\ forall a, m = Ok a -> k a ≠ OutOfFuel.
Proof.
  destruct m; simpl; intros H; split; try congruence; intros ? [= <-]; done.
Qed.

(** ** The walk over the embedded handles *)

Lemma ref_array_loop_post (I : state -> Prop) f entries :
  (forall r s, I s -> post (f r s) I) ->
  forall s, I s -> post (ref_array_loop f entries s) I.
Proof.
  intros Hf. induction entries as [|r rest IH]; intros s Hs; simpl; [done|].
  apply post_bind. destruct (is_sentinel r); simpl; [by apply IH|].
  eapply post_mono; [|by apply Hf]. intros s' Hs'. by apply IH.
Qed.

Lemma for_each_child_post (I : state -> Prop) f v s :
  (forall r s, I s -> post (f r s) I) ->
  I s -> post (for_each_child f v s) I.
Proof.
  intros Hf Hs. unfold for_each_child.
  destruct (type v); try done; destruct (data v); try done.
  - by apply Hf.
  - apply post_bind. eapply post_mono; [|by apply Hf]. intros s' Hs'. by apply Hf.
  - by apply ref_array_loop_post.
Qed.

Lemma ref_array_loop_ext (I : state -> Prop) f g entries :
  (forall r s, I s -> g r s = f r s /\ post (f r s) I) ->
  forall s, I s -> ref_array_loop g entries s = ref_array_loop f entries s.
Proof.
  intros Hfg. induction entries as [|r rest IH]; intros s Hs; simpl; [done|].
  destruct (is_sentinel r); simpl; [by apply IH|].
  destruct (Hfg r s Hs) as [-> Hp]. destruct (f r s); simpl in *; try done.
  by apply IH.
Qed.

Lemma for_each_child_ext (I : state -> Prop) f g v s :
  (forall r s, I s -> g r s = f r s /\ post (f r s) I) ->
  I s -> for_each_child g v s = for_each_child f v s.
Proof.
  intros Hfg Hs. unfold for_each_child.
  destruct (type v); try done; destruct (data v); try done.
  - by apply Hfg.
  - destruct (Hfg keys s Hs) as [-> Hp]. destruct (f keys s); simpl in *; try done.
    by apply Hfg.
  - by eapply ref_array_loop_ext.
Qed.

(** Once a call has enough fuel for its recursion, more fuel changes nothing. *)
Lemma ref_array_loop_more f g entries :
  (forall r s, f r s ≠ OutOfFuel -> g r s = f r s) ->
  forall s, ref_array_loop f entries s ≠ OutOfFuel ->
    ref_array_loop g entries s = ref_array_loop f entries s.
Proof.
  intros Hfg. induction entries as [|r rest IH]; intros s H; simpl in *; [done|].
  destruct (is_sentinel r); simpl in *; [by apply IH|].
  apply bind_not_OutOfFuel in H as [H1 H2]. rewrite (Hfg _ _ H1).
  destruct (f r s) eqn:E; simpl; try done. apply IH. by apply H2.
Qed.

Lemma for_each_child_more f g v s :
  (forall r s, f r s ≠ OutOfFuel -> g r s = f r s) ->
  for_each_child f v s ≠ OutOfFuel ->
  for_each_child g v s = for_each_child f v s.
Proof.
  intros Hfg. unfold for_each_child.
  destruct (type v); try done; destruct (data v); try done.
  - apply Hfg.
  - intros H. apply bind_not_OutOfFuel in H as [H1 H2]. rewrite (Hfg _ _ H1).
    destruct (f keys s) eqn:E; simpl; try done. apply Hfg. by apply H2.
  - by apply ref_array_loop_more.
Qed.

(** ** Frames of the primitive updates *)

Lemma is_pool_address_frame s s' p :
  arena_base s' = arena_base s -> arena_size s' = arena_size s ->
  is_pool_address s' p = is_pool_address s p.
Proof. intros Hb Hs. unfold is_pool_address. by rewrite Hb, Hs. Qed.

Lemma same_frame_refl s : same_frame s s.
Proof. by repeat split. Qed.

Lemma same_frame_trans s1 s2 s3 :
  same_frame s1 s2 -> same_frame s2 s3 -> same_frame s1 s3.
Proof. unfold same_frame. intros (?&?&?) (?&?&?). repeat split; congruence. Qed.

Lemma same_frame_pool s s' p :
  same_frame s s' -> is_pool_address s' p = is_pool_address s p.
Proof. intros (_ & ? & ?). by apply is_pool_address_frame. Qed.

Lemma same_frame_store s p v : same_frame s (store p v s).
Proof. by repeat split. Qed.

Lemma same_frame_set_slot s ref p : same_frame s (set_slot ref p s).
Proof. repeat split; simpl; try done. apply length_insert. Qed.

Lemma mm_free_Ok p s s' :
  mm_free p s = Ok s' ->
  ref_table s' = ref_table s /\ max_refs s' = max_refs s /\
  heap s' = alter (set_type VAL_FREE) p (heap s) /\
  blocks s' = filter (fun b => fst b ≠ p) (blocks s) /\
  arena_base s' = arena_base s /\ arena_size s' = arena_size s /\
  from_space s' = from_space s /\ to_space s' = to_space s /\
  pool_size s' = pool_size s /\ p ∈ map fst (blocks s).
Proof.
  unfold mm_free. destruct (existsb _ _) eqn:E; [|done].
  intros [= <-]. simpl. repeat split; try done.
  apply existsb_exists in E as ([a n] & Hin & Ha). simpl in Ha.
  apply Z.eqb_eq in Ha as ->. apply list_elem_of_In. apply in_map_iff.
  by exists (p, n).
Qed.

Lemma mm_free_not_OutOfFuel p s : mm_free p s ≠ OutOfFuel.
Proof. unfold mm_free. by destruct (existsb _ _). Qed.

Lemma load_not_OutOfFuel s p : load s p ≠ OutOfFuel.
Proof. unfold load. by destruct (_ !! _). Qed.

Lemma deref_slot s ref p :
  slot s ref = Ok p -> is_pool_address s p = true -> deref ref s = Ok p.
Proof.
  intros Hs Hp. unfold deref. pose proof Hs as Hs'. apply slot_Ok in Hs' as [[H1 H2] _].
  destruct (Z.leb_spec 0 ref), (Z.ltb_spec ref (num_refs s)); try lia. simpl.
  rewrite Hs. simpl. by rewrite Hp.
Qed.

(** ** Counting slots *)

Lemma filter_insert_length {A} (P : A -> Prop) `{!forall x, Decision (P x)}
    (l : list A) i x y :
  l !! i = Some x ->
  (length (filter P (<[i:=y]> l)) + (if decide (P x) then 1 else 0) =
   length (filter P l) + (if decide (P y) then 1 else 0))%nat.
Proof.
  revert i. induction l as [|a l IH]; intros [|i] Hl; simpl in *; try done.
  - injection Hl as ->. rewrite !filter_cons.
    destruct (decide (P x)), (decide (P y)); simpl; lia.
  - rewrite !filter_cons. specialize (IH i Hl).
    destruct (decide (P a)); simpl; lia.
Qed.

Lemma pool_slots_le_length s : (pool_slots s <= length (ref_table s))%nat.
Proof. apply length_filter. Qed.

Lemma pool_slots_clear s ref p :
  slot s ref = Ok p -> is_pool_address s p = true ->
  is_pool_address s NULL = false ->
  S (pool_slots (set_slot ref NULL s)) = pool_slots s.
Proof.
  intros Hs Hp Hn. apply slot_Ok in Hs as [_ Hs]. unfold pool_slots. simpl.
  pose proof (filter_insert_length (fun p => is_pool_address s p = true)
                (ref_table s) _ _ NULL Hs) as H.
  unfold is_pool_address in *. simpl in *.
  repeat case_decide; try congruence; lia.
Qed.

(** ** [decref] terminates *)

Lemma pool_slots_frame s s' :
  ref_table s' = ref_table s -> arena_base s' = arena_base s ->
  arena_size s' = arena_size s -> pool_slots s' = pool_slots s.
Proof.
  intros Ht Hb Hs. unfold pool_slots. rewrite Ht. f_equal.
  apply list_filter_iff. intros p. by rewrite (is_pool_address_frame s s').
Qed.

Lemma decref_fuel_total fuel : forall ref s,
  is_pool_address s NULL = false ->
  (pool_slots s < fuel)%nat ->
  post (decref_fuel fuel ref s)
       (fun s' => same_frame s s' /\ (pool_slots s' <= pool_slots s)%nat).
Proof.
  induction fuel as [|fuel IH]; intros ref s Hn Hlt; [lia|].
  simpl. unfold decref_body.
  destruct (slot s ref) as [p| |] eqn:Hs; simpl;
    [| done | exfalso; by eapply slot_not_OutOfFuel].
  destruct (is_pool_address s p) eqn:Hp;
    [| simpl; split; [apply same_frame_refl | lia]].
  rewrite (deref_slot _ _ _ Hs Hp). simpl.
  destruct (load s p) as [v| |] eqn:Hl; simpl;
    [| done | exfalso; by eapply load_not_OutOfFuel].
  destruct (0 <? _); simpl; [split; [apply same_frame_store | done]|].
  set (s1 := store p _ s).
  assert (Hc : S (pool_slots (set_slot ref NULL s1)) = pool_slots s).
  { apply (pool_slots_clear s1 ref p); done. }
  set (s2 := set_slot ref NULL s1) in *.
  assert (Hf2 : same_frame s s2).
  { eapply same_frame_trans; [apply same_frame_store | apply same_frame_set_slot]. }
  apply post_bind. unfold traverse_with. apply post_bind.
  destruct (load s2 p) as [v2| |] eqn:Hl2; simpl;
    [| done | exfalso; by eapply load_not_OutOfFuel].
  eapply post_mono;
    [| apply (for_each_child_post
          (fun s3 => same_frame s2 s3 /\ (pool_slots s3 <= pool_slots s2)%nat))].
  - intros s3 [Hf3 Hle3].
    destruct (mm_free p s3) as [s4| |] eqn:Hm; simpl;
      [| done | exfalso; by eapply mm_free_not_OutOfFuel].
    apply mm_free_Ok in Hm as (Ht & _ & _ & _ & Hb & Hz & _).
    assert (same_frame s3 s4) by (repeat split; congruence).
    split; [eauto using same_frame_trans|].
    rewrite (pool_slots_frame s3 s4) by done. lia.
  - intros r s3 [Hf3 Hle3]. eapply post_mono; [|apply IH].
    + intros s4 [Hf4 Hle4]. split; [eauto using same_frame_trans | lia].
    + rewrite (same_frame_pool s2 s3), (same_frame_pool s s2); done.
    + lia.
  - split; [apply same_frame_refl | lia].
Qed.

Lemma decref_total ref s :
  is_pool_address s NULL = false ->
  post (decref ref s)
       (fun s' => same_frame s s' /\ (pool_slots s' <= pool_slots s)%nat).
Proof.
  intros Hn. apply decref_fuel_total; [done|].
  pose proof (pool_slots_le_length s). lia.
Qed.

(** More fuel than a call needs does not change its result. *)
Lemma decref_fuel_S fuel : forall ref s,
  decref_fuel fuel ref s ≠ OutOfFuel ->
  decref_fuel (S fuel) ref s = decref_fuel fuel ref s.
Proof.
  induction fuel as [|fuel IH]; intros ref s H; [done|].
  change (decref_body (decref_fuel (S fuel)) ref s =
          decref_body (decref_fuel fuel) ref s).
  change (decref_body (decref_fuel fuel) ref s ≠ OutOfFuel) in H.
  unfold decref_body in *.
  destruct (slot s ref) as [p| |]; simpl in *; try done.
  destruct (is_pool_address s p); [|done].
  destruct (deref ref s) as [q| |]; simpl in *; try done.
  destruct (load s q) as [v| |]; simpl in *; try done.
  destruct (0 <? _); [done|].
  apply bind_not_OutOfFuel in H as [H1 H2].
  unfold traverse_with in *.
  destruct (load _ q) as [v2| |]; simpl in *; try done.
  by rewrite (for_each_child_more (decref_fuel fuel) (decref_fuel (S fuel))).
Qed.

Lemma decref_fuel_enough fuel ref s :
  is_pool_address s NULL = false ->
  (pool_slots s < fuel)%nat ->
  decref_fuel fuel ref s = decref ref s.
Proof.
  intros Hn Hlt. unfold decref.
  pose proof (pool_slots_le_length s) as Hle.
  assert (Hgen : forall k, decref_fuel (k + S (pool_slots s)) ref s =
                           decref_fuel (S (pool_slots s)) ref s).
  { induction k as [|k IHk]; [done|]. simpl plus. rewrite decref_fuel_S; [done|].
    rewrite IHk. eapply post_not_OutOfFuel. apply decref_fuel_total; [done|lia]. }
  replace fuel with ((fuel - S (pool_slots s)) + S (pool_slots s))%nat by lia.
  replace (S (length (ref_table s)))
    with ((S (length (ref_table s)) - S (pool_slots s)) + S (pool_slots s))%nat by lia.
  by rewrite !Hgen.
Qed.

(** [decref] satisfies the equation the C function is written as. *)
Lemma decref_unfold ref s :
  is_pool_address s NULL = false ->
  decref ref s = decref_body decref ref s.
Proof.
  intros Hn. unfold decref at 1.
  change (decref_body (decref_fuel (length (ref_table s))) ref s =
          decref_body decref ref s).
  unfold decref_body.
  destruct (slot s ref) as [p| |] eqn:Hs; simpl; try done.
  destruct (is_pool_address s p) eqn:Hp; [|done].
  rewrite (deref_slot _ _ _ Hs Hp). simpl.
  destruct (load s p) as [v| |] eqn:Hl; simpl; try done.
  destruct (0 <? _); [done|].
  set (s1 := store p _ s).
  assert (Hc : S (pool_slots (set_slot ref NULL s1)) = pool_slots s).
  { apply (pool_slots_clear s1 ref p); done. }
  set (s2 := set_slot ref NULL s1) in *.
  assert (Hf2 : same_frame s s2).
  { eapply same_frame_trans; [apply same_frame_store | apply same_frame_set_slot]. }
  pose proof (pool_slots_le_length s) as Hle.
  unfold traverse_with.
  destruct (load s2 p) as [v2| |]; simpl; try done.
  rewrite (for_each_child_ext
    (fun s3 => same_frame s2 s3 /\ (pool_slots s3 <= pool_slots s2)%nat)
    (decref_fuel (length (ref_table s))) decref); [done| |].
  - intros r s3 [Hf3 Hle3].
    assert (Hn3 : is_pool_address s3 NULL = false).
    { rewrite (same_frame_pool s2 s3), (same_frame_pool s s2); done. }
    split.
    + symmetry. apply decref_fuel_enough; [done|lia].
    + eapply post_mono; [|apply decref_fuel_total; [done|lia]].
      intros s4 [Hf4 Hle4]. split; [eauto using same_frame_trans | lia].
  - split; [apply same_frame_refl | lia].
Qed.

(** ** The walk as a fold over [children] *)

Lemma ref_array_loop_filter f entries s :
  ref_array_loop f entries s =
  foreach_global f (filter (fun r => is_sentinel r = false) entries) s.
Proof.
  revert s. induction entries as [|r rest IH]; intros s; simpl; [done|].
  rewrite filter_cons. case_decide as E.
  - rewrite E. simpl. destruct (f r s); simpl; auto.
  - destruct (is_sentinel r); [apply IH | done].
Qed.

Lemma for_each_child_children f v s :
  for_each_child f v s =
  match children v with
  | Some cs => foreach_global f cs s
  | None => Fault
  end.
Proof.
  unfold for_each_child, children.
  destruct (type v); try done; destruct (data v); try done; simpl.
  - by destruct (f values s).
  - destruct (f keys s); simpl; try done. by destruct (f values a).
  - apply ref_array_loop_filter.
Qed.

Lemma foreach_global_total (I : state -> Prop) f cs :
  (forall r s, r ∈ cs -> I s -> exists s', f r s = Ok s' /\ I s') ->
  forall s, I s -> exists s', foreach_global f cs s = Ok s' /\ I s'.
Proof.
  induction cs as [|c cs IH]; intros Hf s Hs; simpl; [eauto|].
  destruct (Hf c s) as (s1 & -> & H1); [left | done |]. simpl.
  apply IH; [|done]. intros r s2 Hr. apply Hf. by right.
Qed.

(** ** Sums over the table and over the blocks *)

Lemma sumZ_insert {A} (g : A -> Z) (l : list A) i x y :
  l !! i = Some x -> sumZ g (<[i:=y]> l) = sumZ g l - g x + g y.
Proof.
  revert i. induction l as [|a l IH]; intros [|i] Hl; simpl in *; try done.
  - injection Hl as ->. lia.
  - rewrite (IH i Hl). lia.
Qed.

Lemma sumZ_ext {A} (g g' : A -> Z) (l : list A) :
  (forall x, x ∈ l -> g x = g' x) -> sumZ g l = sumZ g' l.
Proof.
  induction l as [|a l IH]; intros H; simpl; [done|].
  rewrite H by left. rewrite IH; [done|]. intros x Hx. apply H. by right.
Qed.

Lemma sumZ_nonneg {A} (g : A -> Z) (l : list A) :
  (forall x, x ∈ l -> 0 <= g x) -> 0 <= sumZ g l.
Proof.
  induction l as [|a l IH]; intros H; simpl; [lia|].
  assert (0 <= g a) by (apply H; left).
  assert (0 <= sumZ g l) by (apply IH; intros x Hx; apply H; by right). lia.
Qed.

Lemma filter_fst_ne_id (p : Z) (bs : list (Z * Z)) :
  p ∉ map fst bs -> filter (fun b => fst b ≠ p) bs = bs.
Proof.
  induction bs as [|[a n] bs IH]; intros H; simpl in *; [done|].
  apply not_elem_of_cons in H as [H1 H2]. rewrite filter_cons. simpl.
  rewrite decide_True by done. by rewrite IH.
Qed.

Lemma sumZ_release (p n : Z) (bs : list (Z * Z)) :
  NoDup (map fst bs) -> (p, n) ∈ bs ->
  sumZ snd (filter (fun b => fst b ≠ p) bs) = sumZ snd bs - n.
Proof.
  induction bs as [|[a m] bs IH]; intros Hnd Hin; [by apply elem_of_nil in Hin|].
  simpl in Hnd. apply NoDup_cons in Hnd as [Ha Hnd].
  rewrite filter_cons. simpl. destruct (decide (a = p)) as [->|Hne].
  - rewrite decide_False by (intros ?; done).
    rewrite filter_fst_ne_id by done.
    apply elem_of_cons in Hin as [[= ->]|Hin]; [lia|].
    exfalso. apply Ha. apply list_elem_of_In, in_map_iff. exists (p, n).
    split; [done|]. by apply list_elem_of_In.
  - rewrite decide_True by done. simpl.
    apply elem_of_cons in Hin as [[= ? ?]|Hin]; [congruence|].
    rewrite IH by done. lia.
Qed.

Lemma NoDup_fst_filter (P : Z * Z -> Prop) `{!forall b, Decision (P b)}
    (bs : list (Z * Z)) :
  NoDup (map fst bs) -> NoDup (map fst (filter P bs)).
Proof.
  induction bs as [|b bs IH]; intros Hnd; simpl in *; [done|].
  apply NoDup_cons in Hnd as [Hb Hnd]. rewrite filter_cons.
  destruct (decide (P b)); simpl; [|by apply IH].
  apply NoDup_cons. split; [|by apply IH].
  intros Hin. apply Hb. apply list_elem_of_In, in_map_iff in Hin as (c & Hc & Hin).
  apply list_elem_of_In, in_map_iff. exists c. split; [done|].
  apply list_elem_of_In. apply list_elem_of_In in Hin.
  by apply list_elem_of_filter in Hin as [_ ?].
Qed.

(** ** Clearing a slot *)

Lemma insert_removes_unique {A} (P : A -> Prop) `{!forall x, Decision (P x)}
    (l : list A) i x y :
  NoDup (filter P l) -> l !! i = Some x -> P x -> x ≠ y -> x ∉ <[i:=y]> l.
Proof.
  revert i. induction l as [|a l IH]; intros [|i] Hnd Hl Px Hy; simpl in *; try done.
  - injection Hl as ->. rewrite filter_cons, decide_True in Hnd by done.
    apply NoDup_cons in Hnd as [Hx _]. apply not_elem_of_cons. split; [done|].
    intros Hin. apply Hx. by apply list_elem_of_filter.
  - rewrite filter_cons in Hnd. apply not_elem_of_cons. split.
    + intros ->. rewrite decide_True in Hnd by done.
      apply NoDup_cons in Hnd as [Hx _]. apply Hx. apply list_elem_of_filter.
      split; [done|]. apply list_elem_of_lookup. eauto.
    + apply IH; try done. destruct (decide (P a)); [|done].
      by apply NoDup_cons in Hnd as [_ ?].
Qed.

Lemma filter_insert_sublist {A} (P : A -> Prop) `{!forall x, Decision (P x)}
    (l : list A) i y :
  ¬ P y -> filter P (<[i:=y]> l) `sublist_of` filter P l.
Proof.
  intros Hy. revert i. induction l as [|a l IH]; intros [|i]; simpl; try done.
  - rewrite !filter_cons. rewrite decide_False by done.
    destruct (decide (P a)); [by apply sublist_cons|done].
  - rewrite !filter_cons. destruct (decide (P a)); [by apply sublist_skip|apply IH].
Qed.

Lemma elem_of_insert_inv {A} (l : list A) i y z :
  z ∈ <[i:=y]> l -> z = y \/ z ∈ l.
Proof.
  revert i. induction l as [|a l IH]; intros [|i] H; simpl in *;
    try (by apply elem_of_nil in H).
  - apply elem_of_cons in H as [->|H]; [by left|]. right. by right.
  - apply elem_of_cons in H as [->|H]; [right; by left|].
    destruct (IH _ H); [by left|]. right. by right.
Qed.

Lemma filter_none {A} (P : A -> Prop) `{!forall x, Decision (P x)} (l : list A) :
  (forall x, x ∈ l -> ¬ P x) -> filter P l = [].
Proof.
  induction l as [|a l IH]; intros Hl; [done|].
  rewrite filter_cons, decide_False by (apply Hl; left).
  apply IH. intros x Hx. apply Hl. by right.
Qed.

Lemma sumZ_zero {A} (g : A -> Z) (l : list A) :
  (forall x, x ∈ l -> g x = 0) -> sumZ g l = 0.
Proof.
  induction l as [|a l IH]; intros Hl; simpl; [done|].
  rewrite Hl by left. rewrite IH; [done|]. intros x Hx. apply Hl. by right.
Qed.

(** ** What [decref] changes, and what it keeps *)

Lemma num_refs_frame s s' : same_frame s s' -> num_refs s' = num_refs s.
Proof. intros (Hl & _). unfold num_refs. by rewrite Hl. Qed.

Lemma slot_bytes_frame s s' :
  ref_table s' = ref_table s -> arena_base s' = arena_base s ->
  arena_size s' = arena_size s -> (forall a, size_at s' a = size_at s a) ->
  slot_bytes s' = slot_bytes s.
Proof.
  intros Ht Hb Hz Hs. unfold slot_bytes. rewrite Ht. apply sumZ_ext.
  intros p _. by rewrite (is_pool_address_frame s s'), Hs.
Qed.

Lemma decref_rel_refl s : decref_rel s s.
Proof.
  split; [apply same_frame_refl | done | intros; by left | done | done
         | intros p v _ _ Hv; by exists v | done | done | intros; by left
         | intros b Hb Hn; done | lia].
Qed.

Lemma table_entry_back s s' p :
  decref_rel s s' -> p ∈ ref_table s' -> p = NULL \/ p ∈ ref_table s.
Proof.
  intros Hr Hin. apply list_elem_of_lookup in Hin as [i Hi].
  destruct (dr_frame _ _ Hr) as (Hlen & _).
  destruct (lookup_lt_is_Some_2 (ref_table s) i) as [q Hq].
  { rewrite <- Hlen. by eapply lookup_lt_Some. }
  destruct (dr_table _ _ Hr i q Hq) as [H|H]; rewrite H in Hi; injection Hi as <-.
  - right. apply list_elem_of_lookup. eauto.
  - by left.
Qed.

Lemma pooled_entry_back s s' p :
  decref_rel s s' -> is_pool_address s NULL = false ->
  is_pool_address s p = true -> p ∈ ref_table s' -> p ∈ ref_table s.
Proof.
  intros Hr Hn Hp Hin. destruct (table_entry_back _ _ _ Hr Hin) as [->|?]; [|done].
  congruence.
Qed.

Lemma decref_rel_trans s1 s2 s3 :
  is_pool_address s1 NULL = false ->
  decref_rel s1 s2 -> decref_rel s2 s3 -> decref_rel s1 s3.
Proof.
  intros Hn H12 H23.
  pose proof (dr_frame _ _ H12) as Hf12. pose proof (dr_frame _ _ H23) as Hf23.
  assert (Hn2 : is_pool_address s2 NULL = false) by (by rewrite (same_frame_pool s1 s2)).
  split.
  - eauto using same_frame_trans.
  - destruct (dr_spaces _ _ H12) as (?&?&?&?), (dr_spaces _ _ H23) as (?&?&?&?).
    repeat split; congruence.
  - intros i p Hp. destruct (dr_table _ _ H12 i p Hp) as [H|H].
    + apply (dr_table _ _ H23 i p H).
    + right. by destruct (dr_table _ _ H23 i NULL H).
  - intros a Ha. rewrite (dr_heap_out _ _ H23), (dr_heap_out _ _ H12); try done.
    by rewrite (same_frame_pool s1 s2).
  - intros a Ha. destruct (decide (a = NULL)) as [->|Hne].
    + by rewrite (dr_heap_out _ _ H23), (dr_heap_out _ _ H12).
    + rewrite (dr_heap_in _ _ H23), (dr_heap_in _ _ H12); try done.
      intros Hin. by destruct (table_entry_back _ _ _ H12 Hin).
  - intros p v Hin Hp Hv.
    assert (Hp2 : is_pool_address s2 p = true) by (by rewrite (same_frame_pool s1 s2)).
    pose proof (pooled_entry_back _ _ _ H23 Hn2 Hp2 Hin) as Hin2.
    destruct (dr_kept _ _ H12 p v Hin2 Hp Hv) as (v' & Hv' & Ht).
    destruct (dr_kept _ _ H23 p v' Hin Hp2 Hv') as (v'' & Hv'' & Ht').
    destruct Ht as (Ht1 & Ht2 & Ht3 & Ht4). destruct Ht' as (Ht1' & Ht2' & Ht3' & Ht4').
    exists v''. repeat split; try congruence; by apply Ht4', Ht4.
  - intros a. by rewrite (dr_sizes _ _ H23), (dr_sizes _ _ H12).
  - intros b Hb. by apply (dr_blocks_sub _ _ H12), (dr_blocks_sub _ _ H23).
  - intros b Hb. destruct (dr_blocks _ _ H12 b Hb) as [H|(Hp & Hin & Hout)].
    + destruct (dr_blocks _ _ H23 b H) as [H'|(Hp' & Hin' & Hout')]; [by left|].
      right. assert (is_pool_address s1 b.1 = true) by (by rewrite <- (same_frame_pool s1 s2)).
      repeat split; try done. by eapply pooled_entry_back.
    + right. repeat split; try done. intros Hin3. apply Hout.
      eapply pooled_entry_back; try done. by rewrite (same_frame_pool s1 s2).
  - intros b Hb Hb3. destruct (decide (b ∈ blocks s2)) as [Hb2|Hb2].
    + by apply (dr_freed _ _ H23).
    + destruct (dr_freed _ _ H12 b Hb Hb2) as (w & Hw & Hfree).
      destruct (dr_blocks _ _ H12 b Hb) as [?|(_ & _ & Hout)]; [done|].
      exists w. by rewrite (dr_heap_in _ _ H23).
  - pose proof (dr_account _ _ H12). pose proof (dr_account _ _ H23). lia.
Qed.

Lemma wrap_count_range n : 0 <= wrap_count n < 2 ^ 32.
Proof. unfold wrap_count. apply Z.mod_pos_bound. lia. Qed.

Lemma children_set_ref_count n v : children (set_ref_count n v) = children v.
Proof. done. Qed.

Lemma size_at_store_count s p v n a :
  heap s !! p = Some v -> size_at (store p (set_ref_count n v) s) a = size_at s a.
Proof.
  intros Hv. unfold size_at. simpl. destruct (decide (a = p)) as [->|Hne].
  - by rewrite lookup_insert_eq, Hv.
  - by rewrite lookup_insert_ne.
Qed.

Lemma decref_rel_store s p v n :
  heap s !! p = Some v -> is_pool_address s p = true -> p ∈ ref_table s ->
  0 <= n < 2 ^ 32 ->
  decref_rel s (store p (set_ref_count n v) s).
Proof.
  intros Hv Hp Hin Hn. split; simpl; [apply same_frame_store | done | intros; by left | ..].
  - intros a Ha. rewrite lookup_insert_ne; [done|congruence].
  - intros a Ha. rewrite lookup_insert_ne; [done|congruence].
  - intros q w _ _ Hw. destruct (decide (q = p)) as [->|Hne].
    + rewrite lookup_insert_eq. eexists. split; [done|].
      assert (w = v) as -> by congruence. done.
    + rewrite lookup_insert_ne by done. by exists w.
  - intros a. by apply size_at_store_count.
  - done.
  - intros b Hb. by left.
  - intros b Hb Hnb. done.
  - rewrite (slot_bytes_frame s (store p (set_ref_count n v) s)); try done;
      [unfold mem_used; simpl; lia|].
    intros a. by apply size_at_store_count.
Qed.

Lemma pool_ok_store s p v n :
  pool_ok s -> heap s !! p = Some v -> pool_ok (store p (set_ref_count n v) s).
Proof.
  intros [Hn Hnd Hbn Hv] Hp. split; simpl; try done.
  intros q Hq Hpool. destruct (Hv q Hq Hpool) as (w & Hw & Hwf & Hb).
  destruct (decide (q = p)) as [->|Hne].
  - rewrite lookup_insert_eq. eexists. split; [done|].
    assert (w = v) as -> by congruence. done.
  - rewrite lookup_insert_ne by done. by exists w.
Qed.

Lemma slot_elem s ref p : slot s ref = Ok p -> p ∈ ref_table s.
Proof. intros H. apply slot_Ok in H as [_ H]. apply list_elem_of_lookup. eauto. Qed.

(** The state in which the children of a released value are walked: its
    count is stored, its slot is cleared, its block is still handed out. *)
Lemma release_cleared s ref p v n :
  pool_ok s -> slot s ref = Ok p -> is_pool_address s p = true ->
  heap s !! p = Some v ->
  let s2 := set_slot ref NULL (store p (set_ref_count n v) s) in
  pool_ok s2 /\ S (pool_slots s2) = pool_slots s /\ (p ∉ ref_table s2) /\
  load s2 p = Ok (set_ref_count n v) /\ same_frame s s2.
Proof.
  intros Hok Hs Hp Hv s2.
  pose proof (pool_ok_store s p v n Hok Hv) as [Hn Hnd Hbn Hval].
  set (s1 := store p (set_ref_count n v) s) in *.
  assert (Hs1 : slot s1 ref = Ok p) by done.
  assert (Hp0 : p ≠ NULL).
  { intros ->. pose proof (pool_null _ Hok). congruence. }
  assert (Hout : p ∉ ref_table s2).
  { apply slot_Ok in Hs1 as [_ Hl].
    by apply (insert_removes_unique (fun p => is_pool_address s1 p = true)
                (ref_table s1) _ p NULL). }
  split; [|split; [|split; [|split]]]; try done.
  - split; try done.
    + eapply sublist_NoDup; [exact Hnd|].
      apply (filter_insert_sublist (fun p => is_pool_address s1 p = true)).
      unfold s1. simpl. change (is_pool_address s NULL ≠ true).
      change (is_pool_address s NULL = false) in Hn. congruence.
    + intros q Hq Hpool. apply elem_of_insert_inv in Hq as [->|Hq].
      * change (is_pool_address s NULL = true) in Hpool.
        change (is_pool_address s NULL = false) in Hn. congruence.
      * destruct (Hval q Hq Hpool) as (w & Hw & (cs & Hcs & Hr) & Hb).
        exists w. split; [done|]. split; [|done]. exists cs. split; [done|].
        intros c Hc. unfold num_refs, s2. simpl. rewrite length_insert. by apply Hr.
  - apply (pool_slots_clear s1 ref p); done.
  - unfold load, s2. simpl. by rewrite lookup_insert_eq.
  - eapply same_frame_trans; [apply same_frame_store | apply same_frame_set_slot].
Qed.

Lemma slot_bytes_clear s ref p :
  slot s ref = Ok p -> is_pool_address s p = true ->
  is_pool_address s NULL = false ->
  slot_bytes (set_slot ref NULL s) = slot_bytes s - size_at s p.
Proof.
  intros Hs Hp Hn. apply slot_Ok in Hs as [_ Hs]. unfold slot_bytes. simpl.
  rewrite (sumZ_insert _ _ _ _ NULL Hs).
  change (is_pool_address (set_slot ref NULL s)) with (is_pool_address s).
  change (size_at (set_slot ref NULL s)) with (size_at s).
  rewrite Hp, Hn. lia.
Qed.

(** Releasing the storage after the walk. *)
Lemma release_freed s ref p v n s3 :
  pool_ok s -> slot s ref = Ok p -> is_pool_address s p = true ->
  heap s !! p = Some v -> n = 0 ->
  let s2 := set_slot ref NULL (store p (set_ref_count n v) s) in
  pool_ok s3 -> decref_rel s2 s3 ->
  exists s4, mm_free p s3 = Ok s4 /\ pool_ok s4 /\ decref_rel s s4.
Proof.
  intros Hok Hs Hp Hv Hzero s2 Hok3 H23.
  destruct (release_cleared s ref p v n Hok Hs Hp Hv) as (Hok2 & Hcnt & Hout & Hl2 & Hf2).
  fold s2 in Hok2, Hcnt, Hout, Hl2, Hf2.
  pose proof (pool_null _ Hok) as Hn.
  assert (Hn2 : is_pool_address s2 NULL = false) by done.
  assert (Hp2 : is_pool_address s2 p = true) by done.
  pose proof (dr_frame _ _ H23) as Hf23.
  assert (Hp3 : is_pool_address s3 p = true) by (by rewrite (same_frame_pool s2 s3)).
  assert (Hout3 : p ∉ ref_table s3).
  { intros Hin. apply Hout. by eapply pooled_entry_back. }
  destruct (pool_values _ Hok p (slot_elem _ _ _ Hs) Hp) as (v0 & Hv0 & Hwf & Hb).
  assert (v0 = v) as -> by congruence.
  assert (Hb3 : (p, value_size v) ∈ blocks s3).
  { destruct (dr_blocks _ _ H23 (p, value_size v)) as [?|(_ & Hin & _)]; done. }
  unfold mm_free.
  assert (He : existsb (fun b => fst b =? p) (blocks s3) = true).
  { apply existsb_exists. exists (p, value_size v). split; [by apply list_elem_of_In|].
    simpl. apply Z.eqb_refl. }
  rewrite He. eexists. split; [done|].
  set (s4 := with_blocks _ _).
  assert (Hh4 : forall q, q ≠ p -> heap s4 !! q = heap s3 !! q).
  { intros q Hq. unfold s4. simpl. by rewrite lookup_alter_ne. }
  assert (Hsz4 : forall a, size_at s4 a = size_at s3 a).
  { intros a. unfold size_at, s4. simpl. destruct (decide (a = p)) as [->|Hne].
    - rewrite lookup_alter_eq. by destruct (heap s3 !! p).
    - by rewrite lookup_alter_ne. }
  split.
  - destruct Hok3 as [Hn3 Hnd3 Hbn3 Hval3]. split; try done.
    + unfold s4. simpl. by apply NoDup_fst_filter.
    + intros q Hq Hpool. destruct (Hval3 q Hq Hpool) as (w & Hw & Hwfw & Hbw).
      assert (q ≠ p) by (intros ->; done).
      exists w. rewrite Hh4 by done. split; [done|]. split; [done|].
      unfold s4. simpl. apply list_elem_of_filter. split; [done|].
      apply list_elem_of_In. by apply list_elem_of_In in Hbw.
  - assert (H34 : same_frame s3 s4) by done.
    split.
    + eauto using same_frame_trans.
    + destruct (dr_spaces _ _ H23) as (?&?&?&?). done.
    + intros i q Hq. destruct (decide (i = Z.to_nat ref)) as [->|Hne].
      * apply slot_Ok in Hs as [_ Hs]. assert (q = p) as -> by congruence.
        right.
        destruct (dr_table _ _ H23 (Z.to_nat ref) NULL) as [H|H]; [|done|done].
        unfold s2. simpl. apply list_lookup_insert_eq. by eapply lookup_lt_Some.
      * apply (dr_table _ _ H23 i q).
        unfold s2. simpl. by rewrite list_lookup_insert_ne.
    + intros a Ha. assert (a ≠ p) by congruence.
      rewrite Hh4, (dr_heap_out _ _ H23) by done.
      unfold s2. simpl. by rewrite lookup_insert_ne.
    + intros a Ha. assert (a ≠ p) by (intros ->; apply Ha; by eapply slot_elem).
      rewrite Hh4 by done. destruct (decide (a = NULL)) as [->|Hne].
      * rewrite (dr_heap_out _ _ H23) by done. unfold s2. simpl. by rewrite lookup_insert_ne.
      * rewrite (dr_heap_in _ _ H23).
        -- unfold s2. simpl. by rewrite lookup_insert_ne.
        -- intros Hin. unfold s2 in Hin. simpl in Hin.
           by apply elem_of_insert_inv in Hin as [?|?].
    + intros q w Hq Hpool Hw. assert (q ≠ p) by (intros ->; done).
      destruct (dr_kept _ _ H23 q w) as (w' & Hw' & ?); try done.
      { unfold s2. simpl. by rewrite lookup_insert_ne. }
      exists w'. by rewrite Hh4.
    + intros a. rewrite Hsz4, (dr_sizes _ _ H23).
      unfold s2. change (size_at (set_slot ref NULL ?x)) with (size_at x).
      by apply size_at_store_count.
    + intros b Hbb. apply (dr_blocks_sub _ _ H23).
      unfold s4 in Hbb. simpl in Hbb. by apply list_elem_of_filter in Hbb as [_ ?].
    + intros b Hbb. destruct (dr_blocks _ _ H23 b Hbb) as [H|(Hpb & Hin & Hnin)].
      * destruct (decide (fst b = p)) as [Heq|Hne].
        -- right. rewrite Heq. split; [done|]. split; [by eapply slot_elem|done].
        -- left. unfold s4. simpl. by apply list_elem_of_filter.
      * right. split; [done|]. split; [|done].
        unfold s2 in Hin. simpl in Hin. apply elem_of_insert_inv in Hin as [Heq|?]; [|done].
        rewrite Heq in Hpb. change (is_pool_address s NULL = true) in Hpb. congruence.
    + intros b Hbb Hnb.
      assert (Hl3 : heap s3 !! p = Some (set_ref_count n v)).
      { rewrite (dr_heap_in _ _ H23) by done. unfold s2. simpl. by rewrite lookup_insert_eq. }
      destruct (decide (b ∈ blocks s3)) as [Hb3'|Hb3'].
      * assert (fst b = p) as ->.
        { destruct (decide (fst b = p)) as [|Hne]; [done|]. exfalso. apply Hnb.
          unfold s4. simpl. by apply list_elem_of_filter. }
        unfold s4. simpl. rewrite lookup_alter_eq, Hl3. simpl.
        eexists. split; [done|]. split; [done|]. simpl. done.
      * destruct (dr_freed _ _ H23 b Hbb Hb3') as (w & Hw & Htw & Hcw).
        destruct (decide (fst b = p)) as [Heq|Hne].
        -- unfold s4. simpl. rewrite Heq, lookup_alter_eq. rewrite Heq in Hw. rewrite Hw. simpl.
           eexists. split; [done|]. split; done.
        -- exists w. by rewrite Hh4.
    + pose proof (dr_account _ _ H23) as Hacc.
      assert (mem_used s4 = mem_used s3 - value_size v) as ->.
      { unfold mem_used, s4. simpl. apply (sumZ_release p (value_size v)); [|done].
        apply (pool_blocks_nodup _ Hok3). }
      assert (slot_bytes s4 = slot_bytes s3) as ->.
      { by apply slot_bytes_frame. }
      assert (slot_bytes s2 = slot_bytes s - value_size v) as Hc.
      { unfold s2. rewrite (slot_bytes_clear _ ref p); try done.
        rewrite (slot_bytes_frame s (store p (set_ref_count n v) s)); try done.
        - rewrite size_at_store_count by done. unfold size_at. by rewrite Hv.
        - intros a. by apply size_at_store_count. }
      change (mem_used s2) with (mem_used s) in Hacc. lia.
Qed.

(** [decref] on a consistent pool returns, and keeps the pool consistent. *)
Lemma decref_ok n : forall s,
  (pool_slots s <= n)%nat -> pool_ok s ->
  forall ref, 0 <= ref < num_refs s ->
  exists s', decref ref s = Ok s' /\ pool_ok s' /\ decref_rel s s'.
Proof.
  induction n as [|n IH]; intros s Hle Hok ref Hr;
    rewrite (decref_unfold _ _ (pool_null _ Hok)); unfold decref_body;
    destruct (slot_in_range s ref Hr) as [p Hs]; rewrite Hs; simpl;
    (destruct (is_pool_address s p) eqn:Hp;
      [| exists s; auto using decref_rel_refl]);
    rewrite (deref_slot _ _ _ Hs Hp); simpl;
    destruct (pool_values _ Hok p (slot_elem _ _ _ Hs) Hp) as (v & Hv & Hwf & Hb);
    unfold load at 1; rewrite Hv; simpl;
    (destruct (Z.ltb_spec 0 (wrap_count (ref_count v - 1))) as [Hpos|Hzero];
      [eexists; split; [done|]; split;
         [by apply pool_ok_store
         | apply decref_rel_store;
             [done | done | by eapply slot_elem | apply wrap_count_range]]|]);
    (assert (Hz : wrap_count (ref_count v - 1) = 0)
       by (pose proof (wrap_count_range (ref_count v - 1)); lia));
    destruct (release_cleared s ref p v (wrap_count (ref_count v - 1)) Hok Hs Hp Hv)
      as (Hok2 & Hcnt & Hout & Hl2 & Hf2).
  - lia.
  - set (s2 := set_slot ref NULL _) in *.
    unfold traverse_with. rewrite Hl2. simpl.
    rewrite for_each_child_children, children_set_ref_count.
    destruct Hwf as (cs & -> & Hcs).
    destruct (foreach_global_total
      (fun s3 => pool_ok s3 /\ decref_rel s2 s3 /\ (pool_slots s3 <= n)%nat)
      decref cs) with (s := s2) as (s3 & -> & Hok3 & H23 & _).
    + intros r s3 Hrin (Hok3 & H23 & Hle3).
      destruct (IH s3 Hle3 Hok3 r) as (s4 & Hd & Hok4 & H34).
      { rewrite (num_refs_frame s2 s3 (dr_frame _ _ H23)), (num_refs_frame s s2 Hf2).
        by apply Hcs. }
      exists s4. split; [done|]. split; [done|]. split.
      * eapply decref_rel_trans; [apply (pool_null _ Hok2) | done | done].
      * pose proof (decref_total r s3 (pool_null _ Hok3)) as Ht.
        rewrite Hd in Ht. simpl in Ht. lia.
    + split; [done|]. split; [apply decref_rel_refl | lia].
    + simpl. by apply (release_freed s ref p v (wrap_count (ref_count v - 1))).
Qed.

(** ** The allocator over a freshly reset region *)

Lemma sumZ_app {A} (g : A -> Z) (l k : list A) :
  sumZ g (l ++ k) = sumZ g l + sumZ g k.
Proof. induction l as [|a l IH]; simpl; [done|]. rewrite IH. lia. Qed.

Lemma packed_sum_nonneg cur bs : packed cur bs -> 0 <= sumZ snd bs.
Proof.
  revert cur. induction bs as [|[a n] bs IH]; intros cur H; simpl in *; [lia|].
  destruct H as (_ & Hn & H). specialize (IH _ H). lia.
Qed.

Lemma packed_bounds cur bs a n :
  packed cur bs -> (a, n) ∈ bs -> cur <= a /\ a + n <= cur + sumZ snd bs /\ 0 < n.
Proof.
  revert cur. induction bs as [|[b m] bs IH]; intros cur H Hin; simpl in *;
    [by apply elem_of_nil in Hin|].
  destruct H as (-> & Hm & H). pose proof (packed_sum_nonneg _ _ H).
  apply elem_of_cons in Hin as [[= -> ->]|Hin]; [lia|].
  destruct (IH _ H Hin) as (?&?&?). lia.
Qed.

Lemma packed_first_fit cur lim size bs :
  packed cur bs -> 0 < size ->
  first_fit cur lim size bs =
    if cur + sumZ snd bs + size <=? lim then Some (cur + sumZ snd bs) else None.
Proof.
  revert cur. induction bs as [|[a n] bs IH]; intros cur H Hs; simpl in *.
  - by rewrite Z.add_0_r.
  - destruct H as (-> & Hn & H). destruct (Z.leb_spec (cur + size) cur); [lia|].
    rewrite (IH _ H Hs). by rewrite !Z.add_assoc.
Qed.

Lemma packed_insert cur bs n :
  packed cur bs ->
  insert_block (cur + sumZ snd bs, n) bs = bs ++ [(cur + sumZ snd bs, n)].
Proof.
  revert cur. induction bs as [|[a m] bs IH]; intros cur H; simpl in *; [done|].
  destruct H as (-> & Hm & H). pose proof (packed_sum_nonneg _ _ H).
  destruct (Z.ltb_spec (cur + (m + sumZ snd bs)) cur); [lia|].
  f_equal. rewrite Z.add_assoc. by apply IH.
Qed.

Lemma packed_app cur bs n :
  packed cur bs -> 0 < n -> packed cur (bs ++ [(cur + sumZ snd bs, n)]).
Proof.
  revert cur. induction bs as [|[a m] bs IH]; intros cur H Hn; simpl in *.
  - split; [lia|done].
  - destruct H as (-> & Hm & H). split; [done|]. split; [done|].
    rewrite Z.add_assoc. by apply IH.
Qed.

Lemma malloc_packed s n :
  packed (arena_base s) (blocks s) -> 0 < n ->
  mem_used s + n <= arena_size s ->
  mm_malloc n s =
    Some (arena_base s + mem_used s,
          with_blocks (blocks s ++ [(arena_base s + mem_used s, n)])
            (store (arena_base s + mem_used s) (Value VAL_FREE 0 n RawData) s)).
Proof.
  intros Hp Hn Hfit. unfold mm_malloc. rewrite (packed_first_fit _ _ _ _ Hp Hn).
  pose proof (packed_insert _ _ n Hp) as Hi.
  change (sumZ snd (blocks s)) with (mem_used s) in *.
  destruct (Z.leb_spec (arena_base s + mem_used s + n) (arena_base s + arena_size s)); [|lia].
  by rewrite Hi.
Qed.

Lemma fresh_is_pooled s n :
  packed (arena_base s) (blocks s) -> 0 < n ->
  mem_used s + n <= arena_size s ->
  is_pool_address s (arena_base s + mem_used s) = true.
Proof.
  intros Hp Hn Hfit. pose proof (packed_sum_nonneg _ _ Hp) as H0.
  change (sumZ snd (blocks s)) with (mem_used s) in H0.
  unfold is_pool_address. apply andb_true_iff. split; [apply Z.leb_le | apply Z.ltb_lt]; lia.
Qed.

(** The body of [copy_contents] on a slot outside the pool. *)
Lemma copy_body_relocate rec s ref p v :
  slot s ref = Ok p -> is_pool_address s p = false -> heap s !! p = Some v ->
  packed (arena_base s) (blocks s) -> 0 < value_size v ->
  mem_used s + value_size v <= arena_size s ->
  copy_contents_body rec ref s = for_each_child rec v (relocated s ref v).
Proof.
  intros Hs Hp Hv Hpk Hn Hfit. unfold copy_contents_body. rewrite Hs. simpl.
  rewrite Hp. simpl.
  assert (Hl : load s p = Ok v) by (unfold load; by rewrite Hv).
  rewrite Hl. simpl.
  rewrite (malloc_packed _ _ Hpk Hn Hfit).
  pose proof (fresh_is_pooled _ _ Hpk Hn Hfit) as He.
  set (e := arena_base s + mem_used s) in *.
  assert (p ≠ e) by congruence.
  set (s1 := with_blocks _ _).
  assert (Hl1 : load s1 p = Ok v).
  { unfold load, s1. simpl. rewrite lookup_insert_ne by done. by rewrite Hv. }
  rewrite Hl1. simpl.
  assert (Hl3 : load (set_slot ref e (store e v s1)) e = Ok v).
  { unfold load. simpl. by rewrite lookup_insert_eq. }
  rewrite Hl3. simpl. done.
Qed.

(** ** Relocating one value *)

Lemma sumZ_ge_term {A} (g : A -> Z) (l : list A) i x :
  (forall y, y ∈ l -> 0 <= g y) -> l !! i = Some x -> g x <= sumZ g l.
Proof.
  revert i. induction l as [|a l IH]; intros [|i] Hpos Hl; simpl in *; try done.
  - injection Hl as ->.
    assert (0 <= sumZ g l) by (apply sumZ_nonneg; intros y Hy; apply Hpos; by right). lia.
  - assert (0 <= g a) by (apply Hpos; left).
    assert (g x <= sumZ g l) by (eapply IH; [|done]; intros y Hy; apply Hpos; by right). lia.
Qed.

Lemma NoDup_filter_insert {A} (P : A -> Prop) `{!forall x, Decision (P x)}
    (l : list A) i y :
  NoDup (filter P l) -> y ∉ l -> NoDup (filter P (<[i:=y]> l)).
Proof.
  revert i. induction l as [|a l IH]; intros [|i] Hnd Hy; simpl in *; try done.
  - apply not_elem_of_cons in Hy as [Hya Hy].
    assert (NoDup (filter P l)).
    { rewrite filter_cons in Hnd. destruct (decide (P a)); [|done].
      by apply NoDup_cons in Hnd as [_ ?]. }
    rewrite filter_cons. destruct (decide (P y)); [|done].
    apply NoDup_cons. split; [|done]. intros Hin. apply Hy.
    by apply list_elem_of_filter in Hin as [_ ?].
  - apply not_elem_of_cons in Hy as [Hya Hy]. rewrite filter_cons in *.
    destruct (decide (P a)); [|by apply IH].
    apply NoDup_cons in Hnd as [Ha Hnd]. apply NoDup_cons. split; [|by apply IH].
    intros Hin. apply list_elem_of_filter in Hin as [_ Hin].
    apply elem_of_insert_inv in Hin as [->|Hin]; [done|].
    apply Ha. by apply list_elem_of_filter.
Qed.

Lemma entry_origin s0 s x :
  copy_inv s0 s -> x ∈ ref_table s -> is_pool_address s x = false ->
  x ∈ ref_table s0.
Proof.
  intros Hci Hin Hx. apply list_elem_of_lookup in Hin as [i Hi].
  destruct (ci_frame _ _ Hci) as (Hlen & _).
  destruct (lookup_lt_is_Some_2 (ref_table s0) i) as [p0 Hp0].
  { rewrite <- Hlen. by eapply lookup_lt_Some. }
  destruct (ci_slot _ _ Hci i p0 Hp0) as [H|(_ & p & v & H & Hp & _)].
  - assert (x = p0) as -> by congruence. apply list_elem_of_lookup. eauto.
  - assert (x = p) as -> by congruence. congruence.
Qed.

Lemma pending_value s0 s x :
  copy_start s0 -> copy_inv s0 s -> x ∈ ref_table s ->
  is_pool_address s x = false -> x ≠ NULL ->
  exists v, heap s !! x = Some v /\ heap s0 !! x = Some v /\
            0 < value_size v /\ wf_value s0 v.
Proof.
  intros Hcs Hci Hin Hx H0.
  pose proof (entry_origin _ _ _ Hci Hin Hx) as Hin0.
  destruct (cs_values _ Hcs x Hin0 H0) as (v & Hv & Hpos & Hwf).
  exists v. rewrite (ci_heap _ _ Hci) by done. done.
Qed.

Lemma pending_ge s0 s i p :
  copy_start s0 -> copy_inv s0 s -> ref_table s !! i = Some p ->
  is_pool_address s p = false -> p ≠ NULL ->
  size_at s p <= pending_bytes s.
Proof.
  intros Hcs Hci Hi Hp H0. unfold pending_bytes.
  pose proof (sumZ_ge_term
    (fun p => if is_pool_address s p then 0 else if p =? NULL then 0 else size_at s p)
    (ref_table s) i p) as H. simpl in H.
  rewrite Hp in H. destruct (Z.eqb_spec p NULL); [done|]. apply H; [|done].
  intros y Hy. destruct (is_pool_address s y) eqn:Ey; [lia|].
  destruct (Z.eqb_spec y NULL); [lia|].
  destruct (pending_value s0 s y) as (w & Hw & _ & Hpos & _); try done.
  unfold size_at. rewrite Hw. lia.
Qed.

Lemma pooled_below_fresh s q :
  pool_ok s -> packed (arena_base s) (blocks s) ->
  q ∈ ref_table s -> is_pool_address s q = true ->
  q < arena_base s + mem_used s.
Proof.
  intros Hok Hpk Hin Hq. destruct (pool_values _ Hok q Hin Hq) as (w & _ & _ & Hb).
  destruct (packed_bounds _ _ _ _ Hpk Hb) as (_ & H & Hn).
  change (sumZ snd (blocks s)) with (mem_used s) in H. lia.
Qed.

Lemma relocated_facts s ref v a :
  let e := arena_base s + mem_used s in
  heap (relocated s ref v) !! e = Some v /\
  (a ≠ e -> heap (relocated s ref v) !! a = heap s !! a) /\
  ref_table (relocated s ref v) = <[Z.to_nat ref := e]> (ref_table s) /\
  blocks (relocated s ref v) = blocks s ++ [(e, value_size v)] /\
  same_frame s (relocated s ref v) /\
  (a ≠ e -> size_at (relocated s ref v) a = size_at s a) /\
  size_at (relocated s ref v) e = value_size v /\
  mem_used (relocated s ref v) = mem_used s + value_size v.
Proof.
  intros e. unfold relocated. fold e. simpl. repeat split; try done.
  - apply lookup_insert_eq.
  - intros Ha. by rewrite !lookup_insert_ne.
  - simpl. apply length_insert.
  - intros Ha. unfold size_at. simpl. by rewrite !lookup_insert_ne.
  - unfold size_at. simpl. by rewrite lookup_insert_eq.
  - unfold mem_used. simpl. change (foldr _ 0 ?l) with (sumZ snd l).
    rewrite sumZ_app. simpl. lia.
Qed.

Lemma relocated_inv s0 s ref p v :
  copy_start s0 -> copy_inv s0 s ->
  slot s ref = Ok p -> is_pool_address s p = false -> p ≠ NULL ->
  heap s !! p = Some v ->
  copy_inv s0 (relocated s ref v) /\
  S (pending_slots (relocated s ref v)) = pending_slots s /\
  (forall i q, ref_table s !! i = Some q -> is_pool_address s q = true ->
     ref_table (relocated s ref v) !! i = Some q) /\
  pooled (relocated s ref v) ref /\
  (forall h, pooled (relocated s ref v) h -> pooled s h \/ h = ref).
Proof.
  intros Hcs Hci Hs Hp H0 Hv.
  pose proof (slot_elem _ _ _ Hs) as Hin.
  destruct (pending_value s0 s p Hcs Hci Hin Hp H0) as (v' & Hv' & Hv0 & Hpos & Hwf).
  assert (v' = v) as -> by congruence. clear Hv'.
  pose proof (ci_pool _ _ Hci) as Hok. pose proof (ci_packed _ _ Hci) as Hpk.
  pose proof (ci_frame _ _ Hci) as Hf0.
  pose proof Hs as Hs'. apply slot_Ok in Hs' as [Hr Hl].
  assert (Hfit : mem_used s + value_size v <= arena_size s).
  { pose proof (pending_ge s0 s _ p Hcs Hci Hl Hp H0) as Hge.
    unfold size_at in Hge. rewrite Hv in Hge. pose proof (ci_cap _ _ Hci). lia. }
  pose proof (fresh_is_pooled _ _ Hpk Hpos Hfit) as He.
  pose proof (fun a => relocated_facts s ref v a) as Hfacts.
  set (s3 := relocated s ref v) in *. set (e := arena_base s + mem_used s) in *.
  destruct (Hfacts e) as (Hhe & _ & Ht3 & Hb3 & Hf3 & _ & Hsz & Hmu).
  assert (Hh3 : forall a, a ≠ e -> heap s3 !! a = heap s !! a) by (intros a; apply Hfacts).
  assert (Hsz3 : forall a, a ≠ e -> size_at s3 a = size_at s a) by (intros a; apply Hfacts).
  assert (Hpool3 : forall a, is_pool_address s3 a = is_pool_address s a).
  { intros a. by apply same_frame_pool. }
  assert (Hfresh : forall q, q ∈ ref_table s -> is_pool_address s q = true -> q ≠ e).
  { intros q Hq Hqp. pose proof (pooled_below_fresh s q Hok Hpk Hq Hqp). unfold e. lia. }
  assert (Hnotin : e ∉ ref_table s) by (intros Hq; by apply (Hfresh e)).
  assert (Hpe : p ≠ e) by congruence.
  assert (Hlt : (Z.to_nat ref < length (ref_table s))%nat) by (by eapply lookup_lt_Some).
  split; [|split; [|split; [|split]]].
  - split.
    + eauto using same_frame_trans.
    + apply (ci_spaces _ _ Hci).
    + intros i p0 Hp0. rewrite Ht3. destruct (decide (i = Z.to_nat ref)) as [->|Hne].
      * right. destruct (ci_slot _ _ Hci _ p0 Hp0) as [H|(_ & p' & w & H & Hp' & _)].
        -- assert (p0 = p) as -> by congruence. split; [done|]. exists e, v.
           rewrite list_lookup_insert_eq by done. rewrite Hpool3. done.
        -- assert (p' = p) as -> by congruence. congruence.
      * rewrite list_lookup_insert_ne by done.
        destruct (ci_slot _ _ Hci _ p0 Hp0) as [H|(Hn0 & p' & w & H & Hp' & Hw0 & Hw)];
          [by left|].
        right. split; [done|]. exists p', w. rewrite Hpool3, Hh3; [done|].
        apply Hfresh; [|done]. apply list_elem_of_lookup. eauto.
    + intros a Ha. rewrite Hpool3 in Ha. rewrite Hh3 by congruence.
      by apply (ci_heap _ _ Hci).
    + destruct Hok as [Hn Hnd Hbn Hval]. split.
      * by rewrite Hpool3.
      * rewrite Ht3.
        rewrite (list_filter_iff _ (fun p => is_pool_address s p = true))
          by (intros x; by rewrite Hpool3).
        by apply NoDup_filter_insert.
      * rewrite Hb3, map_app. simpl. apply NoDup_app. split; [done|]. split.
        -- intros x Hx Hxe. apply list_elem_of_singleton in Hxe as ->.
           apply list_elem_of_In, in_map_iff in Hx as ([a n] & Ha & Hx). simpl in Ha. subst a.
           apply list_elem_of_In in Hx.
           destruct (packed_bounds _ _ _ _ Hpk Hx) as (_ & H & Hn').
           change (sumZ snd (blocks s)) with (mem_used s) in H. unfold e in H. lia.
        -- apply NoDup_singleton.
      * intros q Hq Hqp. rewrite Ht3 in Hq. rewrite Hpool3 in Hqp.
        apply elem_of_insert_inv in Hq as [->|Hq].
        -- exists v. split; [done|]. split.
           ++ destruct Hwf as (cs & Hcs' & Hin'). exists cs. split; [done|].
              intros c Hc. rewrite (num_refs_frame s0 s3); [by apply Hin'|].
              eapply same_frame_trans; [exact Hf0 | exact Hf3].
           ++ rewrite Hb3. apply elem_of_app. right. by apply list_elem_of_singleton.
        -- destruct (Hval q Hq Hqp) as (w & Hw & (cs & Hcs' & Hin') & Hb).
           exists w. rewrite Hh3 by (by apply Hfresh). split; [done|]. split.
           ++ exists cs. split; [done|]. intros c Hc.
              rewrite (num_refs_frame s s3 Hf3). by apply Hin'.
           ++ rewrite Hb3. apply elem_of_app. by left.
    + destruct Hf3 as (_ & -> & _). rewrite Hb3. unfold e.
      change (mem_used s) with (sumZ snd (blocks s)). by apply packed_app.
    + rewrite Hmu. unfold slot_bytes. rewrite Ht3.
      rewrite (sumZ_insert _ _ _ _ e Hl). rewrite !Hpool3, Hp, He, Hsz.
      rewrite (sumZ_ext _ (fun p => if is_pool_address s p then size_at s p else 0)).
      * pose proof (ci_exact _ _ Hci). unfold slot_bytes in *. lia.
      * intros x Hx. rewrite Hpool3. destruct (is_pool_address s x) eqn:Ex; [|done].
        apply Hsz3. by apply Hfresh.
    + rewrite Hmu. unfold pending_bytes. rewrite Ht3.
      rewrite (sumZ_insert _ _ _ _ e Hl). rewrite !Hpool3, Hp, He.
      destruct (Z.eqb_spec p NULL); [done|].
      rewrite (sumZ_ext _ (fun p => if is_pool_address s p then 0
                                    else if p =? NULL then 0 else size_at s p)).
      * pose proof (ci_cap _ _ Hci) as Hcap. unfold pending_bytes in Hcap.
        rewrite Hsz3 by done. unfold size_at at 2. rewrite Hv.
        destruct Hf3 as (_ & _ & ->). lia.
      * intros x Hx. rewrite Hpool3. destruct (is_pool_address s x) eqn:Ex; [done|].
        destruct (Z.eqb_spec x NULL); [done|]. apply Hsz3. congruence.
  - unfold pending_slots. rewrite Ht3.
    rewrite (list_filter_iff _ (fun p => is_pool_address s p = false))
      by (intros x; by rewrite Hpool3).
    pose proof (filter_insert_length (fun p => is_pool_address s p = false)
                  (ref_table s) _ _ e Hl) as H.
    rewrite decide_True in H by done. rewrite decide_False in H by congruence. lia.
  - intros i q Hq Hqp. rewrite Ht3. rewrite list_lookup_insert_ne; [done|].
    intros <-. congruence.
  - exists e. split; [|by rewrite Hpool3]. apply slot_Ok.
    rewrite (num_refs_frame s s3 Hf3). split; [done|]. rewrite Ht3.
    by apply list_lookup_insert_eq.
  - intros h (q & Hq & Hqp). destruct (decide (h = ref)) as [->|Hne]; [by right|].
    left. exists q. rewrite Hpool3 in Hqp. split; [|done].
    apply slot_Ok in Hq as [Hr' Hq]. rewrite (num_refs_frame s s3 Hf3) in Hr'.
    apply slot_Ok. split; [done|]. rewrite Ht3 in Hq.
    rewrite list_lookup_insert_ne in Hq; [done|]. lia.
Qed.

(** ** Reachability *)

Lemma reach_mono s roots roots' h :
  (forall r, r ∈ roots -> reach s roots' r) -> reach s roots h -> reach s roots' h.
Proof.
  intros Hsub Hr. induction Hr as [h Hh|h c _ IH Hc]; [by apply Hsub|].
  by eapply reach_child.
Qed.

Lemma reach_subset s roots roots' h :
  roots ⊆ roots' -> reach s roots h -> reach s roots' h.
Proof.
  intros Hsub. apply reach_mono. intros r Hr. apply reach_root. by apply Hsub.
Qed.

Lemma reach_single s roots r h :
  r ∈ roots -> reach s [r] h -> reach s roots h.
Proof.
  intros Hr. apply reach_mono. intros r' Hr'.
  apply list_elem_of_singleton in Hr' as ->. by apply reach_root.
Qed.

Lemma reach_kids s ref cs h :
  (forall c, c ∈ cs -> c ∈ kids s ref) -> reach s cs h -> reach s [ref] h.
Proof.
  intros Hk. apply reach_mono. intros c Hc.
  apply (reach_child _ _ ref); [|by apply Hk].
  apply reach_root. by apply list_elem_of_singleton.
Qed.

(** A set of handles that holds the roots and is closed under [kids] holds
    every reachable handle. *)
Lemma reach_closed s roots (P : reference_t -> Prop) h :
  (forall r, r ∈ roots -> P r) ->
  (forall x c, P x -> c ∈ kids s x -> P c) ->
  reach s roots h -> P h.
Proof.
  intros Hroots Hcl Hr. induction Hr as [h Hh|h c _ IH Hc]; eauto.
Qed.

(** ** The copying of the reachable values *)

Lemma pooled_mono s0 roots s s' h :
  same_frame s s' -> copy_step s0 roots s s' -> pooled s h -> pooled s' h.
Proof.
  intros Hf Hst (p & Hs & Hp). exists p. rewrite (same_frame_pool s s') by done.
  split; [|done]. apply slot_Ok in Hs as [Hr Hl]. apply slot_Ok.
  rewrite (num_refs_frame s s' Hf). split; [done|]. by apply (cp_mono _ _ _ _ Hst).
Qed.

Lemma copy_inv_frame s0 s s' :
  copy_inv s0 s -> copy_inv s0 s' -> same_frame s s'.
Proof.
  intros [(?&?&?) _ _ _ _ _ _ _] [(?&?&?) _ _ _ _ _ _ _].
  repeat split; congruence.
Qed.

Lemma copy_step_refl s0 roots s : copy_step s0 roots s s.
Proof. split; [lia | intros; assumption | intros h Hh; by left]. Qed.

Lemma copy_step_trans s0 roots1 roots2 roots s1 s2 s3 :
  same_frame s1 s2 -> same_frame s2 s3 ->
  roots1 ⊆ roots -> roots2 ⊆ roots ->
  copy_step s0 roots1 s1 s2 -> copy_step s0 roots2 s2 s3 ->
  copy_step s0 roots s1 s3.
Proof.
  intros Hf12 Hf23 Hs1 Hs2 H12 H23. split.
  - pose proof (cp_pending _ _ _ _ H12). pose proof (cp_pending _ _ _ _ H23). lia.
  - intros i p Hi Hp. apply (cp_mono _ _ _ _ H23); [by apply (cp_mono _ _ _ _ H12)|].
    by rewrite (same_frame_pool s1 s2).
  - intros h Hh. destruct (cp_new _ _ _ _ H23 h Hh) as [Hh2|[Hcl Hr]].
    + destruct (cp_new _ _ _ _ H12 h Hh2) as [?|[Hcl Hr]]; [by left|].
      right. split; [|by apply (reach_subset _ roots1)].
      intros c Hc. eapply pooled_mono; [exact Hf23 | exact H23 | by apply Hcl].
    + right. split; [done|]. by apply (reach_subset _ roots2).
Qed.

Lemma value_at_start s0 h p v :
  slot s0 h = Ok p -> p ≠ NULL -> heap s0 !! p = Some v -> value_at s0 h = Some v.
Proof.
  intros Hs Hp Hv. unfold value_at. rewrite Hs.
  destruct (Z.eqb_spec p NULL); [done|]. done.
Qed.

Section Copy.

Variable s0 : state.
Hypothesis Hstart : copy_start s0.

Lemma foreach_copy k rec : copies s0 k rec -> forall roots s,
  copy_inv s0 s -> (pending_slots s <= k)%nat ->
  (forall r h, r ∈ roots -> reach s0 [r] h -> live s0 h) ->
  exists s', foreach_global rec roots s = Ok s' /\ copy_inv s0 s' /\
    copy_step s0 roots s s' /\ forall r, r ∈ roots -> pooled s' r.
Proof.
  intros Hrec. induction roots as [|r roots IH]; intros s Hci Hk Hlive; simpl.
  - exists s. split; [done|]. split; [done|]. split; [apply copy_step_refl|].
    intros r Hr. by apply elem_of_nil in Hr.
  - destruct (Hrec s r Hci Hk) as (s1 & -> & Hci1 & Hst1 & Hp1).
    { intros h. apply Hlive. left. }
    simpl. pose proof (cp_pending _ _ _ _ Hst1).
    destruct (IH s1 Hci1) as (s2 & -> & Hci2 & Hst2 & Hp2); [lia| |].
    { intros r' h Hr'. apply Hlive. by right. }
    pose proof (copy_inv_frame _ _ _ Hci Hci1) as Hf1.
    pose proof (copy_inv_frame _ _ _ Hci1 Hci2) as Hf2.
    exists s2. split; [done|]. split; [done|]. split.
    + eapply (copy_step_trans s0 [r] roots); try done.
      * intros x Hx. apply list_elem_of_singleton in Hx as ->. left.
      * intros x Hx. by right.
    + intros r' Hr'. apply elem_of_cons in Hr' as [->|Hr']; [|by apply Hp2].
      eapply pooled_mono; [exact Hf2 | exact Hst2 | done].
Qed.

Lemma copy_contents_fuel_copies fuel :
  copies s0 (pred fuel) (copy_contents_fuel fuel) \/ fuel = O.
Proof.
  induction fuel as [|fuel IH]; [by right|]. left. simpl pred.
  intros s ref Hci Hk Hlive.
  change (copy_contents_fuel (S fuel) ref s)
    with (copy_contents_body (copy_contents_fuel fuel) ref s).
  destruct (Hlive ref) as (p0 & Hs0 & Hp0).
  { apply reach_root. by apply list_elem_of_singleton. }
  pose proof (ci_frame _ _ Hci) as Hf0.
  pose proof Hs0 as Hs0'. apply slot_Ok in Hs0' as [Hr0 Hl0].
  destruct (slot_in_range s ref) as [p Hs].
  { by rewrite (num_refs_frame s0 s). }
  destruct (is_pool_address s p) eqn:Hp.
  { exists s. unfold copy_contents_body. rewrite Hs. simpl. rewrite Hp. simpl.
    split; [done|]. split; [done|]. split; [apply copy_step_refl|]. by exists p. }
  assert (p = p0) as ->.
  { apply slot_Ok in Hs as [_ Hl].
    destruct (ci_slot _ _ Hci _ _ Hl0) as [H|(_ & p' & w & H & Hp' & _)]; congruence. }
  destruct (pending_value s0 s p0 Hstart Hci (slot_elem _ _ _ Hs) Hp Hp0)
    as (v & Hv & Hv0 & Hpos & Hwf).
  destruct (relocated_inv s0 s ref p0 v Hstart Hci Hs Hp Hp0 Hv)
    as (Hci3 & Hpend & Hmono & Hpref & Hnew).
  assert (Hfit : mem_used s + value_size v <= arena_size s).
  { apply slot_Ok in Hs as [_ Hl].
    pose proof (pending_ge s0 s _ p0 Hstart Hci Hl Hp Hp0) as Hge.
    unfold size_at in Hge. rewrite Hv in Hge. pose proof (ci_cap _ _ Hci). lia. }
  rewrite (copy_body_relocate _ s ref p0 v Hs Hp Hv (ci_packed _ _ Hci) Hpos Hfit).
  rewrite for_each_child_children. destruct Hwf as (cs & Hcs & Hrange). rewrite Hcs.
  assert (Hkids : kids s0 ref = cs).
  { unfold kids. rewrite (value_at_start s0 ref p0 v Hs0 Hp0 Hv0). by rewrite Hcs. }
  set (s3 := relocated s ref v) in *.
  pose proof (copy_inv_frame _ _ _ Hci Hci3) as Hf3.
  destruct IH as [IH| ->]; [|lia].
  destruct (foreach_copy (pred fuel) (copy_contents_fuel fuel) IH cs s3 Hci3)
    as (s4 & -> & Hci4 & Hst4 & Hp4); [lia| |].
  { intros c h Hc Hh. apply Hlive. eapply reach_kids; [|by eapply reach_single].
    intros c' Hc'. by rewrite Hkids. }
  pose proof (copy_inv_frame _ _ _ Hci3 Hci4) as Hf4.
  exists s4. split; [done|]. split; [done|]. split.
  - split.
    + pose proof (cp_pending _ _ _ _ Hst4). lia.
    + intros i q Hi Hq. apply (cp_mono _ _ _ _ Hst4); [by apply Hmono|].
      by rewrite (same_frame_pool s s3).
    + intros h Hh. destruct (cp_new _ _ _ _ Hst4 h Hh) as [Hh3|[Hcl Hr]].
      * destruct (Hnew h Hh3) as [?| ->]; [by left|]. right. split.
        -- intros c Hc. apply Hp4. by rewrite <- Hkids.
        -- apply reach_root. by apply list_elem_of_singleton.
      * right. split; [done|]. eapply reach_kids; [|done].
        intros c Hc. by rewrite Hkids.
  - eapply pooled_mono; [exact Hf4 | exact Hst4 | done].
Qed.

Lemma pending_slots_le_length s : (pending_slots s <= length (ref_table s))%nat.
Proof. apply length_filter. Qed.

Lemma copy_contents_copies : copies s0 (length (ref_table s0)) copy_contents.
Proof.
  intros s c Hci Hk Hlive. unfold copy_contents.
  destruct (copy_contents_fuel_copies (S (length (ref_table s)))) as [H|H]; [|done].
  apply H; try done. simpl. apply pending_slots_le_length.
Qed.

(** After the roots are visited, the slots in the pool are those of the
    handles reachable from the roots. *)
Lemma copy_roots roots :
  (forall h, reach s0 roots h -> live s0 h) ->
  exists s2, foreach_global copy_contents roots s0 = Ok s2 /\ copy_inv s0 s2 /\
    forall h, pooled s2 h <-> reach s0 roots h.
Proof.
  intros Hlive.
  pose proof Hstart as [Hn Hb Hout Hval Hfit].
  assert (Hci0 : copy_inv s0 s0).
  { split; [apply same_frame_refl | done | intros i p0 Hp0; by left | done | ..].
    - split; [done | | |].
      + rewrite filter_none; [constructor|]. intros p Hp. by rewrite (Hout p Hp).
      + rewrite Hb. constructor.
      + intros p Hp Hpp. by rewrite (Hout p Hp) in Hpp.
    - by rewrite Hb.
    - unfold mem_used, slot_bytes. rewrite Hb. simpl. symmetry.
      apply sumZ_zero. intros p Hp. by rewrite (Hout p Hp).
    - unfold mem_used. rewrite Hb. simpl. lia. }
  destruct (foreach_copy _ _ copy_contents_copies roots s0 Hci0)
    as (s2 & Hrun & Hci2 & Hst & Hroots).
  { apply pending_slots_le_length. }
  { intros r h Hr Hh. apply Hlive. by eapply reach_single. }
  assert (Hnone : forall h, ¬ pooled s0 h).
  { intros h (p & Hs & Hp). rewrite (Hout p (slot_elem _ _ _ Hs)) in Hp. done. }
  exists s2. split; [done|]. split; [done|]. intros h. split.
  - intros Hh. destruct (cp_new _ _ _ _ Hst h Hh) as [?|[_ ?]]; [|done].
    by destruct (Hnone h).
  - apply reach_closed; [done|]. intros x c Hx Hc.
    destruct (cp_new _ _ _ _ Hst x Hx) as [?|[Hcl _]]; [by destruct (Hnone x)|].
    by apply Hcl.
Qed.

End Copy.

(** ** The sweep *)

Lemma clear_unpooled s i q :
  pool_ok s -> ref_table s !! Z.to_nat i = Some q -> is_pool_address s q = false ->
  pool_ok (set_slot i NULL s) /\ decref_rel s (set_slot i NULL s).
Proof.
  intros [Hn Hnd Hbn Hval] Hq Hqp. split.
  - split; try done.
    + eapply sublist_NoDup; [exact Hnd|].
      apply (filter_insert_sublist (fun p => is_pool_address s p = true)). congruence.
    + intros p Hp Hpp. simpl in Hp. apply elem_of_insert_inv in Hp as [->|Hp].
      * change (is_pool_address s NULL = true) in Hpp. congruence.
      * destruct (Hval p Hp Hpp) as (w & Hw & (cs & Hcs & Hr) & Hb).
        exists w. split; [done|]. split; [|done]. exists cs. split; [done|].
        intros c Hc. unfold num_refs. simpl. rewrite length_insert. by apply Hr.
  - split; [apply same_frame_set_slot | done | | done | done | | done | done | | | ].
    + intros j p Hp. simpl. destruct (decide (j = Z.to_nat i)) as [->|Hne].
      * right. apply list_lookup_insert_eq. by eapply lookup_lt_Some.
      * left. by rewrite list_lookup_insert_ne.
    + intros p v _ _ Hv. by exists v.
    + intros b Hb. by left.
    + intros b Hb Hnb. done.
    + change (mem_used (set_slot i NULL s)) with (mem_used s).
      unfold slot_bytes. simpl. rewrite (sumZ_insert _ _ _ _ NULL Hq).
      change (is_pool_address (set_slot i NULL s)) with (is_pool_address s).
      change (size_at (set_slot i NULL s)) with (size_at s).
      rewrite Hqp, Hn. lia.
Qed.

Lemma garbage_ok_rel s s' :
  decref_rel s s' -> garbage_ok s -> garbage_ok s'.
Proof.
  intros Hr Hg p Hp Hpp H0. pose proof (dr_frame _ _ Hr) as Hf.
  rewrite (same_frame_pool s s' _ Hf) in Hpp.
  destruct (table_entry_back _ _ _ Hr Hp) as [?|Hin]; [done|].
  destruct (Hg p Hin Hpp H0) as (v & Hv & cs & Hcs & Hrange).
  exists v. rewrite (dr_heap_out _ _ Hr) by done. split; [done|].
  exists cs. split; [done|]. intros c Hc. rewrite (num_refs_frame s s' Hf). by apply Hrange.
Qed.

(** Walking a value with [decref] over a consistent pool. *)
Lemma traverse_decref_ok s p v :
  pool_ok s -> heap s !! p = Some v -> wf_value s v ->
  exists s', traverse_decref p s = Ok s' /\ pool_ok s' /\ decref_rel s s'.
Proof.
  intros Hok Hv (cs & Hcs & Hrange). unfold traverse_decref, traverse_with, load.
  rewrite Hv. simpl. rewrite for_each_child_children, Hcs.
  apply (foreach_global_total (fun s' => pool_ok s' /\ decref_rel s s')).
  - intros r s1 Hr [Hok1 H1].
    destruct (decref_ok (pool_slots s1) s1 (le_n _) Hok1 r) as (s2 & Hd & Hok2 & H2).
    { rewrite (num_refs_frame s s1 (dr_frame _ _ H1)). by apply Hrange. }
    exists s2. split; [done|]. split; [done|].
    eapply decref_rel_trans; [apply (pool_null _ Hok) | done | done].
  - split; [done | apply decref_rel_refl].
Qed.

Lemma sweep_slot_ok s i :
  pool_ok s -> garbage_ok s -> 0 <= i < num_refs s ->
  exists s', sweep_slot i s = Ok s' /\ pool_ok s' /\ decref_rel s s' /\
    (ref_table s' !! Z.to_nat i = Some NULL \/
     exists p, ref_table s' !! Z.to_nat i = Some p /\ is_pool_address s' p = true).
Proof.
  intros Hok Hg Hi. destruct (slot_in_range s i Hi) as [p Hs].
  unfold sweep_slot. rewrite Hs. simpl.
  pose proof Hs as Hs'. apply slot_Ok in Hs' as [_ Hl].
  destruct (is_pool_address s p) eqn:Hp; simpl.
  { exists s. split; [done|]. split; [done|]. split; [apply decref_rel_refl|].
    right. by exists p. }
  destruct (Z.eqb_spec p NULL) as [->|H0]; simpl.
  { exists s. split; [done|]. split; [done|]. split; [apply decref_rel_refl|]. by left. }
  destruct (Hg p (slot_elem _ _ _ Hs) Hp H0) as (v & Hv & Hwf).
  destruct (traverse_decref_ok s p v Hok Hv Hwf) as (s1 & -> & Hok1 & H1). simpl.
  pose proof (dr_frame _ _ H1) as Hf1.
  assert (exists q, ref_table s1 !! Z.to_nat i = Some q /\ is_pool_address s1 q = false)
    as (q & Hq & Hqp).
  { destruct (dr_table _ _ H1 _ _ Hl) as [H|H]; eexists; (split; [exact H|]).
    - by rewrite (same_frame_pool s s1).
    - apply (pool_null _ Hok1). }
  destruct (clear_unpooled s1 i q Hok1 Hq Hqp) as [Hok2 H2].
  eexists. split; [done|]. split; [done|]. split.
  - eapply decref_rel_trans; [apply (pool_null _ Hok) | done | done].
  - left. simpl. apply list_lookup_insert_eq. by eapply lookup_lt_Some.
Qed.

Lemma sweep_ok n : forall i s,
  pool_ok s -> garbage_ok s -> 0 <= i -> i + Z.of_nat n = num_refs s ->
  exists s', sweep n i s = Ok s' /\ pool_ok s' /\ decref_rel s s' /\
    forall j p, i <= j -> slot s' j = Ok p -> p = NULL \/ is_pool_address s' p = true.
Proof.
  induction n as [|n IH]; intros i s Hok Hg Hi Hn; simpl.
  - exists s. split; [done|]. split; [done|]. split; [apply decref_rel_refl|].
    intros j p Hj Hs. apply slot_Ok in Hs as [Hr _]. lia.
  - destruct (sweep_slot_ok s i Hok Hg) as (s1 & -> & Hok1 & H1 & Hi1); [lia|]. simpl.
    pose proof (dr_frame _ _ H1) as Hf1.
    destruct (IH (i + 1) s1 Hok1 (garbage_ok_rel _ _ H1 Hg)) as (s2 & -> & Hok2 & H2 & Hall);
      [lia | rewrite (num_refs_frame s s1 Hf1); lia |].
    pose proof (dr_frame _ _ H2) as Hf2.
    exists s2. split; [done|]. split; [done|]. split.
    + eapply decref_rel_trans; [apply (pool_null _ Hok) | done | done].
    + intros j p Hj Hs. destruct (decide (j = i)) as [->|Hne]; [|apply (Hall j); [lia|done]].
      apply slot_Ok in Hs as [_ Hs].
      destruct Hi1 as [Hi1|(q & Hi1 & Hq)];
        destruct (dr_table _ _ H2 _ _ Hi1) as [H|H]; rewrite H in Hs;
        injection Hs as <-; auto.
      right. by rewrite (same_frame_pool s1 s2).
Qed.

(** ** From a consistent state to the start of the copying *)

Lemma sumZ_filter_bool {A} (b : A -> bool) (g : A -> Z) (l : list A) :
  sumZ (fun x => if b x then g x else 0) l = sumZ g (filter (fun x => b x = true) l).
Proof.
  induction l as [|a l IH]; simpl; [done|]. rewrite filter_cons.
  destruct (b a) eqn:E.
  - rewrite decide_True by done. simpl. by rewrite IH.
  - rewrite decide_False by congruence. by rewrite IH.
Qed.

Lemma owned_le (sz : Z -> Z) (L : list Z) : forall B : list (Z * Z),
  NoDup L -> NoDup (map fst B) -> (forall b, b ∈ B -> 0 <= snd b) ->
  (forall p, p ∈ L -> (p, sz p) ∈ B) -> sumZ sz L <= sumZ snd B.
Proof.
  induction L as [|p L IH]; intros B HL HB Hpos Hin; simpl.
  - by apply sumZ_nonneg.
  - apply NoDup_cons in HL as [Hp HL].
    assert (Hb : (p, sz p) ∈ B) by (apply Hin; left).
    pose proof (sumZ_release p (sz p) B HB Hb) as Hrel.
    specialize (IH (filter (fun b => fst b ≠ p) B) HL).
    assert (sumZ sz L <= sumZ snd (filter (fun b => fst b ≠ p) B)); [|lia].
    apply IH.
    + by apply NoDup_fst_filter.
    + intros b Hbb. apply Hpos. by apply list_elem_of_filter in Hbb as [_ ?].
    + intros q Hq. apply list_elem_of_filter. split; [|apply Hin; by right].
      simpl. intros ->. done.
Qed.

Lemma slot_bytes_le_used s :
  pool_ok s -> (forall b, b ∈ blocks s -> 0 <= snd b) -> slot_bytes s <= mem_used s.
Proof.
  intros [Hn Hnd Hbn Hval] Hpos. unfold slot_bytes. rewrite sumZ_filter_bool.
  apply owned_le; try done. intros p Hp.
  apply list_elem_of_filter in Hp as [Hpp Hp].
  destruct (Hval p Hp Hpp) as (v & Hv & _ & Hb). unfold size_at. by rewrite Hv.
Qed.

Lemma steady_outside s p :
  steady s -> p ∈ ref_table s ->
  is_pool_address (mm_init (pool_size s) (to_space s) s) p = false.
Proof.
  intros Hst Hp. unfold is_pool_address. simpl.
  destruct (st_slots _ Hst p Hp) as [->|Hpp].
  - pose proof (st_to _ Hst). unfold NULL.
    destruct (Z.leb_spec (to_space s) 0); [lia|done].
  - unfold is_pool_address in Hpp. destruct (st_arena _ Hst) as [Hb Hz].
    rewrite Hb, Hz in Hpp. apply andb_true_iff in Hpp as [H1 H2].
    apply Z.leb_le in H1. apply Z.ltb_lt in H2.
    destruct (st_disjoint _ Hst);
      destruct (Z.leb_spec (to_space s) p), (Z.ltb_spec p (to_space s + pool_size s));
      simpl; try done; lia.
Qed.

Lemma steady_copy_start s :
  steady s -> copy_start (mm_init (pool_size s) (to_space s) s).
Proof.
  intros Hst. pose proof (st_pool _ Hst) as Hok. split.
  - unfold is_pool_address. simpl. pose proof (st_to _ Hst). unfold NULL.
    destruct (Z.leb_spec (to_space s) 0); [lia|done].
  - done.
  - intros p Hp. by apply steady_outside.
  - intros p Hp H0. simpl in Hp.
    destruct (st_slots _ Hst p Hp) as [?|Hpp]; [done|].
    destruct (pool_values _ Hok p Hp Hpp) as (v & Hv & Hwf & _).
    exists v. split; [done|]. split; [|done]. by apply (st_values _ Hst p v).
  - simpl. etrans; [|apply (st_fit _ Hst)].
    etrans; [|apply slot_bytes_le_used; [done | apply (st_blocks _ Hst)]].
    unfold pending_bytes, slot_bytes. simpl. apply Z.eq_le_incl. apply sumZ_ext.
    intros p Hp. rewrite (steady_outside s p Hst Hp).
    destruct (st_slots _ Hst p Hp) as [->|Hpp].
    + rewrite (pool_null _ Hok). done.
    + rewrite Hpp. destruct (Z.eqb_spec p NULL) as [->|]; [|done].
      rewrite (pool_null _ Hok) in Hpp. done.
Qed.

Lemma reach_mm_init s size region roots h :
  reach (mm_init size region s) roots h <-> reach s roots h.
Proof. split; induction 1; eauto using reach_root, reach_child. Qed.

(** ** One collection *)

(** [collect_garbage] on a consistent state in which no reachable handle
    dangles: it returns; [s2] is the state after the copying and the swap. *)
Lemma collect_ok s roots :
  steady s -> (forall h, reach s roots h -> live s h) ->
  exists s2 s',
    foreach_global copy_contents roots (mm_init (pool_size s) (to_space s) s) = Ok s2 /\
    sweep (length (ref_table s2)) 0 (swap_spaces s2) = Ok s' /\
    collect_garbage roots s = Ok s' /\
    copy_inv (mm_init (pool_size s) (to_space s) s) s2 /\
    (forall h, pooled s2 h <-> reach s roots h) /\
    pool_ok s' /\ decref_rel (swap_spaces s2) s' /\
    (forall j p, slot s' j = Ok p -> p = NULL \/ is_pool_address s' p = true).
Proof.
  intros Hst Hlive. pose proof (steady_copy_start s Hst) as Hcs.
  set (s0 := mm_init (pool_size s) (to_space s) s) in *.
  destruct (copy_roots s0 Hcs roots) as (s2 & Hrun & Hci & Hreach).
  { intros h Hh. apply reach_mm_init in Hh. apply Hlive in Hh as (p & Hs & Hp). by exists p. }
  assert (Hok3 : pool_ok (swap_spaces s2)).
  { destruct (ci_pool _ _ Hci) as [? ? ? ?]. by split. }
  assert (Hg3 : garbage_ok (swap_spaces s2)).
  { intros p Hp Hpp H0.
    destruct (pending_value s0 s2 p Hcs Hci Hp Hpp H0) as (v & Hv & _ & _ & cs & Hc & Hr).
    exists v. split; [done|]. exists cs. split; [done|].
    intros c Hcin. change (num_refs (swap_spaces s2)) with (num_refs s2).
    rewrite (num_refs_frame s0 s2 (ci_frame _ _ Hci)). by apply Hr. }
  destruct (sweep_ok (length (ref_table (swap_spaces s2))) 0 (swap_spaces s2) Hok3 Hg3)
    as (s' & Hsw & Hok' & Hrel & Hall); [lia | unfold num_refs; lia |].
  exists s2, s'. split; [done|]. split; [done|]. split.
  { unfold collect_garbage. fold s0. rewrite Hrun. simpl. exact Hsw. }
  split; [done|]. split.
  { intros h. rewrite Hreach. apply reach_mm_init. }
  split; [done|]. split; [done|].
  intros j p Hs. apply (Hall j p); [|done]. apply slot_Ok in Hs as [? _]. lia.
Qed.

(** ** Decrements that release nothing *)

Lemma set_ref_count_id v : set_ref_count (ref_count v) v = v.
Proof. by destruct v. Qed.

Lemma set_ref_count_twice n m v :
  set_ref_count n (set_ref_count m v) = set_ref_count n v.
Proof. done. Qed.

Lemma wrap_count_small n : 0 <= n < 2 ^ 32 -> wrap_count n = n.
Proof. intros H. unfold wrap_count. by apply Z.mod_small. Qed.

Lemma hits_nonneg s cs a : 0 <= hits s cs a.
Proof.
  apply sumZ_nonneg. intros c _. destruct (slot s c); try lia.
  destruct (_ && _); lia.
Qed.

Lemma occ_nonneg h cs : 0 <= occ h cs.
Proof. apply sumZ_nonneg. intros c _. destruct (c =? h); lia. Qed.

Lemma hits_frame s s' cs a :
  ref_table s' = ref_table s -> arena_base s' = arena_base s ->
  arena_size s' = arena_size s -> hits s' cs a = hits s cs a.
Proof.
  intros Ht Hb Hz. apply sumZ_ext. intros c _.
  assert (slot s' c = slot s c) as -> by (unfold slot, num_refs; by rewrite Ht).
  destruct (slot s c); try done. by rewrite (is_pool_address_frame s s').
Qed.

(** A decrement that leaves the count positive only stores the count. *)
Lemma decref_positive ref s p v :
  is_pool_address s NULL = false -> slot s ref = Ok p ->
  is_pool_address s p = true -> heap s !! p = Some v ->
  1 < ref_count v <= 2 ^ 32 ->
  decref ref s = Ok (store p (set_ref_count (ref_count v - 1) v) s).
Proof.
  intros Hn Hs Hp Hv Hrc. rewrite (decref_unfold _ _ Hn). unfold decref_body.
  rewrite Hs. simpl. rewrite Hp, (deref_slot _ _ _ Hs Hp). simpl.
  unfold load. rewrite Hv. simpl. rewrite wrap_count_small by lia.
  destruct (Z.ltb_spec 0 (ref_count v - 1)); [done|lia].
Qed.

Lemma foreach_decref_counts cs : forall s,
  is_pool_address s NULL = false ->
  (forall c, c ∈ cs -> 0 <= c < num_refs s) ->
  (forall c q, c ∈ cs -> slot s c = Ok q -> is_pool_address s q = true ->
     exists w, heap s !! q = Some w /\ hits s cs q < ref_count w <= 2 ^ 32) ->
  exists s', foreach_global decref cs s = Ok s' /\ counts_rel cs s s'.
Proof.
  induction cs as [|c cs IH]; intros s Hn Hrange Hcount; simpl.
  - exists s. split; [done|]. split; try done. intros a. destruct (heap s !! a) as [w|]; [|done].
    unfold hits. simpl. by rewrite Z.sub_0_r, set_ref_count_id.
  - destruct (slot_in_range s c) as [q Hq]; [apply Hrange; left|].
    destruct (is_pool_address s q) eqn:Hqp.
    + destruct (Hcount c q) as (w & Hw & Hlt & Hle); [left|done|done|].
      assert (Hh1 : 1 <= hits s (c :: cs) q).
      { unfold hits. simpl. rewrite Hq, Z.eqb_refl, Hqp. simpl.
        pose proof (hits_nonneg s cs q). unfold hits in *. lia. }
      rewrite (decref_positive c s q w Hn Hq Hqp Hw) by lia. simpl.
      set (s1 := store q (set_ref_count (ref_count w - 1) w) s).
      destruct (IH s1) as (s2 & -> & [Ht Hb Ha Hsp Hh]).
      * done.
      * intros c' Hc'. apply Hrange. by right.
      * intros c' q' Hc' Hq' Hqp'.
        change (slot s c' = Ok q') in Hq'. change (is_pool_address s q' = true) in Hqp'.
        rewrite (hits_frame s s1) by done.
        destruct (Hcount c' q') as (w' & Hw' & Hlt' & Hle'); [by right|done|done|].
        unfold hits in Hlt'. simpl in Hlt'. rewrite Hq in Hlt'. fold (hits s cs q') in Hlt'.
        unfold s1. simpl. destruct (decide (q' = q)) as [->|Hne].
        -- rewrite lookup_insert_eq. eexists. split; [done|]. simpl.
           assert (w' = w) as -> by congruence.
           rewrite Z.eqb_refl, Hqp in Hlt'. simpl in Hlt'. lia.
        -- rewrite lookup_insert_ne by done. exists w'. split; [done|].
           destruct (Z.eqb_spec q q'); [congruence|]. simpl in Hlt'. lia.
      * exists s2. split; [done|]. split; try done. intros a. rewrite Hh.
        rewrite (hits_frame s s1) by done. unfold hits at 2. simpl. rewrite Hq.
        fold (hits s cs a). unfold s1. simpl. destruct (decide (a = q)) as [->|Hne].
        -- rewrite lookup_insert_eq, Hw, Z.eqb_refl, Hqp. simpl.
           f_equal. unfold set_ref_count. simpl. f_equal. lia.
        -- rewrite lookup_insert_ne by done. destruct (Z.eqb_spec q a); [congruence|].
           simpl. by rewrite Z.add_0_l.
    + assert (Hd : decref c s = Ok s).
      { rewrite (decref_unfold _ _ Hn). unfold decref_body. rewrite Hq. simpl. by rewrite Hqp. }
      rewrite Hd. simpl.
      assert (Hhits : forall a, hits s (c :: cs) a = hits s cs a).
      { intros a. unfold hits. simpl. rewrite Hq, Hqp, andb_false_r. lia. }
      destruct (IH s Hn) as (s2 & -> & [Ht Hb Ha Hsp Hh]).
      * intros c' Hc'. apply Hrange. by right.
      * intros c' q' Hc' Hq' Hqp'. rewrite <- Hhits. apply (Hcount c' q'); try done. by right.
      * exists s2. split; [done|]. split; try done. intros a. by rewrite Hh, Hhits.
Qed.

(** Handles and addresses: over a pool without shared values, the handles
    whose slot is a given pool address are the occurrences of one handle. *)
Lemma NoDup_filter_lookup_inj {A} (P : A -> Prop) `{!forall x, Decision (P x)}
    (l : list A) i j x :
  NoDup (filter P l) -> P x -> l !! i = Some x -> l !! j = Some x -> i = j.
Proof.
  revert i j. induction l as [|a l IH]; intros [|i] [|j] Hnd Px Hi Hj; simpl in *;
    try done.
  - injection Hi as ->. rewrite filter_cons, decide_True in Hnd by done.
    apply NoDup_cons in Hnd as [Hx _]. exfalso. apply Hx.
    apply list_elem_of_filter. split; [done|]. apply list_elem_of_lookup. eauto.
  - injection Hj as ->. rewrite filter_cons, decide_True in Hnd by done.
    apply NoDup_cons in Hnd as [Hx _]. exfalso. apply Hx.
    apply list_elem_of_filter. split; [done|]. apply list_elem_of_lookup. eauto.
  - f_equal. apply IH; try done. rewrite filter_cons in Hnd.
    destruct (decide (P a)); [|done]. by apply NoDup_cons in Hnd as [_ ?].
Qed.

Lemma slot_inj s h h' q :
  NoDup (filter (fun p => is_pool_address s p = true) (ref_table s)) ->
  is_pool_address s q = true -> slot s h = Ok q -> slot s h' = Ok q -> h = h'.
Proof.
  intros Hnd Hq Hh Hh'. apply slot_Ok in Hh as [Hr Hl]. apply slot_Ok in Hh' as [Hr' Hl'].
  pose proof (NoDup_filter_lookup_inj _ _ _ _ _ Hnd Hq Hl Hl'). lia.
Qed.

Lemma hits_occ s cs h q :
  NoDup (filter (fun p => is_pool_address s p = true) (ref_table s)) ->
  slot s h = Ok q -> is_pool_address s q = true ->
  hits s cs q = occ h cs.
Proof.
  intros Hnd Hh Hq. apply sumZ_ext. intros c _.
  destruct (Z.eqb_spec c h) as [->|Hne].
  - by rewrite Hh, Z.eqb_refl, Hq.
  - destruct (slot s c) as [q'| |] eqn:Hc; try done.
    destruct (Z.eqb_spec q' q) as [->|]; [|done]. rewrite Hq. simpl.
    destruct Hne. by eapply slot_inj.
Qed.

(** ** Releasing one value *)

Lemma refs_used_sum s :
  refs_used s = sumZ (fun p => if p =? NULL then 0 else 1) (ref_table s).
Proof.
  unfold refs_used. induction (ref_table s) as [|p t IH]; simpl; [done|].
  rewrite IH. destruct (p =? NULL); lia.
Qed.

Lemma store_same s p v : heap s !! p = Some v -> store p v s = s.
Proof.
  intros Hv. destruct s as [h ? ? ? ? ? ? ? ?]. unfold store, with_heap. simpl in *.
  f_equal. by apply insert_id.
Qed.

Lemma store_twice s p v w : store p v (store p w s) = store p v s.
Proof. unfold store, with_heap. simpl. f_equal. apply insert_insert_eq. Qed.

(** The last decrement of a value none of whose children is released. *)
Lemma decref_last h s p v cs :
  pool_ok s -> slot s h = Ok p -> is_pool_address s p = true ->
  heap s !! p = Some v -> ref_count v = 1 -> children v = Some cs ->
  (forall c q, c ∈ cs -> c ≠ h -> slot s c = Ok q -> is_pool_address s q = true ->
     exists w, heap s !! q = Some w /\ occ c cs < ref_count w <= 2 ^ 32) ->
  exists s', decref h s = Ok s' /\
    refs_used s' = refs_used s - 1 /\ mem_used s' = mem_used s - value_size v /\
    slot s' h = Ok NULL.
Proof.
  intros Hok Hs Hp Hv Hrc Hcs Hkids.
  pose proof (pool_null _ Hok) as Hn.
  rewrite (decref_unfold _ _ Hn). unfold decref_body.
  rewrite Hs. simpl. rewrite Hp, (deref_slot _ _ _ Hs Hp). simpl.
  unfold load at 1. rewrite Hv. simpl. rewrite Hrc. simpl.
  destruct (release_cleared s h p v (wrap_count (1 - 1)) Hok Hs Hp Hv)
    as (Hok2 & Hcnt & Hout & Hl2 & Hf2).
  set (s2 := set_slot h NULL _) in *.
  destruct (pool_values _ Hok p (slot_elem _ _ _ Hs) Hp) as (v0 & Hv0 & (cs0 & Hcs0 & Hrange) & Hb).
  assert (v0 = v) as -> by congruence. assert (cs0 = cs) as -> by congruence.
  pose proof Hs as Hs'. apply slot_Ok in Hs' as [Hr Hl].
  assert (Hs2 : slot s2 h = Ok NULL).
  { apply slot_Ok. rewrite (num_refs_frame s s2 Hf2). split; [done|].
    unfold s2. simpl. apply list_lookup_insert_eq. by eapply lookup_lt_Some. }
  unfold traverse_with. rewrite Hl2. simpl.
  rewrite for_each_child_children, children_set_ref_count, Hcs.
  destruct (foreach_decref_counts cs s2) as (s3 & -> & [Ht Hbl Ha Hsp Hh]).
  - apply (pool_null _ Hok2).
  - intros c Hc. rewrite (num_refs_frame s s2 Hf2). by apply Hrange.
  - intros c q Hc Hq Hqp.
    assert (c ≠ h).
    { intros ->. rewrite Hs2 in Hq. injection Hq as <-.
      rewrite (pool_null _ Hok2) in Hqp. done. }
    assert (Hq' : slot s c = Ok q).
    { apply slot_Ok in Hq as [Hrq Hq]. apply slot_Ok.
      rewrite (num_refs_frame s s2 Hf2) in Hrq. split; [done|].
      unfold s2 in Hq. simpl in Hq. rewrite list_lookup_insert_ne in Hq; [done|]. lia. }
    destruct (Hkids c q Hc H Hq' Hqp) as (w & Hw & Hlt).
    assert (q ≠ p). { intros ->. apply Hout. by eapply slot_elem. }
    exists w. split.
    + unfold s2. simpl. by rewrite lookup_insert_ne.
    + by rewrite (hits_occ s2 cs c q (pool_nodup _ Hok2) Hq Hqp).
  - simpl. unfold mm_free. rewrite Hbl.
    assert (He : existsb (fun b => fst b =? p) (blocks s2) = true).
    { apply existsb_exists. exists (p, value_size v). split; [by apply list_elem_of_In|].
      simpl. apply Z.eqb_refl. }
    rewrite He. eexists. split; [done|]. split; [|split].
    + rewrite !refs_used_sum. simpl. rewrite Ht. unfold s2. simpl.
      rewrite (sumZ_insert _ _ _ _ NULL Hl). simpl.
      destruct (Z.eqb_spec p NULL) as [->|]; [congruence|]. lia.
    + unfold mem_used. simpl. change (foldr _ 0 ?l) with (sumZ snd l).
      rewrite (sumZ_release p (value_size v)); [done | apply (pool_blocks_nodup _ Hok) | done].
    + apply slot_Ok. unfold num_refs. simpl. rewrite Ht.
      by apply slot_Ok in Hs2.
Qed.

(** Decrements that leave the count positive. *)
Lemma decref_times_positive h p k : forall s v,
  is_pool_address s NULL = false -> slot s h = Ok p ->
  is_pool_address s p = true -> heap s !! p = Some v ->
  Z.of_nat k < ref_count v <= 2 ^ 32 ->
  decref_times k h s = Ok (store p (set_ref_count (ref_count v - Z.of_nat k) v) s).
Proof.
  induction k as [|k IH]; intros s v Hn Hs Hp Hv Hrc; simpl.
  - rewrite Z.sub_0_r, set_ref_count_id. by rewrite store_same.
  - rewrite (decref_positive h s p v Hn Hs Hp Hv) by lia. simpl.
    rewrite (IH _ (set_ref_count (ref_count v - 1) v)); try done.
    + rewrite store_twice. simpl. rewrite set_ref_count_twice. do 3 f_equal. lia.
    + simpl. apply lookup_insert_eq.
    + simpl. lia.
Qed.


Lemma decref_times_one h s : decref_times 1 h s = decref h s.
Proof. simpl. by destruct (decref h s). Qed.

Lemma decref_skips ref s p :
  slot s ref = Ok p -> is_pool_address s p = false -> decref ref s = Ok s.
Proof.
  intros Hs Hp. unfold decref. simpl. unfold decref_body.
  rewrite Hs. simpl. by rewrite Hp.
Qed.

(** ** Handles and their values *)

Lemma deref_Ok h s a :
  deref h s = Ok a <-> slot s h = Ok a /\ is_pool_address s a = true.
Proof.
  unfold deref. split.
  - destruct (_ && _); [|done]. destruct (slot s h) as [q| |]; simpl; try done.
    destruct (is_pool_address s q) eqn:E; [|done]. by intros [= ->].
  - intros [Hs Hp]. by apply deref_slot.
Qed.

Lemma get_ref_deref s h a :
  NoDup (filter (fun p => is_pool_address s p = true) (ref_table s)) ->
  deref h s = Ok a -> get_ref a s = Ok h.
Proof.
  intros Hnd Hd. apply deref_Ok in Hd as [Hs Hp]. unfold get_ref.
  pose proof Hs as Hs'. apply slot_Ok in Hs' as [Hr Hl].
  destruct (find_slot a (ref_table s) 0) as [j|] eqn:Hf.
  - apply find_slot_Some in Hf as (Hj & Hlj & _). rewrite Z.sub_0_r in Hlj.
    pose proof (NoDup_filter_lookup_inj _ _ _ _ _ Hnd Hp Hlj Hl). f_equal. lia.
  - apply find_slot_None in Hf. destruct Hf. apply list_elem_of_lookup. eauto.
Qed.

Lemma steady_pooled s p :
  steady s -> p ∈ ref_table s -> p ≠ NULL -> is_pool_address s p = true.
Proof. intros Hst Hp H0. by destruct (st_slots _ Hst p Hp). Qed.

Lemma steady_store s p v n :
  steady s -> heap s !! p = Some v -> 0 <= n < 2 ^ 32 ->
  steady (store p (set_ref_count n v) s).
Proof.
  intros [? ? ? ? ? ? Hok Hval ? ?] Hv Hn. split; try done.
  - by apply pool_ok_store.
  - intros q w Hq H0 Hw. simpl in Hw. destruct (decide (q = p)) as [->|Hne].
    + rewrite lookup_insert_eq in Hw. injection Hw as <-. simpl.
      split; [|done]. by apply (Hval p v).
    + rewrite lookup_insert_ne in Hw by done. by apply (Hval q w).
Qed.

Lemma kids_store s p v n h :
  heap s !! p = Some v -> kids (store p (set_ref_count n v) s) h = kids s h.
Proof.
  intros Hv. unfold kids, value_at.
  change (slot (store p (set_ref_count n v) s) h) with (slot s h).
  destruct (slot s h) as [q| |]; try done. destruct (q =? NULL); [done|].
  simpl. destruct (decide (q = p)) as [->|Hne].
  - by rewrite lookup_insert_eq, Hv.
  - by rewrite lookup_insert_ne.
Qed.

Lemma reach_store s p v n roots h :
  heap s !! p = Some v ->
  reach (store p (set_ref_count n v) s) roots h <-> reach s roots h.
Proof.
  intros Hv. split; induction 1 as [x Hx|x c _ IH Hc].
  - by apply reach_root.
  - rewrite kids_store in Hc by done. by eapply reach_child.
  - by apply reach_root.
  - eapply reach_child; [done|]. by rewrite kids_store.
Qed.

(** ** What a collection does to each slot *)

Lemma collect_cases s s2 s' :
  steady s -> copy_inv (mm_init (pool_size s) (to_space s) s) s2 ->
  decref_rel (swap_spaces s2) s' ->
  (forall j p, slot s' j = Ok p -> p = NULL \/ is_pool_address s' p = true) ->
  forall i p, ref_table s !! i = Some p ->
    slot_swept s s2 s' i p \/ slot_moved s s2 s' i p.
Proof.
  intros Hst Hci Hrel Hall i p Hp.
  pose proof (steady_copy_start s Hst) as Hcs.
  set (s0 := mm_init (pool_size s) (to_space s) s) in *.
  pose proof (dr_frame _ _ Hrel) as Hf.
  assert (Hpool' : forall a, is_pool_address s' a = is_pool_address s2 a).
  { intros a. by rewrite (same_frame_pool (swap_spaces s2) s'). }
  assert (Hi : (i < length (ref_table s'))%nat).
  { destruct Hf as (-> & _). simpl. destruct (ci_frame _ _ Hci) as (-> & _).
    by eapply lookup_lt_Some. }
  destruct (ci_slot _ _ Hci i p Hp) as [H2|(H0 & p2 & v & H2 & Hp2 & Hv0 & Hv2)].
  - left. assert (Hout : is_pool_address s2 p = false).
    { rewrite (same_frame_pool s0 s2 _ (ci_frame _ _ Hci)).
      apply (cs_outside _ Hcs). apply list_elem_of_lookup. eauto. }
    split; [done|]. split; [done|].
    assert (H' : ref_table s' !! i = Some NULL).
    { destruct (dr_table _ _ Hrel i p H2) as [H|H]; [|done].
      destruct (Hall (Z.of_nat i) p) as [->|Hpp]; [|done|].
      - apply slot_Ok. unfold num_refs. rewrite Nat2Z.id. split; [lia|done].
      - rewrite Hpool' in Hpp. congruence. }
    split; [done|]. rewrite (dr_heap_out _ _ Hrel) by done.
    simpl. split; by apply (ci_heap _ _ Hci).
  - right. split; [done|]. exists p2, v. repeat split; try done.
    apply (dr_table _ _ Hrel i p2 H2).
Qed.

Lemma sum_reclaimed (g g' size : Z -> Z) (t : list Z) : forall t',
  length t = length t' ->
  (forall i p p', t !! i = Some p -> t' !! i = Some p' ->
     g p = g' p' + (if negb (p =? NULL) && (p' =? NULL) then size p else 0)) ->
  sumZ g t = sumZ g' t' + reclaimed size t t'.
Proof.
  induction t as [|p t IH]; intros [|p' t'] Hlen Hpt; simpl in *; try done.
  rewrite (Hpt 0%nat p p') by done.
  rewrite (IH t'); [lia | lia |]. intros i q q' Hq Hq'. by apply (Hpt (S i)).
Qed.

(** ** A sweep that releases nothing *)

Lemma refs_from_nonneg keep s n : forall i h, 0 <= refs_from keep s n i h.
Proof.
  induction n as [|n IH]; intros i h; simpl; [lia|].
  pose proof (IH (i + 1) h). pose proof (occ_nonneg h (kids s i)).
  destruct (keep i); lia.
Qed.

Lemma refs_from_ext keep keep' s s' n : forall i h,
  (forall j, i <= j < i + Z.of_nat n ->
     keep' j = keep j /\ (keep j = false -> kids s' j = kids s j)) ->
  refs_from keep' s' n i h = refs_from keep s n i h.
Proof.
  induction n as [|n IH]; intros i h Hext; simpl; [done|].
  destruct (Hext i) as [-> Hk]; [lia|].
  rewrite (IH (i + 1) h); [|intros j Hj; apply Hext; lia].
  destruct (keep i); [done|]. by rewrite Hk.
Qed.

Lemma hits_unpooled s cs a : is_pool_address s a = false -> hits s cs a = 0.
Proof.
  intros Ha. apply sumZ_zero. intros c _. destruct (slot s c) as [q| |]; try done.
  destruct (Z.eqb_spec q a) as [->|]; [|done]. by rewrite Ha.
Qed.

Lemma kids_garbage s j p v cs :
  slot s j = Ok p -> p ≠ NULL -> heap s !! p = Some v -> children v = Some cs ->
  kids s j = cs.
Proof.
  intros Hs H0 Hv Hcs. unfold kids, value_at. rewrite Hs.
  destruct (Z.eqb_spec p NULL); [done|]. by rewrite Hv, Hcs.
Qed.

Lemma kids_unused s j : slot s j = Ok NULL -> kids s j = [].
Proof. intros Hs. unfold kids, value_at. by rewrite Hs. Qed.

Lemma pooled_b_true s j :
  pooled_b s j = true <-> pooled s j.
Proof.
  unfold pooled_b, pooled. destruct (slot s j) as [p| |]; split; try done.
  - intros Hp. by exists p.
  - by intros (q & [= ->] & Hq).
  - by intros (q & ? & _).
  - by intros (q & ? & _).
Qed.

Lemma sweep_keeps n : forall i s,
  is_pool_address s NULL = false ->
  NoDup (filter (fun p => is_pool_address s p = true) (ref_table s)) ->
  0 <= i -> i + Z.of_nat n = num_refs s ->
  (forall j p, i <= j -> slot s j = Ok p -> is_pool_address s p = false -> p ≠ NULL ->
     exists v, heap s !! p = Some v /\ wf_value s v) ->
  (forall h q, slot s h = Ok q -> is_pool_address s q = true ->
     exists w, heap s !! q = Some w /\
       refs_from (pooled_b s) s n i h < ref_count w <= 2 ^ 32) ->
  exists s', sweep n i s = Ok s' /\ blocks s' = blocks s /\ same_frame s s' /\
    forall h q, slot s h = Ok q -> is_pool_address s q = true ->
      slot s' h = Ok q /\
      exists w, heap s !! q = Some w /\
        heap s' !! q =
          Some (set_ref_count (ref_count w - refs_from (pooled_b s) s n i h) w).
Proof.
  induction n as [|n IH]; intros i s Hn Hnd Hi Hlen Hg Hcount; simpl.
  - exists s. split; [done|]. split; [done|]. split; [apply same_frame_refl|].
    intros h q Hh Hq. split; [done|]. destruct (Hcount h q Hh Hq) as (w & Hw & _).
    exists w. split; [done|]. by rewrite Z.sub_0_r, set_ref_count_id.
  - destruct (slot_in_range s i) as [p Hs]; [lia|].
    unfold sweep_slot. rewrite Hs. simpl.
    assert (Hkeep : is_pool_address s p = true \/ p = NULL ->
      exists s', sweep n (i + 1) s = Ok s' /\ blocks s' = blocks s /\ same_frame s s' /\
        forall h q, slot s h = Ok q -> is_pool_address s q = true ->
          slot s' h = Ok q /\
          exists w, heap s !! q = Some w /\
            heap s' !! q = Some (set_ref_count
              (ref_count w - ((if pooled_b s i then 0 else occ h (kids s i)) +
                              refs_from (pooled_b s) s n (i + 1) h)) w)).
    { intros Hcase.
      assert (Hz : forall h, (if pooled_b s i then 0 else occ h (kids s i)) = 0).
      { intros h. unfold pooled_b. rewrite Hs. destruct Hcase as [-> | ->]; [done|].
        rewrite Hn. by rewrite (kids_unused s i Hs). }
      destruct (IH (i + 1) s Hn Hnd) as (s' & Hsw & Hb & Hf & Hkept); [lia | lia | | |].
      - intros j q Hj. apply Hg. lia.
      - intros h q Hh Hq. destruct (Hcount h q Hh Hq) as (w & Hw & Hlt).
        exists w. split; [done|]. simpl in Hlt. rewrite Hz in Hlt. lia.
      - exists s'. split; [done|]. split; [done|]. split; [done|].
        intros h q Hh Hq. destruct (Hkept h q Hh Hq) as (Hs' & w & Hw & Hw').
        split; [done|]. exists w. split; [done|]. by rewrite Hz, Z.add_0_l. }
    destruct (is_pool_address s p) eqn:Hp; simpl; [apply Hkeep; by left|].
    destruct (Z.eqb_spec p NULL) as [->|H0]; simpl; [apply Hkeep; by right|].
    clear Hkeep.
    destruct (Hg i p) as (v & Hv & cs & Hcs & Hrange); [lia|done|done|done|].
    pose proof (kids_garbage s i p v cs Hs H0 Hv Hcs) as Hkids.
    assert (Hpb : pooled_b s i = false) by (unfold pooled_b; by rewrite Hs).
    unfold traverse_decref, traverse_with, load. rewrite Hv. simpl.
    rewrite for_each_child_children, Hcs.
    destruct (foreach_decref_counts cs s Hn Hrange) as (s1 & -> & [Ht Hb Ha Hsp Hh]).
    { intros c q Hc Hq Hqp. destruct (Hcount c q Hq Hqp) as (w & Hw & Hlt & Hle).
      exists w. split; [done|]. rewrite (hits_occ s cs c q Hnd Hq Hqp).
      simpl in Hlt. rewrite Hpb, Hkids in Hlt.
      pose proof (refs_from_nonneg (pooled_b s) s n (i + 1) c). lia. }
    simpl. destruct Ha as [Hab Haz].
    set (s2 := set_slot i NULL s1).
    assert (Hpool2 : forall a, is_pool_address s2 a = is_pool_address s a).
    { intros a. by apply is_pool_address_frame. }
    assert (Hnum2 : num_refs s2 = num_refs s).
    { unfold num_refs, s2. simpl. by rewrite length_insert, Ht. }
    assert (Hslot2 : forall j, j ≠ i -> slot s2 j = slot s j).
    { intros j Hj. unfold slot. rewrite Hnum2. destruct (_ && _) eqn:E; [|done].
      unfold s2. simpl. rewrite Ht. rewrite list_lookup_insert_ne; [done|].
      apply andb_true_iff in E as [E1 _]. apply Z.leb_le in E1. lia. }
    assert (Hslot2i : slot s2 i = Ok NULL).
    { apply slot_Ok. rewrite Hnum2. split; [lia|]. unfold s2. simpl. rewrite Ht.
      apply list_lookup_insert_eq. apply slot_Ok in Hs as [_ Hs]. by eapply lookup_lt_Some. }
    assert (Hheap2 : forall a, is_pool_address s a = false -> heap s2 !! a = heap s !! a).
    { intros a Hap. unfold s2. simpl. rewrite Hh. destruct (heap s !! a) as [w|]; [|done].
      by rewrite (hits_unpooled s cs a Hap), Z.sub_0_r, set_ref_count_id. }
    assert (Hrefs : forall h, refs_from (pooled_b s2) s2 n (i + 1) h =
                              refs_from (pooled_b s) s n (i + 1) h).
    { intros h. apply refs_from_ext. intros j Hj.
      assert (Hpbj : pooled_b s2 j = pooled_b s j).
      { unfold pooled_b. rewrite Hslot2 by lia. destruct (slot s j); try done. }
      split; [done|]. intros Hf. unfold kids, value_at. rewrite Hslot2 by lia.
      unfold pooled_b in Hf. destruct (slot s j) as [q| |]; try done.
      by rewrite (Hheap2 q Hf). }
    destruct (IH (i + 1) s2) as (s' & Hsw & Hb' & Hf' & Hkept).
    + by rewrite Hpool2.
    + change (ref_table s2) with (<[Z.to_nat i := NULL]> (ref_table s1)). rewrite Ht.
      rewrite (list_filter_iff _ (fun p => is_pool_address s p = true))
        by (intros x; by rewrite Hpool2).
      eapply sublist_NoDup; [exact Hnd|].
      apply (filter_insert_sublist (fun p => is_pool_address s p = true)). congruence.
    + lia.
    + rewrite Hnum2. lia.
    + intros j q Hj Hq Hqp H0q. rewrite Hslot2 in Hq by lia. rewrite Hpool2 in Hqp.
      destruct (Hg j q) as (w & Hw & cs' & Hcs' & Hr'); [lia|done|done|done|].
      exists w. rewrite (Hheap2 q Hqp). split; [done|]. exists cs'. split; [done|].
      intros c Hc. rewrite Hnum2. by apply Hr'.
    + intros h q Hq Hqp. rewrite Hpool2 in Hqp.
      assert (h ≠ i).
      { intros ->. rewrite Hslot2i in Hq. injection Hq as <-. congruence. }
      rewrite Hslot2 in Hq by done.
      destruct (Hcount h q Hq Hqp) as (w & Hw & Hlt & Hle).
      eexists. split; [unfold s2; simpl; rewrite Hh, Hw; reflexivity|]. simpl.
      rewrite Hrefs, (hits_occ s cs h q Hnd Hq Hqp).
      simpl in Hlt. rewrite Hpb, Hkids in Hlt. pose proof (occ_nonneg h cs). lia.
    + exists s'. split; [done|]. split; [by rewrite Hb'|]. split.
      { eapply same_frame_trans; [|exact Hf']. repeat split; simpl; try done.
        by rewrite length_insert, Ht. }
      intros h q Hq Hqp.
      assert (h ≠ i) by (intros ->; congruence).
      destruct (Hkept h q) as (Hs' & w1 & Hw1 & Hw');
        [by rewrite Hslot2 | by rewrite Hpool2 |].
      split; [done|]. destruct (Hcount h q Hq Hqp) as (w & Hw & _).
      exists w. split; [done|]. rewrite Hw'. unfold s2 in Hw1. simpl in Hw1.
      rewrite Hh, Hw in Hw1. injection Hw1 as <-.
      rewrite Hrefs, (hits_occ s cs h q Hnd Hq Hqp), Hpb, Hkids.
      unfold set_ref_count. simpl. do 2 f_equal. lia.
Qed.

(** ** The concrete pool is consistent *)

Lemma demo_table p :
  p ∈ ref_table demo -> p = 1000 \/ p = 1024 \/ p = 1064 \/ p = 1088.
Proof.
  intros Hp. change (ref_table demo) with [1000; 1024; 1064; 1088] in Hp.
  repeat (apply elem_of_cons in Hp as [->|Hp]); auto. by apply elem_of_nil in Hp.
Qed.

Lemma demo_pool_ok : pool_ok demo.
Proof.
  split.
  - reflexivity.
  - change (NoDup (filter (fun p => is_pool_address demo p = true) [1000; 1024; 1064; 1088])).
    rewrite !filter_cons, filter_nil. repeat (rewrite decide_True by reflexivity).
    apply NoDup_ListNoDup. repeat constructor; simpl; lia.
  - change (NoDup [1000; 1024; 1064; 1088]).
    apply NoDup_ListNoDup. repeat constructor; simpl; lia.
  - intros p Hp _. apply demo_table in Hp as [-> | [-> | [-> | ->]]].
    + exists (Value VAL_SCALAR 2 24 RawData). split; [reflexivity|]. split.
      * exists []. split; [reflexivity|]. intros c Hc. by apply elem_of_nil in Hc.
      * left.
    + exists (Value VAL_REF_ARRAY 1 40 (RefArrayData [0; NULL_REF; TOMBSTONE_REF])).
      split; [reflexivity|]. split.
      * exists [0]. split; [reflexivity|]. intros c Hc.
        apply list_elem_of_singleton in Hc as ->. unfold num_refs. simpl. lia.
      * right. left.
    + exists (Value VAL_LIST 1 24 (ListData 2)). split; [reflexivity|]. split.
      * exists [2]. split; [reflexivity|]. intros c Hc.
        apply list_elem_of_singleton in Hc as ->. unfold num_refs. simpl. lia.
      * right. right. left.
    + exists (Value VAL_DICT 1 32 (DictData 0 3)). split; [reflexivity|]. split.
      * exists [0; 3]. split; [reflexivity|]. intros c Hc.
        apply elem_of_cons in Hc as [->|Hc]; [unfold num_refs; simpl; lia|].
        apply list_elem_of_singleton in Hc as ->. unfold num_refs. simpl. lia.
      * right. right. right. left.
Qed.

Lemma demo_steady : steady demo.
Proof.
  split.
  - simpl. lia.
  - simpl. lia.
  - simpl. lia.
  - left. simpl. lia.
  - split; reflexivity.
  - intros p Hp. right. by apply demo_table in Hp as [-> | [-> | [-> | ->]]].
  - apply demo_pool_ok.
  - intros p v Hp _ Hv. apply demo_table in Hp as [-> | [-> | [-> | ->]]];
      change (heap demo !! _) with (Some v) in Hv || idtac;
      (assert (Hv' := Hv); vm_compute in Hv'; injection Hv' as <-; simpl; lia).
  - intros b Hb. change (blocks demo) with [(1000, 24); (1024, 40); (1064, 24); (1088, 32)] in Hb.
    repeat (apply elem_of_cons in Hb as [->|Hb]); simpl; try lia. by apply elem_of_nil in Hb.
  - vm_compute. discriminate.
Qed.

Lemma demo_reach h : reach demo [1] h <-> h ∈ [1; 0].
Proof.
  split.
  - apply (reach_closed demo [1] (fun h => h ∈ [1; 0])).
    + intros r Hr. apply list_elem_of_singleton in Hr as ->. left.
    + intros x c Hx Hc.
      repeat (apply elem_of_cons in Hx as [->|Hx]); try (by apply elem_of_nil in Hx);
        vm_compute in Hc;
        repeat (apply elem_of_cons in Hc as [->|Hc]); try (by apply elem_of_nil in Hc).
      right. left.
  - intros Hh. repeat (apply elem_of_cons in Hh as [->|Hh]); try (by apply elem_of_nil in Hh).
    + apply reach_root. left.
    + apply (reach_child _ _ 1); [apply reach_root; left|]. vm_compute. left.
Qed.

Lemma demo_live h : reach demo [1] h -> live demo h.
Proof.
  intros Hh. apply demo_reach in Hh.
  repeat (apply elem_of_cons in Hh as [->|Hh]); try (by apply elem_of_nil in Hh);
    eexists; (split; [reflexivity | done]).
Qed.

(** ** The references the sweep takes back *)

Lemma copied_or_left s s2 h p :
  steady s -> copy_inv (mm_init (pool_size s) (to_space s) s) s2 ->
  slot s h = Ok p ->
  (¬ pooled s2 h /\ slot s2 h = Ok p /\ heap s2 !! p = heap s !! p) \/
  (p ≠ NULL /\ exists q v, slot s2 h = Ok q /\ is_pool_address s2 q = true /\
     heap s !! p = Some v /\ heap s2 !! q = Some v).
Proof.
  intros Hst Hci Hs. pose proof (steady_copy_start s Hst) as Hcs.
  set (s0 := mm_init (pool_size s) (to_space s) s) in *.
  pose proof Hs as Hs'. apply slot_Ok in Hs' as [Hr Hl].
  assert (Hnum : num_refs s2 = num_refs s) by apply (num_refs_frame s0 s2 (ci_frame _ _ Hci)).
  destruct (ci_slot _ _ Hci _ p Hl) as [H2|(H0 & q & v & H2 & Hq & Hv0 & Hv2)].
  - left. assert (Hout : is_pool_address s2 p = false).
    { rewrite (same_frame_pool s0 s2 _ (ci_frame _ _ Hci)).
      apply (cs_outside _ Hcs). by eapply slot_elem. }
    assert (Hs2 : slot s2 h = Ok p) by (apply slot_Ok; by rewrite Hnum).
    split; [|split; [done|by apply (ci_heap _ _ Hci)]].
    intros (q & Hq & Hqp). congruence.
  - right. split; [done|]. exists q, v. split; [|done]. apply slot_Ok. by rewrite Hnum.
Qed.

Lemma garbage_refs_after_copy s s2 roots R h :
  steady s -> copy_inv (mm_init (pool_size s) (to_space s) s) s2 ->
  (forall x, pooled s2 x <-> reach s roots x) ->
  (forall x, x ∈ R <-> reach s roots x) ->
  refs_from (pooled_b (swap_spaces s2)) (swap_spaces s2)
    (length (ref_table (swap_spaces s2))) 0 h = garbage_refs s R h.
Proof.
  intros Hst Hci Hreach HR. unfold garbage_refs.
  assert (Hlen : length (ref_table (swap_spaces s2)) = length (ref_table s)).
  { simpl. by destruct (ci_frame _ _ Hci) as (-> & _). }
  rewrite Hlen. apply refs_from_ext. intros j Hj.
  destruct (slot_in_range s j) as [p Hs]; [unfold num_refs; lia|].
  assert (Hiff : pooled_b (swap_spaces s2) j = true <-> j ∈ R).
  { rewrite pooled_b_true, HR. apply Hreach. }
  split.
  - destruct (pooled_b (swap_spaces s2) j) eqn:E; symmetry.
    + apply bool_decide_eq_true. by apply Hiff.
    + apply bool_decide_eq_false. intros Hin. apply Hiff in Hin. done.
  - intros Hf. apply bool_decide_eq_false in Hf.
    destruct (copied_or_left s s2 j p Hst Hci Hs) as [(_ & Hs2 & Hh)|(_ & q & v & Hs2 & Hq & _)].
    + unfold kids, value_at. change (slot (swap_spaces s2) j) with (slot s2 j).
      rewrite Hs2, Hs. destruct (p =? NULL); [done|]. simpl. by rewrite Hh.
    + destruct Hf. apply HR, Hreach. by exists q.
Qed.

(** ** Accounting for what decrements release *)

(** The last decrement of a value: its slot is cleared, whatever else the
    walk over its children releases. *)
Lemma decref_last_cascade h s p v :
  pool_ok s -> slot s h = Ok p -> is_pool_address s p = true ->
  heap s !! p = Some v -> ref_count v = 1 ->
  exists s', decref h s = Ok s' /\ pool_ok s' /\ decref_rel s s' /\ slot s' h = Ok NULL.
Proof.
  intros Hok Hs Hp Hv Hrc. pose proof (pool_null _ Hok) as Hn.
  rewrite (decref_unfold _ _ Hn). unfold decref_body.
  rewrite Hs. simpl. rewrite Hp, (deref_slot _ _ _ Hs Hp). simpl.
  unfold load at 1. rewrite Hv. simpl. rewrite Hrc. simpl.
  destruct (release_cleared s h p v (wrap_count (1 - 1)) Hok Hs Hp Hv)
    as (Hok2 & Hcnt & Hout & Hl2 & Hf2).
  destruct (pool_values _ Hok p (slot_elem _ _ _ Hs) Hp) as (v0 & Hv0 & (cs & Hcs & Hrange) & _).
  assert (v0 = v) as -> by congruence.
  set (s2 := set_slot h NULL _) in *.
  destruct (traverse_decref_ok s2 p (set_ref_count (wrap_count (1 - 1)) v) Hok2)
    as (s3 & Ht & Hok3 & H23).
  { unfold load in Hl2. by destruct (heap s2 !! p) as [w|]; [injection Hl2 as ->|]. }
  { exists cs. split; [done|]. intros c Hc. rewrite (num_refs_frame s s2 Hf2). by apply Hrange. }
  change (traverse_with decref p s2) with (traverse_decref p s2). rewrite Ht. simpl.
  destruct (release_freed s h p v (wrap_count (1 - 1)) s3 Hok Hs Hp Hv eq_refl Hok3 H23)
    as (s4 & Hm & Hok4 & H4).
  exists s4. split; [done|]. split; [done|]. split; [done|].
  apply mm_free_Ok in Hm as (Ht4 & _). pose proof Hs as Hs'.
  apply slot_Ok in Hs' as [Hr Hl]. apply slot_Ok.
  rewrite (num_refs_frame _ _ (dr_frame _ _ H4)). split; [done|]. rewrite Ht4.
  destruct (dr_table _ _ H23 (Z.to_nat h) NULL) as [H|H]; try done.
  unfold s2. simpl. apply list_lookup_insert_eq. by eapply lookup_lt_Some.
Qed.

(** What decrements take off the two diagnostics is what the slots they
    cleared held. *)
Lemma decref_rel_accounting s s' :
  pool_ok s -> (forall p, p ∈ ref_table s -> p = NULL \/ is_pool_address s p = true) ->
  decref_rel s s' ->
  refs_used s - refs_used s' = released_count s s' /\
  mem_used s - mem_used s' = reclaimed_bytes s s'.
Proof.
  intros Hok Hall Hrel. pose proof (pool_null _ Hok) as Hn.
  pose proof (dr_frame _ _ Hrel) as Hf. destruct Hf as (Hlen & Hfb & Hfz).
  assert (Hpool : forall a, is_pool_address s' a = is_pool_address s a).
  { intros a. by apply is_pool_address_frame. }
  split.
  - rewrite !refs_used_sum. unfold released_count.
    rewrite (sum_reclaimed (fun p => if p =? NULL then 0 else 1)
               (fun p => if p =? NULL then 0 else 1) (fun _ => 1)
               (ref_table s) (ref_table s')); [lia | done |].
    intros i p p' Hp Hp'. destruct (dr_table _ _ Hrel i p Hp) as [H|H];
      rewrite H in Hp'; injection Hp' as <-.
    + destruct (Z.eqb_spec p NULL); simpl; lia.
    + destruct (Z.eqb_spec p NULL); simpl; lia.
  - rewrite (dr_account _ _ Hrel). unfold reclaimed_bytes, slot_bytes.
    rewrite (sum_reclaimed (fun p => if is_pool_address s p then size_at s p else 0)
               (fun p => if is_pool_address s' p then size_at s' p else 0) (size_at s)
               (ref_table s) (ref_table s')); [lia | done |].
    intros i p p' Hp Hp'.
    assert (Hin : p ∈ ref_table s) by (apply list_elem_of_lookup; eauto).
    destruct (dr_table _ _ Hrel i p Hp) as [H|H];
      rewrite H in Hp'; injection Hp' as <-.
    + rewrite Hpool, (dr_sizes _ _ Hrel).
      destruct (Z.eqb_spec p NULL) as [->|]; simpl; [lia|]. lia.
    + rewrite Hpool, Hn. simpl.
      destruct (Z.eqb_spec p NULL) as [->|H0]; simpl; [by rewrite Hn|].
      destruct (Hall p Hin) as [?|Hpp]; [done|]. rewrite Hpp. lia.
Qed.

Lemma init_refs_steady memory_size memory_pool :
  0 <= memory_size -> 0 < memory_pool -> steady (init_refs memory_size memory_pool).
Proof.
  intros Hm Hp.
  assert (Hsz : 0 <= memory_size / 2 / ALIGNMENT * ALIGNMENT).
  { unfold ALIGNMENT. apply Z.mul_nonneg_nonneg; [|lia].
    apply Z.div_pos; [|lia]. apply Z.div_pos; lia. }
  split.
  - simpl. lia.
  - simpl. lia.
  - simpl. lia.
  - left. simpl. lia.
  - done.
  - intros p Hin. by apply elem_of_nil in Hin.
  - split; simpl.
    + unfold is_pool_address, NULL. simpl. destruct (Z.leb_spec memory_pool 0); [lia|done].
    + constructor.
    + constructor.
    + intros p Hin. by apply elem_of_nil in Hin.
  - intros p v Hin. by apply elem_of_nil in Hin.
  - intros b Hin. by apply elem_of_nil in Hin.
  - unfold mem_used. simpl. lia.
Qed.

(** ** Consistency is kept *)

Lemma reclaimed_nonneg (size : Z -> Z) (t : list Z) : forall t',
  (forall p, p ∈ t -> p ≠ NULL -> 0 <= size p) -> 0 <= reclaimed size t t'.
Proof.
  induction t as [|p t IH]; intros [|p' t'] Hpos; simpl; try lia.
  assert (0 <= reclaimed size t t').
  { apply IH. intros q Hq. apply Hpos. by right. }
  destruct (Z.eqb_spec p NULL); simpl; [lia|].
  destruct (p' =? NULL); [|lia].
  assert (0 <= size p) by (apply Hpos; [left|done]). lia.
Qed.


Lemma steady_size_nonneg s p :
  steady s -> p ∈ ref_table s -> p ≠ NULL -> 0 <= size_at s p.
Proof.
  intros Hst Hp H0. unfold size_at. destruct (heap s !! p) as [v|] eqn:Hv; [|lia].
  destruct (st_values _ Hst p v Hp H0 Hv). lia.
Qed.

(** What [decref] leaves of a consistent state is consistent. *)
Lemma decref_rel_steady s s' :
  steady s -> pool_ok s' -> decref_rel s s' -> steady s'.
Proof.
  intros Hst Hok' Hrel. pose proof (st_pool _ Hst) as Hok.
  destruct (dr_spaces _ _ Hrel) as (Hfrom & Hto & Hsz & _).
  pose proof (dr_frame _ _ Hrel) as Hf. destruct Hf as (Hlen & Hab & Haz).
  assert (Hpool : forall a, is_pool_address s' a = is_pool_address s a).
  { intros a. by apply is_pool_address_frame. }
  assert (Hback : forall p, p ∈ ref_table s' -> p ≠ NULL ->
            p ∈ ref_table s /\ is_pool_address s p = true).
  { intros p Hp H0. destruct (table_entry_back _ _ _ Hrel Hp) as [?|Hin]; [done|].
    split; [done|]. by apply steady_pooled. }
  split.
  - rewrite Hfrom. apply (st_from _ Hst).
  - rewrite Hto. apply (st_to _ Hst).
  - rewrite Hsz. apply (st_size _ Hst).
  - rewrite Hfrom, Hto, Hsz. apply (st_disjoint _ Hst).
  - rewrite Hab, Haz, Hfrom, Hsz. apply (st_arena _ Hst).
  - intros p Hp. destruct (decide (p = NULL)) as [?|H0]; [by left|].
    right. rewrite Hpool. by apply Hback.
  - done.
  - intros p v' Hp H0 Hv'. destruct (Hback p Hp H0) as [Hin Hpp].
    destruct (pool_values _ Hok p Hin Hpp) as (v & Hv & _).
    destruct (dr_kept _ _ Hrel p v Hp Hpp Hv) as (w & Hw & _ & _ & Hsize & Hcount).
    assert (w = v') as -> by congruence.
    destruct (st_values _ Hst p v Hin H0 Hv) as [Hpos Hrc].
    split; [lia | by apply Hcount].
  - intros b Hb. apply (st_blocks _ Hst). by apply (dr_blocks_sub _ _ Hrel).
  - rewrite Hsz. pose proof (st_fit _ Hst).
    destruct (decref_rel_accounting s s' Hok (st_slots _ Hst) Hrel) as [_ Hm].
    assert (0 <= reclaimed_bytes s s'); [|lia].
    apply reclaimed_nonneg. intros p Hp H0. by apply steady_size_nonneg.
Qed.

Lemma decref_steady ref s :
  steady s -> 0 <= ref < num_refs s ->
  exists s', decref ref s = Ok s' /\ steady s' /\ decref_rel s s'.
Proof.
  intros Hst Hr.
  destruct (decref_ok (pool_slots s) s (le_n _) (st_pool _ Hst) ref Hr)
    as (s' & Hd & Hok' & Hrel).
  exists s'. split; [done|]. split; [by eapply decref_rel_steady | done].
Qed.

(** What a collection takes off [mem_used]. *)
Lemma collect_bytes s s2 s' :
  steady s -> copy_inv (mm_init (pool_size s) (to_space s) s) s2 ->
  pool_ok s' -> decref_rel (swap_spaces s2) s' ->
  (forall j p, slot s' j = Ok p -> p = NULL \/ is_pool_address s' p = true) ->
  mem_used s' = slot_bytes s' /\
  mem_used s' + reclaimed_bytes s s' <= mem_used s.
Proof.
  intros Hst Hci Hok' Hrel Hall.
  pose proof (st_pool _ Hst) as Hok.
  pose proof (slot_bytes_le_used s Hok (st_blocks _ Hst)) as Hle.
  assert (Hex : mem_used s' = slot_bytes s').
  { pose proof (dr_account _ _ Hrel) as Hacc. pose proof (ci_exact _ _ Hci) as Hex.
    change (mem_used (swap_spaces s2)) with (mem_used s2) in Hacc.
    change (slot_bytes (swap_spaces s2)) with (slot_bytes s2) in Hacc. lia. }
  split; [done|].
  assert (Hsum : slot_bytes s = slot_bytes s' + reclaimed_bytes s s'); [|lia].
  apply sum_reclaimed.
  { destruct (dr_frame _ _ Hrel) as (-> & _). simpl.
    by destruct (ci_frame _ _ Hci) as (-> & _). }
  intros i p p' Hp Hp'.
  assert (Hpool' : forall a, is_pool_address s' a = is_pool_address s2 a).
  { intros a. by rewrite (same_frame_pool (swap_spaces s2) s' _ (dr_frame _ _ Hrel)). }
  assert (Hin : p ∈ ref_table s) by (apply list_elem_of_lookup; eauto).
  destruct (collect_cases s s2 s' Hst Hci Hrel Hall _ p Hp)
    as [(_ & _ & H' & _)|(H0 & p2 & v & H2 & Hp2 & Hv & Hv2 & H')].
  - assert (p' = NULL) as -> by congruence. rewrite (pool_null _ Hok'). simpl.
    destruct (Z.eqb_spec p NULL) as [->|H0]; simpl.
    + by rewrite (pool_null _ Hok).
    + rewrite (steady_pooled s p Hst Hin H0). rewrite ?andb_true_r. lia.
  - rewrite (steady_pooled s p Hst Hin H0).
    destruct (Z.eqb_spec p NULL); [done|]. simpl.
    destruct H' as [H'|H'].
    + assert (p' = p2) as -> by congruence. rewrite Hpool', Hp2.
      assert (p2 ≠ NULL).
      { intros ->. rewrite <- Hpool', (pool_null _ Hok') in Hp2. done. }
      destruct (Z.eqb_spec p2 NULL); [done|].
      rewrite (dr_sizes _ _ Hrel). unfold size_at. simpl. rewrite Hv, Hv2. lia.
    + assert (p' = NULL) as -> by congruence. rewrite (pool_null _ Hok'). simpl. lia.
Qed.

(** The state a collection leaves is consistent, its halves exchanged. *)
Lemma collect_steady s s2 s' :
  steady s -> copy_inv (mm_init (pool_size s) (to_space s) s) s2 ->
  pool_ok s' -> decref_rel (swap_spaces s2) s' ->
  (forall j p, slot s' j = Ok p -> p = NULL \/ is_pool_address s' p = true) ->
  steady s' /\ from_space s' = to_space s /\ to_space s' = from_space s.
Proof.
  intros Hst Hci Hok' Hrel Hall.
  destruct (dr_spaces _ _ Hrel) as (Hfrom & Hto & Hsz & _). simpl in Hfrom, Hto, Hsz.
  destruct (ci_spaces _ _ Hci) as (Hfrom2 & Hto2 & Hsz2 & _).
  simpl in Hfrom2, Hto2, Hsz2.
  destruct (dr_frame _ _ Hrel) as (Hlen & Hab & Haz). simpl in Hlen, Hab, Haz.
  destruct (ci_frame _ _ Hci) as (Hlen2 & Hab2 & Haz2). simpl in Hlen2, Hab2, Haz2.
  assert (Hpool' : forall a, is_pool_address s' a = is_pool_address s2 a).
  { intros a. by apply is_pool_address_frame. }
  assert (Hslots : forall p, p ∈ ref_table s' -> p = NULL \/ is_pool_address s' p = true).
  { intros p Hp. apply list_elem_of_lookup in Hp as [i Hi]. apply (Hall (Z.of_nat i)).
    apply slot_Ok. unfold num_refs. rewrite Nat2Z.id. split; [|done].
    apply lookup_lt_Some in Hi. lia. }
  split; [|split; congruence]. split.
  - rewrite Hfrom, Hto2. apply (st_to _ Hst).
  - rewrite Hto, Hfrom2. apply (st_from _ Hst).
  - rewrite Hsz, Hsz2. apply (st_size _ Hst).
  - rewrite Hfrom, Hto, Hsz, Hto2, Hfrom2, Hsz2. destruct (st_disjoint _ Hst); auto.
  - rewrite Hab, Haz, Hab2, Haz2, Hfrom, Hto2, Hsz, Hsz2. done.
  - done.
  - done.
  - intros p v' Hp H0 Hv'.
    destruct (Hslots p Hp) as [?|Hpp]; [done|]. rewrite Hpool' in Hpp.
    pose proof (pooled_entry_back _ _ _ Hrel (pool_null _ (ci_pool _ _ Hci)) Hpp Hp) as Hin2.
    simpl in Hin2. apply list_elem_of_lookup in Hin2 as [i Hi].
    destruct (lookup_lt_is_Some_2 (ref_table s) i) as [p0 Hp0].
    { rewrite <- Hlen2. by eapply lookup_lt_Some. }
    destruct (collect_cases s s2 s' Hst Hci Hrel Hall _ p0 Hp0)
      as [(H2 & Hout & _)|(H00 & p2 & v & H2 & Hp2 & Hv & Hv2 & _)].
    + assert (p0 = p) as -> by congruence. congruence.
    + assert (p2 = p) as -> by congruence.
      destruct (dr_kept _ _ Hrel p v Hp Hpp Hv2) as (w & Hw & _ & _ & Hsize & Hcount).
      assert (w = v') as -> by congruence.
      destruct (st_values _ Hst p0 v) as [Hpos Hrc]; try done.
      { apply list_elem_of_lookup. eauto. }
      split; [lia | by apply Hcount].
  - intros b Hb. apply (dr_blocks_sub _ _ Hrel) in Hb. simpl in Hb.
    destruct b as [a n]. destruct (packed_bounds _ _ _ _ (ci_packed _ _ Hci) Hb). simpl. lia.
  - destruct (collect_bytes s s2 s' Hst Hci Hok' Hrel Hall) as [_ Hle].
    assert (0 <= reclaimed_bytes s s').
    { apply reclaimed_nonneg. intros p Hp H0. by apply steady_size_nonneg. }
    pose proof (st_fit _ Hst). lia.
Qed.

(** ** The first slot of the table *)

(** Whatever [INITIAL_SIZE] is, the first value created in an empty table
    of capacity 0 gets handle 0 and leaves the capacity at [INITIAL_SIZE]. *)
Lemma make_ref_first_growth (INITIAL_SIZE SIZEOF_VALUE_T : Z) ty size s p s1 :
  0 <= SIZEOF_VALUE_T <= align_size size ->
  ref_table s = [] -> max_refs s = 0 ->
  mm_malloc (align_size size) s = Some (p, s1) ->
  exists s', make_ref INITIAL_SIZE SIZEOF_VALUE_T ty size s = Ok (0, s') /\
    max_refs s' = INITIAL_SIZE.
Proof.
  intros Hsz Ht Hm Hmalloc.
  rewrite (make_ref_success INITIAL_SIZE SIZEOF_VALUE_T _ _ _ _ _ Hsz Hmalloc).
  apply mm_malloc_Some in Hmalloc as (Ht1 & Hm1 & _).
  set (s2 := store p _ s1).
  assert (Ht2 : ref_table s2 = []) by (unfold s2; simpl; by rewrite Ht1).
  assert (Hm2 : max_refs s2 = 0) by (unfold s2; simpl; by rewrite Hm1).
  rewrite assign_reference_append by (by rewrite Ht2).
  unfold num_refs. rewrite Ht2, Hm2. simpl. eexists. split; reflexivity.
Qed.

(** ** Counting the embedded references *)

Lemma occ_pos h cs : h ∈ cs -> 1 <= occ h cs.
Proof.
  induction cs as [|c cs IH]; intros Hin; [by apply elem_of_nil in Hin|].
  unfold occ, sumZ in *. simpl. apply elem_of_cons in Hin as [<-|Hin].
  - rewrite Z.eqb_refl. pose proof (occ_nonneg h cs) as Hn. unfold occ, sumZ in Hn. lia.
  - specialize (IH Hin). destruct (c =? h); lia.
Qed.

Lemma refs_from_ge keep s n : forall i h j,
  i <= j < i + Z.of_nat n -> keep j = false ->
  occ h (kids s j) <= refs_from keep s n i h.
Proof.
  induction n as [|n IH]; intros i h j Hj Hk; simpl; [lia|].
  pose proof (refs_from_nonneg keep s n (i + 1) h) as Hn.
  destruct (Z.eq_dec j i) as [->|Hne].
  - rewrite Hk. lia.
  - assert (occ h (kids s j) <= refs_from keep s n (i + 1) h) by (apply IH; [lia | done]).
    pose proof (occ_nonneg h (kids s i)). destruct (keep i); lia.
Qed.

(** A list whose child is its own handle counts among the references to
    that handle. *)
Lemma self_reference_counted s h p v :
  slot s h = Ok p -> p ≠ NULL -> heap s !! p = Some v ->
  type v = VAL_LIST -> data v = ListData h ->
  kids s h = [h] /\ 1 <= embedded_refs s h.
Proof.
  intros Hs H0 Hv Hty Hda.
  assert (Hk : kids s h = [h]).
  { apply (kids_garbage s h p v); try done. unfold children. by rewrite Hty, Hda. }
  split; [done|]. unfold embedded_refs.
  apply slot_Ok in Hs as [Hr _]. unfold num_refs in Hr.
  apply (Z.le_trans _ (occ h (kids s h))).
  - rewrite Hk. apply occ_pos. left.
  - apply refs_from_ge; [lia | done].
Qed.


(** * The properties of the specification *)

(** C5: when the allocator cannot satisfy the request, [make_ref] returns
    [NULL_REF] and leaves the reference table as it was: the same slots, the
    same number of slots, the same capacity. *)
Theorem make_ref_exhausted (INITIAL_SIZE SIZEOF_VALUE_T : Z) ty size s :
  mm_malloc (align_size size) s = None ->
  exists s', make_ref INITIAL_SIZE SIZEOF_VALUE_T ty size s = Ok (NULL_REF, s') /\
    ref_table s' = ref_table s /\ num_refs s' = num_refs s /\
    max_refs s' = max_refs s.
Proof.
  intros Hm. exists s. unfold make_ref. rewrite Hm. done.
Qed.

Lemma make_ref_exhausted_witness :
  mm_malloc (align_size 16) (init_refs 0 1000) = None /\
  exists s', make_ref 8 16 VAL_SCALAR 16 (init_refs 0 1000) = Ok (NULL_REF, s') /\
    ref_table s' = ref_table (init_refs 0 1000) /\
    num_refs s' = num_refs (init_refs 0 1000) /\
    max_refs s' = max_refs (init_refs 0 1000).
Proof.
  split; [reflexivity|].
  apply (make_ref_exhausted 8 16 VAL_SCALAR 16 (init_refs 0 1000)). reflexivity.
Defined.

(** C6, as stated, fails on the first [make_ref] after [init_refs]: the
    table is full (no slot, no capacity), and its capacity becomes
    [INITIAL_SIZE] (here 8, with a header of 16 bytes), not twice what it
    was. *)
Lemma make_ref_first_growth_not_doubling :
  exists s', make_ref 8 16 VAL_SCALAR 24 (init_refs 4096 1000) = Ok (0, s') /\
    num_refs (init_refs 4096 1000) = max_refs (init_refs 4096 1000) /\
    max_refs s' ≠ 2 * max_refs (init_refs 4096 1000).
Proof.
  eexists. split; [vm_compute; reflexivity|]. split; [reflexivity|]. vm_compute. discriminate.
Qed.

(** C6, amended: a successful [make_ref] (the allocator has the storage,
    and the storage is no smaller than the header of a value, so that the
    fill of the payload stays inside it) stores a value of the given kind
    with [ref_count = 1] and binds it to the lowest-indexed unused slot when
    there is one (so the handle is no greater than any unused index, and the
    table keeps its size and capacity); when no slot is unused it appends a
    slot, and a full table has its capacity doubled, or set to
    [INITIAL_SIZE] when the capacity was 0. *)
Theorem make_ref_binds (INITIAL_SIZE SIZEOF_VALUE_T : Z) ty size s p s1 :
  0 <= SIZEOF_VALUE_T <= align_size size ->
  mm_malloc (align_size size) s = Some (p, s1) ->
  exists h s',
    make_ref INITIAL_SIZE SIZEOF_VALUE_T ty size s = Ok (h, s') /\
    heap s' !! p = Some (Value ty 1 (align_size size) RawData) /\
    slot s' h = Ok p /\
    (forall i, slot s i = Ok NULL ->
       h <= i /\ slot s h = Ok NULL /\
       ref_table s' = <[Z.to_nat h := p]> (ref_table s) /\
       max_refs s' = max_refs s) /\
    ((forall i, slot s i ≠ Ok NULL) ->
       h = num_refs s /\ ref_table s' = ref_table s ++ [p] /\
       max_refs s' =
         if num_refs s =? max_refs s
         then (if max_refs s =? 0 then INITIAL_SIZE else max_refs s * 2)
         else max_refs s).
Proof.
  intros Hsz Hm. rewrite (make_ref_success INITIAL_SIZE SIZEOF_VALUE_T _ _ _ _ _ Hsz Hm).
  apply mm_malloc_Some in Hm as (Ht & Hmx & Hh & _).
  destruct (find_slot NULL (ref_table s) 0) as [j|] eqn:Hf;
    rewrite <- Ht in Hf.
  - rewrite (assign_reference_reuse _ _ _ j) by done. rewrite Ht in Hf.
    pose proof (find_slot_lt _ _ _ _ Hf) as Hlt.
    apply find_slot_Some in Hf as (Hle & Hl & Hmin).
    rewrite Z.sub_0_r in Hl, Hmin.
    assert (Hj : slot s j = Ok NULL) by (apply slot_Ok; unfold num_refs; split; [lia|done]).
    eexists j, _. split; [reflexivity|]. split; [|split; [|split]].
    + simpl. apply lookup_insert_eq.
    + apply slot_Ok. unfold num_refs. simpl. rewrite length_insert, Ht.
      split; [lia|]. apply list_lookup_insert_eq. lia.
    + intros i Hi. apply slot_Ok in Hi as [Hr Hi].
      split; [|split; [done|split; simpl; [by rewrite Ht | done]]].
      destruct (Z.le_gt_cases j i) as [?|Hgt]; [done|].
      exfalso. apply (Hmin (Z.to_nat i)); [lia | done].
    + intros Hno. by destruct (Hno j).
  - rewrite assign_reference_append by done.
    apply find_slot_None in Hf. rewrite Ht in Hf.
    eexists (num_refs s), _. split; [unfold num_refs; simpl; rewrite ?Ht; reflexivity|].
    split; [|split; [|split]].
    + simpl. apply lookup_insert_eq.
    + apply slot_Ok. unfold num_refs. simpl. rewrite length_app. simpl.
      split; [lia|]. rewrite Nat2Z.id. by apply list_lookup_middle.
    + intros i Hi. apply slot_Ok in Hi as [_ Hi]. exfalso. apply Hf.
      apply list_elem_of_lookup. eauto.
    + intros _. split; [done|]. unfold num_refs. simpl. by rewrite Hmx.
Qed.

(** C9: [decref] on a handle within the table whose slot holds no value of
    the active region (the slot is unused, or holds a stale location) is a
    silent no-op: it returns normally and the whole state (table, values,
    allocator) is as before. *)
Theorem decref_outside_pool_noop ref s p :
  slot s ref = Ok p -> is_pool_address s p = false -> decref ref s = Ok s.
Proof.
  intros Hs Hp. unfold decref. simpl. unfold decref_body.
  rewrite Hs. simpl. by rewrite Hp.
Qed.

(** C3: when [decref] drives a count to zero it (a) clears the slot, (b)
    walks the embedded handles with [decref] (for a reference array, the
    entries other than the two sentinels), and (c) only then releases the
    storage; during the walk the slot is already unused and the storage is
    still handed out, so a [decref] of the same handle in any state where
    the slot is still unused does nothing. *)
Theorem decref_release_order ref s p v :
  is_pool_address s NULL = false ->
  slot s ref = Ok p -> is_pool_address s p = true -> heap s !! p = Some v ->
  wrap_count (ref_count v - 1) = 0 ->
  let s1 := set_slot ref NULL (store p (set_ref_count 0 v) s) in
  decref ref s = (s2 ← traverse_decref p s1; mm_free p s2) /\
  slot s1 ref = Ok NULL /\ blocks s1 = blocks s /\
  (forall cs, children v = Some cs ->
     traverse_decref p s1 = foreach_global decref cs s1) /\
  (forall s', slot s' ref = Ok NULL -> is_pool_address s' NULL = false ->
     decref ref s' = Ok s').
Proof.
  intros Hn Hs Hp Hv Hz s1. split; [|split; [|split; [|split]]].
  - rewrite (decref_unfold _ _ Hn). unfold decref_body.
    rewrite Hs. simpl. rewrite Hp, (deref_slot _ _ _ Hs Hp). simpl.
    unfold load at 1. rewrite Hv. simpl. rewrite Hz. simpl. done.
  - apply slot_Ok in Hs as [Hr Hl]. apply slot_Ok. unfold num_refs, s1. simpl.
    rewrite length_insert. split; [done|].
    apply list_lookup_insert_eq. by eapply lookup_lt_Some.
  - done.
  - intros cs Hcs. unfold traverse_decref, traverse_with, load, s1. simpl.
    rewrite lookup_insert_eq. simpl.
    by rewrite for_each_child_children, children_set_ref_count, Hcs.
  - intros s' Hs' Hn'. by apply (decref_skips ref s' NULL).
Qed.



(** C2, as stated, fails: in the concrete pool handle 2 is a list whose
    child is itself, with a count of 1 and no root reaching it, and one
    [decref] on it, with no collection, takes the count to zero and
    releases it: its slot is cleared, its handle no longer resolves, and its
    24 bytes are back with the allocator. *)
Lemma self_cycle_released_by_decref :
  exists s',
    heap demo !! 1064 = Some (Value VAL_LIST 1 24 (ListData 2)) /\
    slot demo 2 = Ok 1064 /\ ¬ reach demo [1] 2 /\
    decref 2 demo = Ok s' /\
    slot s' 2 = Ok NULL /\ deref 2 s' = Fault /\
    refs_used s' = refs_used demo - 1 /\ mem_used s' = mem_used demo - 24.
Proof.
  eexists. split; [reflexivity|]. split; [reflexivity|]. split.
  { intros Hr. apply demo_reach in Hr.
    repeat (apply elem_of_cons in Hr as [Hr|Hr]; [discriminate|]).
    by apply elem_of_nil in Hr. }
  split; [vm_compute; reflexivity|]. repeat split.
Qed.

(** C2, amended: a list whose child is itself, and which no root reaches,
    is not reclaimed by the [decref] calls that drop the references held
    outside of values: its own reference is one of the references embedded
    in values, so as long as no more calls are made than the count exceeds
    those, the count stays at 1 or more and the handle still resolves.  The
    next [collect_garbage] clears its slot, and resolving its handle fails. *)
Theorem self_cycle_needs_collection s roots h p v (k : nat) :
  steady s -> (forall x, reach s roots x -> live s x) ->
  slot s h = Ok p -> p ≠ NULL -> heap s !! p = Some v ->
  type v = VAL_LIST -> data v = ListData h ->
  ¬ reach s roots h ->
  Z.of_nat k <= ref_count v - embedded_refs s h ->
  exists s1 s',
    decref_times k h s = Ok s1 /\ deref h s1 = Ok p /\
    (exists v1, heap s1 !! p = Some v1 /\ ref_count v1 = ref_count v - Z.of_nat k /\
                type v1 = VAL_LIST /\ data v1 = ListData h /\
                kids s1 h = [h] /\ embedded_refs s1 h = embedded_refs s h /\
                1 <= embedded_refs s1 h <= ref_count v1) /\
    collect_garbage roots s1 = Ok s' /\
    slot s' h = Ok NULL /\ deref h s' = Fault.
Proof.
  intros Hst Hlive Hs H0 Hv Hty Hda Hunreach Hext.
  destruct (self_reference_counted s h p v Hs H0 Hv Hty Hda) as [Hkids Hself].
  assert (Hk : Z.of_nat k < ref_count v) by lia.
  pose proof (steady_pooled s p Hst (slot_elem _ _ _ Hs) H0) as Hp.
  pose proof (st_values _ Hst p v (slot_elem _ _ _ Hs) H0 Hv) as [_ Hrc].
  pose proof (pool_null _ (st_pool _ Hst)) as Hn.
  set (s1 := store p (set_ref_count (ref_count v - Z.of_nat k) v) s).
  assert (Hst1 : steady s1) by (apply steady_store; [done | done | lia]).
  destruct (collect_ok s1 roots Hst1) as (s2 & s' & _ & _ & Hrun & Hci & Hreach & Hok' & Hrel & Hall).
  { intros x Hx. apply reach_store in Hx; [|done]. by apply Hlive. }
  exists s1, s'. split; [apply decref_times_positive; try done; lia|].
  split; [by apply deref_slot|]. split.
  { assert (Hv1 : heap s1 !! p = Some (set_ref_count (ref_count v - Z.of_nat k) v))
      by apply lookup_insert_eq.
    assert (Hemb : embedded_refs s1 h = embedded_refs s h).
    { unfold embedded_refs. apply refs_from_ext. intros j _. split; [done|]. intros _.
      by apply kids_store. }
    eexists. split; [exact Hv1|]. split; [done|]. split; [done|]. split; [done|].
    split; [unfold s1; by rewrite (kids_store s p v _ h Hv)|]. split; [done|].
    rewrite Hemb. simpl. lia. }
  split; [done|].
  pose proof Hs as Hs'. apply slot_Ok in Hs' as [Hr Hl].
  assert (Hsl : slot s' h = Ok NULL).
  { destruct (collect_cases s1 s2 s' Hst1 Hci Hrel Hall _ p Hl)
      as [(_ & _ & H' & _)|(_ & p2 & w & H2 & Hp2 & _)].
    - apply slot_Ok. split; [|done].
      rewrite (num_refs_frame _ _ (dr_frame _ _ Hrel)).
      change (num_refs (swap_spaces s2)) with (num_refs s2).
      by rewrite (num_refs_frame _ _ (ci_frame _ _ Hci)).
    - destruct Hunreach.
      apply (reach_store s p v (ref_count v - Z.of_nat k) roots h Hv). apply Hreach.
      exists p2. split; [|done]. apply slot_Ok. split; [|done].
      by rewrite (num_refs_frame _ _ (ci_frame _ _ Hci)). }
  split; [done|]. unfold deref. rewrite Hsl. simpl.
  destruct (_ && _); [|done]. by rewrite (pool_null _ Hok').
Qed.

(** C4: for every handle that resolves, [get_ref (deref h) = h], before a
    collection and after it; a handle that resolves after the collection
    resolved before it, to a value of the same kind, size and payload; and
    the state after the collection is consistent again, so that the same
    holds across any further collection. *)
Theorem handle_stability s roots :
  steady s -> (forall x, reach s roots x -> live s x) ->
  (forall h a, deref h s = Ok a -> get_ref a s = Ok h) /\
  exists s', collect_garbage roots s = Ok s' /\ steady s' /\
    forall h a', deref h s' = Ok a' ->
      get_ref a' s' = Ok h /\
      exists a v v', deref h s = Ok a /\ heap s !! a = Some v /\
        heap s' !! a' = Some v' /\ type v' = type v /\ data v' = data v /\
        value_size v' = value_size v.
Proof.
  intros Hst Hlive. split.
  { intros h a. apply get_ref_deref. apply (pool_nodup _ (st_pool _ Hst)). }
  destruct (collect_ok s roots Hst Hlive)
    as (s2 & s' & _ & _ & Hrun & Hci & Hreach & Hok' & Hrel & Hall).
  exists s'. split; [done|].
  split; [apply (collect_steady s s2 s' Hst Hci Hok' Hrel Hall)|]. intros h a' Hd.
  split; [by apply get_ref_deref; [apply (pool_nodup _ Hok')|]|].
  apply deref_Ok in Hd as [Hs' Hp']. pose proof Hs' as Hs''.
  apply slot_Ok in Hs'' as [Hr' Hl'].
  assert (Hnum : num_refs s' = num_refs s).
  { rewrite (num_refs_frame _ _ (dr_frame _ _ Hrel)).
    change (num_refs (swap_spaces s2)) with (num_refs s2).
    by rewrite (num_refs_frame _ _ (ci_frame _ _ Hci)). }
  destruct (slot_in_range s h) as [p Hs]; [lia|].
  pose proof Hs as Hs0. apply slot_Ok in Hs0 as [_ Hl].
  assert (Ha0 : a' ≠ NULL) by (intros ->; rewrite (pool_null _ Hok') in Hp'; done).
  destruct (collect_cases s s2 s' Hst Hci Hrel Hall _ p Hl)
    as [(_ & _ & H' & _)|(H0 & p2 & v & H2 & Hp2 & Hv & Hv2 & [H'|H'])]; try congruence.
  assert (a' = p2) as -> by congruence.
  destruct (dr_kept _ _ Hrel p2 v) as (v' & Hv' & Hty & Hda & Hsi & _); try done.
  { by eapply slot_elem. }
  exists p, v, v'. split; [|done].
  apply deref_slot; [done|]. apply (steady_pooled s p Hst); [by eapply slot_elem|done].
Qed.

(** C8, as stated, fails when nothing is garbage: a collection of three
    rooted scalars leaves [mem_used] where it was. *)
Lemma collect_without_garbage_keeps_mem_used :
  exists s s',
    s = State {[1000 := Value VAL_SCALAR 1 24 RawData;
                1024 := Value VAL_SCALAR 1 24 RawData;
                1048 := Value VAL_SCALAR 1 24 RawData]}
          1000 1024 [(1000, 24); (1024, 24); (1048, 24)] 1000 2024 1024
          [1000; 1024; 1048] 8 /\
    collect_garbage [0; 1; 2] s = Ok s' /\
    ¬ (mem_used s' < mem_used s).
Proof.
  eexists _, _. split; [reflexivity|]. split; [vm_compute; reflexivity|].
  vm_compute. discriminate.
Qed.

(** C8, amended: across a collection [mem_used] does not grow, and it
    shrinks by at least the bytes of the values whose slots the collection
    cleared (so it shrinks strictly when a value is reclaimed). *)
Theorem collect_mem_used s roots :
  steady s -> (forall x, reach s roots x -> live s x) ->
  exists s', collect_garbage roots s = Ok s' /\
    mem_used s' + reclaimed_bytes s s' <= mem_used s /\
    0 <= reclaimed_bytes s s'.
Proof.
  intros Hst Hlive.
  destruct (collect_ok s roots Hst Hlive)
    as (s2 & s' & _ & _ & Hrun & Hci & Hreach & Hok' & Hrel & Hall).
  exists s'. split; [done|]. split.
  - apply (collect_bytes s s2 s' Hst Hci Hok' Hrel Hall).
  - apply reclaimed_nonneg. intros p Hp H0. by apply steady_size_nonneg.
Qed.


(** C1, as stated, fails: take the concrete pool with the count of the
    scalar stored as 1.  Handle 0 is reachable from the root, the copying
    relocates it, and the sweep, decrementing it for the unreachable dict
    that embeds it, releases it: its slot is cleared and it no longer
    resolves. *)
Lemma collect_reclaims_undercounted :
  exists s s',
    s = store 1000 (Value VAL_SCALAR 1 24 RawData) demo /\
    reach s [1] 0 /\
    collect_garbage [1] s = Ok s' /\
    slot s' 0 = Ok NULL /\ deref 0 s' = Fault.
Proof.
  eexists _, _. split; [reflexivity|]. split.
  { apply (reach_child _ _ 1); [apply reach_root; left|]. vm_compute. left. }
  split; [vm_compute; reflexivity|]. split; reflexivity.
Qed.

(** C1, amended: let [R] be the handles reachable from the roots through
    composite payloads.  The copying relocates every one of them, value
    unchanged, whatever its count.  When the count of each exceeds the
    number of references to it embedded in values outside [R], the
    collection preserves each: the handle resolves afterwards, [get_ref]
    maps its value to the same handle, the value keeps its kind, size and
    payload and stays handed out by the allocator, its count reduced by those
    references. *)
Theorem collect_preserves_reachable s roots R :
  steady s ->
  (forall h, h ∈ R <-> reach s roots h) ->
  (forall h, h ∈ R -> live s h) ->
  exists s2 s',
    foreach_global copy_contents roots (mm_init (pool_size s) (to_space s) s) = Ok s2 /\
    (forall h, reach s roots h -> pooled s2 h /\ value_at s2 h = value_at s h) /\
    collect_garbage roots s = Ok s' /\
    ((forall h v, h ∈ R -> value_at s h = Some v ->
        garbage_refs s R h < ref_count v) ->
     forall h, reach s roots h ->
       exists a v v', value_at s h = Some v /\
         deref h s' = Ok a /\ get_ref a s' = Ok h /\
         heap s' !! a = Some v' /\ (a, value_size v') ∈ blocks s' /\
         type v' = type v /\ data v' = data v /\ value_size v' = value_size v /\
         ref_count v' = ref_count v - garbage_refs s R h).
Proof.
  intros Hst HR HRlive.
  destruct (collect_ok s roots Hst)
    as (s2 & s' & Hcopy & Hsweep & Hrun & Hci & Hreach & Hok' & Hrel & Hall).
  { intros h Hh. apply HRlive. by apply HR. }
  pose proof (steady_copy_start s Hst) as Hcs.
  pose proof (ci_pool _ _ Hci) as Hok2.
  assert (Hval : forall h q, slot s2 h = Ok q -> is_pool_address s2 q = true ->
    exists p v, slot s h = Ok p /\ p ≠ NULL /\ heap s !! p = Some v /\
      heap s2 !! q = Some v /\ value_at s h = Some v /\ h ∈ R).
  { intros h q Hq Hqp. pose proof Hq as Hq'. apply slot_Ok in Hq' as [Hr _].
    rewrite (num_refs_frame _ _ (ci_frame _ _ Hci)) in Hr.
    destruct (slot_in_range s h Hr) as [p Hs].
    destruct (copied_or_left s s2 h p Hst Hci Hs)
      as [(Hnp & _)|(H0 & q' & v & Hs2 & Hq2 & Hv & Hv2)].
    - destruct Hnp. by exists q.
    - assert (q' = q) as -> by congruence. exists p, v. repeat split; try done.
      + by apply (value_at_start s h p v).
      + apply HR, Hreach. by exists q. }
  exists s2, s'. split; [done|]. split.
  { intros h Hh. apply Hreach in Hh as Hp. split; [done|]. destruct Hp as (q & Hq & Hqp).
    destruct (Hval h q Hq Hqp) as (p & v & _ & _ & _ & Hv2 & -> & _).
    apply (value_at_start s2 h q v); [done | | done].
    intros ->. rewrite (pool_null _ Hok2) in Hqp. done. }
  split; [done|]. intros Hcount.
  destruct (sweep_keeps (length (ref_table (swap_spaces s2))) 0 (swap_spaces s2))
    as (s'' & Hsw & Hb & Hf & Hkept).
  - apply (pool_null _ Hok2).
  - apply (pool_nodup _ Hok2).
  - lia.
  - unfold num_refs. lia.
  - intros j p _ Hp Hpp H0.
    destruct (pending_value _ s2 p Hcs Hci (slot_elem _ _ _ Hp) Hpp H0)
      as (v & Hv & _ & _ & cs & Hc & Hr).
    exists v. split; [done|]. exists cs. split; [done|].
    intros c Hcin. change (num_refs (swap_spaces s2)) with (num_refs s2).
    rewrite (num_refs_frame _ s2 (ci_frame _ _ Hci)). by apply Hr.
  - intros h q Hq Hqp. destruct (Hval h q Hq Hqp) as (p & v & Hs & H0 & Hv & Hv2 & Hva & HhR).
    exists v. split; [done|].
    rewrite (garbage_refs_after_copy s s2 roots R h Hst Hci Hreach HR).
    split; [by apply Hcount|].
    destruct (st_values _ Hst p v (slot_elem _ _ _ Hs) H0 Hv). lia.
  - change (ref_table (swap_spaces s2)) with (ref_table s2) in Hsw.
    assert (s'' = s') as -> by congruence.
    intros h Hh. apply Hreach in Hh as (q & Hq & Hqp).
    destruct (Hval h q Hq Hqp) as (p & v & Hs & H0 & Hv & Hv2 & Hva & HhR).
    destruct (Hkept h q Hq Hqp) as (Hs' & w & Hw & Hw').
    change (heap (swap_spaces s2) !! q) with (heap s2 !! q) in Hw.
    assert (w = v) as -> by congruence.
    rewrite (garbage_refs_after_copy s s2 roots R h Hst Hci Hreach HR) in Hw'.
    assert (Hd : deref h s' = Ok q).
    { apply deref_slot; [done|]. by rewrite (same_frame_pool _ _ _ Hf). }
    eexists q, v, _. split; [done|]. split; [done|].
    split; [by apply get_ref_deref; [apply (pool_nodup _ Hok')|]|].
    split; [exact Hw'|]. split; [|done]. rewrite Hb. simpl.
    destruct (pool_values _ Hok2 q (slot_elem _ _ _ Hq) Hqp) as (v0 & Hv0 & _ & Hbl).
    by assert (v0 = v) as -> by congruence.
Qed.

(** * The theorems at the concrete pool *)

Lemma make_ref_binds_witness :
  let s := set_slot 2 NULL demo in
  0 <= 16 <= align_size 24 /\
  mm_malloc (align_size 24) s =
    Some (1120, with_blocks (insert_block (1120, 24) (blocks s))
                  (store 1120 (Value VAL_FREE 0 24 RawData) s)) /\
  slot s 2 = Ok NULL /\
  exists h s',
    make_ref 8 16 VAL_SCALAR 24 s = Ok (h, s') /\
    heap s' !! 1120 = Some (Value VAL_SCALAR 1 (align_size 24) RawData) /\
    slot s' h = Ok 1120 /\
    (forall i, slot s i = Ok NULL ->
       h <= i /\ slot s h = Ok NULL /\
       ref_table s' = <[Z.to_nat h := 1120]> (ref_table s) /\
       max_refs s' = max_refs s) /\
    ((forall i, slot s i ≠ Ok NULL) ->
       h = num_refs s /\ ref_table s' = ref_table s ++ [1120] /\
       max_refs s' =
         if num_refs s =? max_refs s
         then (if max_refs s =? 0 then 8 else max_refs s * 2)
         else max_refs s).
Proof.
  split; [vm_compute; split; discriminate|]. split; [reflexivity|]. split; [reflexivity|].
  eapply (make_ref_binds 8 16 VAL_SCALAR 24 (set_slot 2 NULL demo) 1120);
    [vm_compute; split; discriminate | reflexivity].
Defined.

Lemma decref_outside_pool_noop_witness :
  slot (set_slot 2 NULL demo) 2 = Ok NULL /\
  is_pool_address (set_slot 2 NULL demo) NULL = false /\
  decref 2 (set_slot 2 NULL demo) = Ok (set_slot 2 NULL demo).
Proof.
  split; [reflexivity|]. split; [reflexivity|].
  apply (decref_outside_pool_noop 2 (set_slot 2 NULL demo) NULL); reflexivity.
Defined.

Lemma decref_release_order_witness :
  is_pool_address demo NULL = false /\
  slot demo 2 = Ok 1064 /\ is_pool_address demo 1064 = true /\
  heap demo !! 1064 = Some (Value VAL_LIST 1 24 (ListData 2)) /\
  wrap_count (ref_count (Value VAL_LIST 1 24 (ListData 2)) - 1) = 0 /\
  let s1 := set_slot 2 NULL
              (store 1064 (set_ref_count 0 (Value VAL_LIST 1 24 (ListData 2))) demo) in
  decref 2 demo = (s2 ← traverse_decref 1064 s1; mm_free 1064 s2) /\
  slot s1 2 = Ok NULL /\ blocks s1 = blocks demo /\
  (forall cs, children (Value VAL_LIST 1 24 (ListData 2)) = Some cs ->
     traverse_decref 1064 s1 = foreach_global decref cs s1) /\
  (forall s', slot s' 2 = Ok NULL -> is_pool_address s' NULL = false ->
     decref 2 s' = Ok s').
Proof.
  split; [reflexivity|]. split; [reflexivity|]. split; [reflexivity|].
  split; [reflexivity|]. split; [reflexivity|].
  apply (decref_release_order 2 demo 1064 (Value VAL_LIST 1 24 (ListData 2)));
    reflexivity.
Defined.


(** Releasing the array of the concrete pool, computed: one value and its
    40 bytes. *)
Example release_demo_array :
  exists s', decref 1 demo = Ok s' /\
    ref_table s' = [1000; 0; 1064; 1088] /\
    refs_used demo = 4 /\ refs_used s' = 3 /\
    mem_used demo = 120 /\ mem_used s' = 80 /\
    heap s' !! 1000 = Some (Value VAL_SCALAR 1 24 RawData).
Proof. eexists. split; [vm_compute; reflexivity|]. repeat split. Qed.

Lemma demo_self_cycle_unreached : ¬ reach demo [1] 2.
Proof.
  intros H. apply demo_reach in H.
  repeat (apply elem_of_cons in H as [H|H]); try discriminate. by apply elem_of_nil in H.
Qed.

Lemma demo_held_steady : steady demo_held.
Proof.
  apply (steady_store demo 1064 (Value VAL_LIST 1 24 (ListData 2)) 2);
    [apply demo_steady | reflexivity | lia].
Qed.

Lemma demo_held_reach h : reach demo_held [1] h <-> reach demo [1] h.
Proof. apply (reach_store demo 1064 (Value VAL_LIST 1 24 (ListData 2)) 2). reflexivity. Qed.

Lemma self_cycle_needs_collection_witness :
  steady demo_held /\ slot demo_held 2 = Ok 1064 /\
  heap demo_held !! 1064 = Some (Value VAL_LIST 2 24 (ListData 2)) /\
  ¬ reach demo_held [1] 2 /\
  embedded_refs demo_held 2 = 1 /\
  exists s1 s',
    decref_times 1 2 demo_held = Ok s1 /\ deref 2 s1 = Ok 1064 /\
    (exists v1, heap s1 !! 1064 = Some v1 /\
       ref_count v1 = ref_count (Value VAL_LIST 2 24 (ListData 2)) - Z.of_nat 1 /\
       type v1 = VAL_LIST /\ data v1 = ListData 2 /\
       kids s1 2 = [2] /\ embedded_refs s1 2 = embedded_refs demo_held 2 /\
       1 <= embedded_refs s1 2 <= ref_count v1) /\
    collect_garbage [1] s1 = Ok s' /\
    slot s' 2 = Ok NULL /\ deref 2 s' = Fault.
Proof.
  assert (Hun : ¬ reach demo_held [1] 2).
  { intros H. by apply demo_held_reach, demo_self_cycle_unreached in H. }
  split; [apply demo_held_steady|]. split; [reflexivity|]. split; [reflexivity|].
  split; [exact Hun|]. split; [reflexivity|].
  apply (self_cycle_needs_collection demo_held [1] 2 1064
           (Value VAL_LIST 2 24 (ListData 2)) 1).
  - apply demo_held_steady.
  - intros x Hx. apply demo_held_reach, demo_live in Hx.
    destruct Hx as (p & Hs & Hp). by exists p.
  - reflexivity.
  - discriminate.
  - reflexivity.
  - reflexivity.
  - reflexivity.
  - exact Hun.
  - vm_compute. discriminate.
Defined.

Lemma handle_stability_witness :
  steady demo /\
  (forall h a, deref h demo = Ok a -> get_ref a demo = Ok h) /\
  exists s', collect_garbage [1] demo = Ok s' /\ steady s' /\
    forall h a', deref h s' = Ok a' ->
      get_ref a' s' = Ok h /\
      exists a v v', deref h demo = Ok a /\ heap demo !! a = Some v /\
        heap s' !! a' = Some v' /\ type v' = type v /\ data v' = data v /\
        value_size v' = value_size v.
Proof.
  split; [apply demo_steady|].
  apply (handle_stability demo [1]); [apply demo_steady | apply demo_live].
Defined.

Lemma collect_mem_used_witness :
  steady demo /\
  exists s', collect_garbage [1] demo = Ok s' /\
    mem_used s' + reclaimed_bytes demo s' <= mem_used demo /\
    0 <= reclaimed_bytes demo s'.
Proof.
  split; [apply demo_steady|].
  apply (collect_mem_used demo [1]); [apply demo_steady | apply demo_live].
Defined.


Lemma demo_reached_live h : h ∈ [1; 0] -> live demo h.
Proof. intros Hh. apply demo_live. by apply demo_reach. Qed.

Lemma demo_reached h : h ∈ [1; 0] <-> reach demo [1] h.
Proof. symmetry. apply demo_reach. Qed.


(** The sweep of the concrete pool with the count of the scalar stored as
    1, computed: the decrement for the unreachable dict takes the relocated
    scalar to zero, and its storage in the new region is the one block the
    allocator takes back; the values left behind in the old region are as
    they were. *)
Example sweep_releases_relocated :
  exists s',
    collect_garbage [1] (store 1000 (Value VAL_SCALAR 1 24 RawData) demo) = Ok s' /\
    ref_table s' = [0; 2024; 0; 0] /\
    blocks s' = [(2024, 40)] /\
    heap s' !! 2064 = Some (Value VAL_FREE 0 24 RawData) /\
    heap s' !! 1088 = Some (Value VAL_DICT 1 32 (DictData 0 3)) /\
    heap s' !! 1064 = Some (Value VAL_LIST 1 24 (ListData 2)).
Proof. eexists. split; [vm_compute; reflexivity|]. repeat split. Qed.

Lemma collect_preserves_reachable_witness :
  steady demo /\
  (forall h, h ∈ [1; 0] <-> reach demo [1] h) /\
  (forall h, h ∈ [1; 0] -> live demo h) /\
  exists s2 s',
    foreach_global copy_contents [1]
      (mm_init (pool_size demo) (to_space demo) demo) = Ok s2 /\
    (forall h, reach demo [1] h -> pooled s2 h /\ value_at s2 h = value_at demo h) /\
    collect_garbage [1] demo = Ok s' /\
    ((forall h v, h ∈ [1; 0] -> value_at demo h = Some v ->
        garbage_refs demo [1; 0] h < ref_count v) ->
     forall h, reach demo [1] h ->
       exists a v v', value_at demo h = Some v /\
         deref h s' = Ok a /\ get_ref a s' = Ok h /\
         heap s' !! a = Some v' /\ (a, value_size v') ∈ blocks s' /\
         type v' = type v /\ data v' = data v /\ value_size v' = value_size v /\
         ref_count v' = ref_count v - garbage_refs demo [1; 0] h).
Proof.
  split; [apply demo_steady|]. split; [apply demo_reached|].
  split; [apply demo_reached_live|].
  apply (collect_preserves_reachable demo [1] [1; 0]).
  - apply demo_steady.
  - apply demo_reached.
  - apply demo_reached_live.
Defined.

(** The collection of the concrete pool, computed: handles 0 and 1 move to
    the other half, the count of handle 0 drops by the reference the dict
    held, and the two cycles are swept. *)
Example collect_demo :
  exists s', collect_garbage [1] demo = Ok s' /\
    ref_table s' = [2064; 2024; 0; 0] /\
    blocks s' = [(2024, 40); (2064, 24)] /\
    heap s' !! 2064 = Some (Value VAL_SCALAR 1 24 RawData) /\
    mem_used demo = 120 /\ mem_used s' = 64 /\ reclaimed_bytes demo s' = 56.
Proof. eexists. split; [vm_compute; reflexivity|]. repeat split. Qed.

(** The scenario of the specification: three scalars, the second released
    by [decref]: two values are left and the next [make_ref] reuses handle 1. *)
Example create_three_release_one :
  exists s1 s2 s3 s4 s5,
    make_ref 8 16 VAL_SCALAR 24 (init_refs 4096 1000) = Ok (0, s1) /\
    make_ref 8 16 VAL_SCALAR 24 s1 = Ok (1, s2) /\
    make_ref 8 16 VAL_SCALAR 24 s2 = Ok (2, s3) /\
    decref 1 s3 = Ok s4 /\ refs_used s4 = 2 /\
    make_ref 8 16 VAL_SCALAR 24 s4 = Ok (1, s5).
Proof.
  eexists _, _, _, _, _. split; [vm_compute; reflexivity|].
  split; [vm_compute; reflexivity|]. split; [vm_compute; reflexivity|].
  split; [vm_compute; reflexivity|]. split; vm_compute; reflexivity.
Qed.

(** * Further properties of the reference table *)

(** X1: [init_refs] splits the memory it is given into two halves of
    [pool_size] bytes, a multiple of [ALIGNMENT] that falls short of half the
    memory by less than [ALIGNMENT]; the second half starts where the first
    ends and both lie inside the memory given.  The table starts without
    slots and without capacity, so no handle resolves. *)
Theorem init_refs_layout memory_size memory_pool :
  0 <= memory_size ->
  let s := init_refs memory_size memory_pool in
  pool_size s mod ALIGNMENT = 0 /\
  memory_size / 2 - ALIGNMENT < pool_size s <= memory_size / 2 /\
  from_space s = memory_pool /\
  to_space s = from_space s + pool_size s /\
  to_space s + pool_size s <= memory_pool + memory_size /\
  num_refs s = 0 /\ max_refs s = 0 /\ refs_used s = 0 /\
  forall h, deref h s = Fault.
Proof.
  intros Hm. simpl. unfold ALIGNMENT.
  pose proof (Z.div_mod (memory_size / 2) 8 ltac:(lia)) as Hd.
  pose proof (Z.mod_pos_bound (memory_size / 2) 8 ltac:(lia)) as Hb.
  pose proof (Z.div_mod memory_size 2 ltac:(lia)) as Hd2.
  pose proof (Z.mod_pos_bound memory_size 2 ltac:(lia)) as Hb2.
  split; [apply Z.mod_mul; lia|].
  split; [lia|]. split; [done|]. split; [done|]. split; [lia|].
  split; [done|]. split; [done|]. split; [done|].
  intros h. unfold deref, num_refs. simpl.
  destruct (Z.leb_spec 0 h), (Z.ltb_spec h (Z.of_nat 0)); simpl; try done. lia.
Qed.

Lemma init_refs_layout_witness :
  0 <= 4101 /\
  let s := init_refs 4101 1000 in
  pool_size s mod ALIGNMENT = 0 /\
  4101 / 2 - ALIGNMENT < pool_size s <= 4101 / 2 /\
  from_space s = 1000 /\
  to_space s = from_space s + pool_size s /\
  to_space s + pool_size s <= 1000 + 4101 /\
  num_refs s = 0 /\ max_refs s = 0 /\ refs_used s = 0 /\
  forall h, deref h s = Fault.
Proof. split; [lia|]. apply (init_refs_layout 4101 1000). lia. Defined.

(** ** The scan of the table *)

Lemma get_ref_Ok a s h :
  get_ref a s = Ok h <->
  slot s h = Ok a /\ forall j, 0 <= j < h -> slot s j ≠ Ok a.
Proof.
  unfold get_ref. destruct (find_slot a (ref_table s) 0) as [i|] eqn:E.
  - pose proof (find_slot_lt _ _ _ _ E) as Hlt.
    apply find_slot_Some in E as (Hle & Hl & Hmin).
    rewrite Z.sub_0_r in Hl, Hmin.
    assert (Hi : slot s i = Ok a) by (apply slot_Ok; unfold num_refs; split; [lia|done]).
    split.
    + intros [= <-]. split; [done|].
      intros j Hj Hs. apply slot_Ok in Hs as [_ Hs]. apply (Hmin (Z.to_nat j)); [lia|done].
    + intros [Hh Hlow]. f_equal.
      destruct (Z.lt_trichotomy i h) as [Hlt'|[->|Hgt]]; [|done|].
      * exfalso. apply (Hlow i); [lia|done].
      * exfalso. pose proof Hh as Hh'. apply slot_Ok in Hh' as [Hr Hh'].
        apply (Hmin (Z.to_nat h)); [lia|done].
  - split; [done|]. intros [Hh _]. apply find_slot_None in E.
    exfalso. apply E. by eapply slot_elem.
Qed.

Lemma get_ref_Fault a s : get_ref a s = Fault <-> a ∉ ref_table s.
Proof.
  unfold get_ref. destruct (find_slot a (ref_table s) 0) as [i|] eqn:E.
  - split; [done|]. intros Hn. apply find_slot_Some in E as (_ & Hl & _).
    exfalso. apply Hn. by eapply list_elem_of_lookup_2.
  - apply find_slot_None in E. done.
Qed.

Lemma get_ref_found a s : a ∈ ref_table s -> exists h, get_ref a s = Ok h.
Proof.
  intros Ha. unfold get_ref. destruct (find_slot a (ref_table s) 0) as [i|] eqn:E; [eauto|].
  apply find_slot_None in E. done.
Qed.

(** X2: [get_ref] returns the lowest index whose slot holds the value,
    and fails its assertion exactly when no slot holds it. *)
Theorem get_ref_lowest a s :
  (forall h, get_ref a s = Ok h <->
     slot s h = Ok a /\ forall j, 0 <= j < h -> slot s j ≠ Ok a) /\
  (get_ref a s = Fault <-> a ∉ ref_table s).
Proof. split; [intros h; apply get_ref_Ok | apply get_ref_Fault]. Qed.

(** X3: the handle [get_ref] returns for a value of the pool resolves to
    that value, [deref (get_ref a) = a], whatever else the table holds;
    and every value that some handle resolves to has such a handle. *)
Theorem deref_get_ref a s :
  (forall h, get_ref a s = Ok h -> is_pool_address s a = true -> deref h s = Ok a) /\
  (forall h, deref h s = Ok a -> exists h', get_ref a s = Ok h' /\ h' <= h /\ deref h' s = Ok a).
Proof.
  split.
  - intros h Hg Hp. apply get_ref_Ok in Hg as [Hs _]. by apply deref_slot.
  - intros h Hd. apply deref_Ok in Hd as [Hs Hp].
    destruct (get_ref_found a s (slot_elem _ _ _ Hs)) as [h' Hg].
    exists h'. split; [done|]. apply get_ref_Ok in Hg as [Hs' Hlow]. split.
    + destruct (Z.le_gt_cases h' h) as [|Hgt]; [done|]. exfalso.
      apply (Hlow h); [|done]. apply slot_Ok in Hs as [? _]. lia.
    + by apply deref_slot.
Qed.

(** X4: when two slots hold the same value, [get_ref] of what the higher
    handle resolves to is not that handle: the round trip
    [get_ref (deref j) = j] needs the slots of the table to hold different
    values. *)
Theorem get_ref_aliased s i j a :
  slot s i = Ok a -> slot s j = Ok a -> i < j -> is_pool_address s a = true ->
  deref j s = Ok a /\ exists h, get_ref a s = Ok h /\ h <= i /\ h ≠ j.
Proof.
  intros Hi Hj Hlt Hp. split; [by apply deref_slot|].
  destruct (get_ref_found a s (slot_elem _ _ _ Hi)) as [h Hg].
  exists h. split; [done|]. apply get_ref_Ok in Hg as [_ Hlow].
  assert (h <= i); [|lia].
  destruct (Z.le_gt_cases h i) as [|Hgt]; [done|]. exfalso.
  apply (Hlow i); [|done]. apply slot_Ok in Hi as [? _]. lia.
Qed.

Lemma get_ref_aliased_witness :
  slot (set_slot 3 1000 demo) 0 = Ok 1000 /\
  slot (set_slot 3 1000 demo) 3 = Ok 1000 /\ 0 < 3 /\
  is_pool_address (set_slot 3 1000 demo) 1000 = true /\
  deref 3 (set_slot 3 1000 demo) = Ok 1000 /\
  exists h, get_ref 1000 (set_slot 3 1000 demo) = Ok h /\ h <= 0 /\ h ≠ 3.
Proof.
  split; [reflexivity|]. split; [reflexivity|]. split; [lia|]. split; [reflexivity|].
  apply (get_ref_aliased (set_slot 3 1000 demo) 0 3 1000); [reflexivity | reflexivity | lia | reflexivity].
Defined.

(** ** Counting the slots in use *)

Lemma refs_used_range t :
  0 <= sumZ (fun p => if p =? NULL then 0 else 1) t <= Z.of_nat (length t).
Proof.
  induction t as [|p t IH]; simpl; [lia|]. unfold sumZ in *. simpl.
  destruct (p =? NULL); lia.
Qed.

Lemma refs_used_full t :
  sumZ (fun p => if p =? NULL then 0 else 1) t = Z.of_nat (length t) <-> NULL ∉ t.
Proof.
  induction t as [|p t IH]; simpl.
  - split; [intros _; apply not_elem_of_nil | done].
  - pose proof (refs_used_range t) as Hr. unfold sumZ in *. simpl.
    rewrite not_elem_of_cons. destruct (Z.eqb_spec p NULL) as [->|Hne].
    + split; [lia | intros [? _]; done].
    + split.
      * intros H. split; [congruence|]. apply IH. lia.
      * intros [_ H]. apply IH in H. lia.
Qed.

Lemma refs_used_none t :
  sumZ (fun p => if p =? NULL then 0 else 1) t = 0 <-> forall p, p ∈ t -> p = NULL.
Proof.
  induction t as [|p t IH]; simpl.
  - split; [intros _ p Hp; by apply elem_of_nil in Hp | done].
  - pose proof (refs_used_range t) as Hr. unfold sumZ in *. simpl.
    destruct (Z.eqb_spec p NULL) as [->|Hne].
    + rewrite Z.add_0_l, IH. split.
      * intros H q Hq. apply elem_of_cons in Hq as [->|Hq]; [done | by apply H].
      * intros H q Hq. apply H. by right.
    + split; [lia|]. intros H. exfalso. apply Hne, H. left.
Qed.

Lemma refs_used_all s : refs_used s = num_refs s <-> NULL ∉ ref_table s.
Proof. rewrite refs_used_sum. apply refs_used_full. Qed.

Lemma refs_used_le s : 0 <= refs_used s <= num_refs s.
Proof. rewrite refs_used_sum. apply refs_used_range. Qed.

(** X5: [refs_used] lies between 0 and the number of slots; it is the
    number of slots exactly when no slot is unused (then [get_ref] finds no
    unused slot either), and 0 exactly when every slot is unused. *)
Theorem refs_used_bounds s :
  0 <= refs_used s <= num_refs s /\
  (refs_used s = num_refs s <-> forall i, slot s i ≠ Ok NULL) /\
  (refs_used s = num_refs s <-> get_ref NULL s = Fault) /\
  (refs_used s = 0 <-> forall i p, slot s i = Ok p -> p = NULL).
Proof.
  rewrite refs_used_sum. unfold num_refs.
  split; [apply refs_used_range|]. split; [|split].
  - rewrite refs_used_full. split.
    + intros Hn i Hs. apply Hn. by eapply slot_elem.
    + intros H Hin. apply list_elem_of_lookup in Hin as [k Hk].
      apply (H (Z.of_nat k)). apply slot_Ok. rewrite Nat2Z.id. split; [|done].
      apply lookup_lt_Some in Hk. unfold num_refs. lia.
  - rewrite refs_used_full. symmetry. apply get_ref_Fault.
  - rewrite refs_used_none. split.
    + intros H i p Hs. apply H. by eapply slot_elem.
    + intros H p Hin. apply list_elem_of_lookup in Hin as [k Hk].
      apply (H (Z.of_nat k)). apply slot_Ok. rewrite Nat2Z.id. split; [|done].
      apply lookup_lt_Some in Hk. unfold num_refs. lia.
Qed.

(** ** Creating values *)

(** X6: [make_ref] rounds the size it is given up to the next multiple of
    [ALIGNMENT]; rounding a rounded size changes nothing.  The rounding is
    done in [size_t]: a size within [ALIGNMENT - 1] of its top wraps to 0. *)
Theorem align_size_rounds size :
  0 <= size < 2 ^ 64 ->
  (size <= 2 ^ 64 - ALIGNMENT ->
     align_size size mod ALIGNMENT = 0 /\
     size <= align_size size < size + ALIGNMENT /\
     align_size (align_size size) = align_size size) /\
  (2 ^ 64 - ALIGNMENT < size -> align_size size = 0).
Proof.
  intros Hs. unfold align_size, ALIGNMENT. split.
  - intros Hle. rewrite (Z.mod_small (size + 8 - 1)) by lia.
    pose proof (Z.div_mod (size + 8 - 1) 8 ltac:(lia)) as Hd.
    pose proof (Z.mod_pos_bound (size + 8 - 1) 8 ltac:(lia)) as Hb.
    split; [apply Z.mod_mul; lia|]. split; [lia|].
    rewrite (Z.mod_small ((size + 8 - 1) / 8 * 8 + 8 - 1)) by lia.
    replace ((size + 8 - 1) / 8 * 8 + 8 - 1) with (7 + (size + 8 - 1) / 8 * 8) by lia.
    rewrite Z.div_add by lia. rewrite (Z.div_small 7 8) by lia. lia.
  - intros Hgt.
    replace (size + 8 - 1) with (size + 7 - 2 ^ 64 + 1 * 2 ^ 64) by lia.
    rewrite Z.mod_add by lia. rewrite (Z.mod_small (size + 7 - 2 ^ 64)) by lia.
    rewrite Z.div_small by lia. done.
Qed.

Lemma align_size_rounds_witness :
  0 <= 13 < 2 ^ 64 /\
  (13 <= 2 ^ 64 - ALIGNMENT ->
     align_size 13 mod ALIGNMENT = 0 /\
     13 <= align_size 13 < 13 + ALIGNMENT /\
     align_size (align_size 13) = align_size 13) /\
  (2 ^ 64 - ALIGNMENT < 13 -> align_size 13 = 0).
Proof. split; [lia|]. apply (align_size_rounds 13). lia. Defined.

(** What a successful [make_ref] leaves behind. *)
Lemma make_ref_Ok (INITIAL_SIZE SIZEOF_VALUE_T : Z) ty size s p s1 :
  0 <= SIZEOF_VALUE_T <= align_size size ->
  mm_malloc (align_size size) s = Some (p, s1) ->
  exists h s', make_ref INITIAL_SIZE SIZEOF_VALUE_T ty size s = Ok (h, s') /\
    heap s' = <[p := Value ty 1 (align_size size) RawData]> (heap s) /\
    blocks s' = insert_block (p, align_size size) (blocks s) /\
    arena_base s' = arena_base s /\ arena_size s' = arena_size s /\
    from_space s' = from_space s /\ to_space s' = to_space s /\
    pool_size s' = pool_size s /\
    ((find_slot NULL (ref_table s) 0 = Some h /\
      ref_table s' = <[Z.to_nat h := p]> (ref_table s) /\ max_refs s' = max_refs s) \/
     (find_slot NULL (ref_table s) 0 = None /\ h = num_refs s /\
      ref_table s' = ref_table s ++ [p] /\
      max_refs s' = if num_refs s =? max_refs s
                    then (if max_refs s =? 0 then INITIAL_SIZE else max_refs s * 2)
                    else max_refs s)).
Proof.
  intros Hsz Hm. rewrite (make_ref_success INITIAL_SIZE SIZEOF_VALUE_T ty size s p s1 Hsz Hm).
  apply mm_malloc_Some in Hm as (Ht & Hmx & Hh & Hb & Hab & Has & Hfs & Hts & Hps).
  set (s2 := store p _ s1).
  assert (Ht2 : ref_table s2 = ref_table s) by done.
  assert (Hn2 : num_refs s2 = num_refs s) by (unfold num_refs; by rewrite Ht2).
  assert (Hh2 : heap s2 = <[p := Value ty 1 (align_size size) RawData]> (heap s)).
  { unfold s2. simpl. rewrite Hh. apply insert_insert_eq. }
  destruct (find_slot NULL (ref_table s) 0) as [j|] eqn:E.
  - rewrite (assign_reference_reuse INITIAL_SIZE p s2 j) by (by rewrite Ht2).
    eexists _, _. split; [done|]. simpl. rewrite Ht.
    repeat (split; [done|]). left. done.
  - rewrite (assign_reference_append INITIAL_SIZE p s2) by (by rewrite Ht2).
    eexists _, _. split; [done|]. simpl. rewrite Ht, Hn2, Hmx.
    repeat (split; [done|]). right. done.
Qed.

(** X7: a successful [make_ref] (storage no smaller than the header of a
    value) puts exactly one more slot in use.  The table grows, by one
    slot, only when every slot was in use; otherwise the handle returned is
    one of the slots there were. *)
Theorem make_ref_counts (INITIAL_SIZE SIZEOF_VALUE_T : Z) ty size s p s1 :
  0 <= SIZEOF_VALUE_T <= align_size size ->
  mm_malloc (align_size size) s = Some (p, s1) -> p ≠ NULL ->
  exists h s', make_ref INITIAL_SIZE SIZEOF_VALUE_T ty size s = Ok (h, s') /\
    refs_used s' = refs_used s + 1 /\
    (refs_used s < num_refs s -> num_refs s' = num_refs s /\ 0 <= h < num_refs s) /\
    (refs_used s = num_refs s -> num_refs s' = num_refs s + 1 /\ h = num_refs s).
Proof.
  intros Hsz Hm Hp.
  destruct (make_ref_Ok INITIAL_SIZE SIZEOF_VALUE_T ty size s p s1 Hsz Hm)
    as (h & s' & Hr & _ & _ & _ & _ & _ & _ & _ & Hcase).
  exists h, s'. split; [done|].
  pose proof (refs_used_all s) as Hfull. pose proof (refs_used_le s) as Hle0.
  destruct Hcase as [(Hf & Ht & _)|(Hf & -> & Ht & _)].
  - pose proof (find_slot_lt _ _ _ _ Hf) as Hlt.
    apply find_slot_Some in Hf as (Hle & Hl & _). rewrite Z.sub_0_r in Hl.
    assert (Hlen : num_refs s' = num_refs s).
    { unfold num_refs. by rewrite Ht, length_insert. }
    split; [|split].
    + rewrite !refs_used_sum, Ht, (sumZ_insert _ _ _ NULL p Hl). simpl.
      destruct (Z.eqb_spec p NULL); [done|]. lia.
    + intros _. split; [done|]. unfold num_refs. lia.
    + intros Hall. exfalso. apply Hfull in Hall. apply Hall.
      by eapply list_elem_of_lookup_2.
  - assert (Hlen : num_refs s' = num_refs s + 1).
    { unfold num_refs. rewrite Ht, length_app. simpl. lia. }
    split; [|split].
    + rewrite !refs_used_sum, Ht, sumZ_app. unfold sumZ at 2. simpl.
      destruct (Z.eqb_spec p NULL); [done|]. lia.
    + intros Hlt. exfalso. apply find_slot_None in Hf. apply Hfull in Hf. lia.
    + intros _. done.
Qed.

Lemma make_ref_counts_witness :
  0 <= 16 <= align_size 24 /\
  mm_malloc (align_size 24) demo =
    Some (1120, with_blocks (insert_block (1120, 24) (blocks demo))
                  (store 1120 (Value VAL_FREE 0 24 RawData) demo)) /\
  1120 ≠ NULL /\
  exists h s', make_ref 8 16 VAL_SCALAR 24 demo = Ok (h, s') /\
    refs_used s' = refs_used demo + 1 /\
    (refs_used demo < num_refs demo -> num_refs s' = num_refs demo /\ 0 <= h < num_refs demo) /\
    (refs_used demo = num_refs demo -> num_refs s' = num_refs demo + 1 /\ h = num_refs demo).
Proof.
  split; [vm_compute; split; discriminate|]. split; [reflexivity|]. split; [done|].
  eapply (make_ref_counts 8 16 VAL_SCALAR 24 demo 1120);
    [vm_compute; split; discriminate | reflexivity | done].
Defined.

(** X8: a successful [make_ref] (storage of a positive size, no smaller
    than the header of a value) rebinds no handle in use and moves no
    value: every other slot holds what it held, the handle returned was not
    in use, every value but the new one is as it was, and every handle that
    resolved resolves to the same value. *)
Theorem make_ref_keeps_handles (INITIAL_SIZE SIZEOF_VALUE_T : Z) ty size s p s1 :
  0 < SIZEOF_VALUE_T <= align_size size ->
  mm_malloc (align_size size) s = Some (p, s1) ->
  exists h s', make_ref INITIAL_SIZE SIZEOF_VALUE_T ty size s = Ok (h, s') /\
    (forall i a, slot s i = Ok a -> i ≠ h -> slot s' i = Ok a) /\
    (forall i a, slot s i = Ok a -> a ≠ NULL -> i ≠ h) /\
    (forall a, a ≠ p -> heap s' !! a = heap s !! a) /\
    (forall i a, deref i s = Ok a -> a ≠ NULL -> deref i s' = Ok a).
Proof.
  intros Hsz Hm.
  destruct (make_ref_Ok INITIAL_SIZE SIZEOF_VALUE_T ty size s p s1 ltac:(lia) Hm)
    as (h & s' & Hr & Hh & _ & Hab & Has & _ & _ & _ & Hcase).
  exists h, s'. split; [done|].
  assert (Hkeep : forall i a, slot s i = Ok a -> i ≠ h -> slot s' i = Ok a).
  { intros i a Hs Hne. apply slot_Ok in Hs as [Hr' Hl]. apply slot_Ok.
    destruct Hcase as [(Hf & Ht & _)|(Hf & -> & Ht & _)].
    - pose proof (find_slot_lt _ _ _ _ Hf) as Hlt.
      apply find_slot_Some in Hf as (Hle & _ & _).
      unfold num_refs. rewrite Ht, length_insert. split; [done|].
      rewrite list_lookup_insert_ne; [done|]. lia.
    - unfold num_refs in *. rewrite Ht, length_app. simpl. split; [lia|].
      by apply lookup_app_l_Some. }
  assert (Hfresh : forall i a, slot s i = Ok a -> a ≠ NULL -> i ≠ h).
  { intros i a Hs Ha ->. apply slot_Ok in Hs as [Hr' Hl].
    destruct Hcase as [(Hf & _)|(_ & -> & _)]; [|lia].
    apply find_slot_Some in Hf as (_ & Hl' & _). rewrite Z.sub_0_r in Hl'. congruence. }
  split; [done|]. split; [done|]. split.
  - intros a Ha. rewrite Hh. by apply lookup_insert_ne.
  - intros i a Hd Ha. apply deref_Ok in Hd as [Hs Hp]. apply deref_slot.
    + apply Hkeep; [done|]. by apply (Hfresh i a).
    + by rewrite (is_pool_address_frame s s' a Hab Has).
Qed.

Lemma make_ref_keeps_handles_witness :
  0 < 16 <= align_size 24 /\
  mm_malloc (align_size 24) (set_slot 2 NULL demo) =
    Some (1120, with_blocks (insert_block (1120, 24) (blocks (set_slot 2 NULL demo)))
                  (store 1120 (Value VAL_FREE 0 24 RawData) (set_slot 2 NULL demo))) /\
  exists h s', make_ref 8 16 VAL_SCALAR 24 (set_slot 2 NULL demo) = Ok (h, s') /\
    (forall i a, slot (set_slot 2 NULL demo) i = Ok a -> i ≠ h -> slot s' i = Ok a) /\
    (forall i a, slot (set_slot 2 NULL demo) i = Ok a -> a ≠ NULL -> i ≠ h) /\
    (forall a, a ≠ 1120 -> heap s' !! a = heap (set_slot 2 NULL demo) !! a) /\
    (forall i a, deref i (set_slot 2 NULL demo) = Ok a -> a ≠ NULL -> deref i s' = Ok a).
Proof.
  split; [vm_compute; split; [reflexivity | discriminate]|]. split; [reflexivity|].
  eapply (make_ref_keeps_handles 8 16 VAL_SCALAR 24 (set_slot 2 NULL demo) 1120);
    [vm_compute; split; [reflexivity | discriminate] | reflexivity].
Defined.

(** X9: [make_ref] keeps the table within its capacity.  When the slots
    do not exceed the capacity before the call, [INITIAL_SIZE] is positive
    and the call succeeds (storage no smaller than the header of a value),
    the slot written lies below the capacity afterwards, the
    slots still do not exceed it, and the capacity has not shrunk. *)
Theorem make_ref_capacity (INITIAL_SIZE SIZEOF_VALUE_T : Z) ty size s p s1 :
  0 < INITIAL_SIZE -> num_refs s <= max_refs s ->
  0 <= SIZEOF_VALUE_T <= align_size size ->
  mm_malloc (align_size size) s = Some (p, s1) ->
  exists h s', make_ref INITIAL_SIZE SIZEOF_VALUE_T ty size s = Ok (h, s') /\
    0 <= h < max_refs s' /\ h < num_refs s' /\
    num_refs s' <= max_refs s' /\ max_refs s <= max_refs s'.
Proof.
  intros Hi Hcap Hsz Hm.
  destruct (make_ref_Ok INITIAL_SIZE SIZEOF_VALUE_T ty size s p s1 Hsz Hm)
    as (h & s' & Hr & _ & _ & _ & _ & _ & _ & _ & Hcase).
  exists h, s'. split; [done|].
  destruct Hcase as [(Hf & Ht & Hmx)|(Hf & -> & Ht & Hmx)].
  - pose proof (find_slot_lt _ _ _ _ Hf) as Hlt.
    apply find_slot_Some in Hf as (Hle & _ & _).
    assert (num_refs s' = num_refs s) by (unfold num_refs; by rewrite Ht, length_insert).
    unfold num_refs in *. lia.
  - assert (num_refs s' = num_refs s + 1).
    { unfold num_refs. rewrite Ht, length_app. simpl. lia. }
    assert (0 <= num_refs s) by (unfold num_refs; lia).
    rewrite Hmx. destruct (Z.eqb_spec (num_refs s) (max_refs s)) as [E|E].
    + destruct (Z.eqb_spec (max_refs s) 0); lia.
    + lia.
Qed.

Lemma make_ref_capacity_witness :
  0 < 8 /\ num_refs (init_refs 4096 1000) <= max_refs (init_refs 4096 1000) /\
  0 <= 16 <= align_size 24 /\
  mm_malloc (align_size 24) (init_refs 4096 1000) =
    Some (1000, with_blocks [(1000, 24)]
                  (store 1000 (Value VAL_FREE 0 24 RawData) (init_refs 4096 1000))) /\
  exists h s', make_ref 8 16 VAL_SCALAR 24 (init_refs 4096 1000) = Ok (h, s') /\
    0 <= h < max_refs s' /\ h < num_refs s' /\
    num_refs s' <= max_refs s' /\ max_refs (init_refs 4096 1000) <= max_refs s'.
Proof.
  split; [lia|]. split; [reflexivity|]. split; [vm_compute; split; discriminate|].
  split; [reflexivity|].
  eapply (make_ref_capacity 8 16 VAL_SCALAR 24 (init_refs 4096 1000) 1000);
    [lia | reflexivity | vm_compute; split; discriminate | reflexivity].
Defined.

(** * Further properties of reference counting *)

Lemma incref_Ok h s a v :
  deref h s = Ok a -> heap s !! a = Some v -> 0 <= ref_count v < 2 ^ 32 - 1 ->
  incref h s = Ok (store a (set_ref_count (ref_count v + 1) v) s).
Proof.
  intros Hd Hv Hc. unfold incref. rewrite Hd. simpl. unfold load. rewrite Hv. simpl.
  rewrite wrap_count_small by lia. done.
Qed.

(** X10: [incref] on a handle that resolves adds one to the count of its
    value and changes nothing else: the kind, size and payload of the value,
    every other value, the table and the allocator are as before, every
    handle resolves as before, and a consistent state stays consistent. *)
Theorem incref_effect h s a v :
  deref h s = Ok a -> heap s !! a = Some v -> 0 <= ref_count v < 2 ^ 32 - 1 ->
  exists s', incref h s = Ok s' /\
    heap s' !! a = Some (Value (type v) (ref_count v + 1) (value_size v) (data v)) /\
    (forall b, b ≠ a -> heap s' !! b = heap s !! b) /\
    ref_table s' = ref_table s /\ max_refs s' = max_refs s /\ blocks s' = blocks s /\
    refs_used s' = refs_used s /\ mem_used s' = mem_used s /\
    (forall i, deref i s' = deref i s) /\
    (steady s -> steady s').
Proof.
  intros Hd Hv Hc. eexists. split; [by apply (incref_Ok h s a v)|].
  split; [simpl; by rewrite lookup_insert_eq|].
  split; [intros b Hb; simpl; by rewrite lookup_insert_ne|].
  repeat (split; [done|]).
  intros Hst. apply steady_store; [done | done | lia].
Qed.

Lemma incref_effect_witness :
  deref 0 demo = Ok 1000 /\
  heap demo !! 1000 = Some (Value VAL_SCALAR 2 24 RawData) /\
  0 <= ref_count (Value VAL_SCALAR 2 24 RawData) < 2 ^ 32 - 1 /\
  exists s', incref 0 demo = Ok s' /\
    heap s' !! 1000 = Some (Value VAL_SCALAR (2 + 1) 24 RawData) /\
    (forall b, b ≠ 1000 -> heap s' !! b = heap demo !! b) /\
    ref_table s' = ref_table demo /\ max_refs s' = max_refs demo /\
    blocks s' = blocks demo /\
    refs_used s' = refs_used demo /\ mem_used s' = mem_used demo /\
    (forall i, deref i s' = deref i demo) /\
    (steady demo -> steady s').
Proof.
  split; [reflexivity|]. split; [reflexivity|]. split; [simpl; lia|].
  apply (incref_effect 0 demo 1000 (Value VAL_SCALAR 2 24 RawData));
    [reflexivity | reflexivity | simpl; lia].
Defined.

(** X11: [decref] undoes [incref]: on a handle whose value has a count of
    at least 1, an [incref] followed by a [decref] gives back the very state
    it started from; and so does a [decref] followed by an [incref] when the
    count is above 1. *)
Theorem incref_decref_roundtrip h s a v :
  is_pool_address s NULL = false ->
  deref h s = Ok a -> heap s !! a = Some v -> 1 <= ref_count v < 2 ^ 32 - 1 ->
  (incref h s ≫= decref h) = Ok s /\
  (1 < ref_count v -> (decref h s ≫= incref h) = Ok s).
Proof.
  intros Hn Hd Hv Hc. pose proof Hd as Hd'. apply deref_Ok in Hd' as [Hs Hp]. split.
  - rewrite (incref_Ok h s a v) by (done || lia). simpl.
    set (v1 := set_ref_count (ref_count v + 1) v).
    rewrite (decref_positive h (store a v1 s) a v1); [|done|done|done| |].
    + f_equal. rewrite store_twice. unfold v1. rewrite set_ref_count_twice. simpl.
      replace (ref_count v + 1 - 1) with (ref_count v) by lia.
      rewrite set_ref_count_id. by apply store_same.
    + simpl. by rewrite lookup_insert_eq.
    + simpl. lia.
  - intros Hgt. rewrite (decref_positive h s a v) by (done || lia). simpl.
    set (v1 := set_ref_count (ref_count v - 1) v).
    rewrite (incref_Ok h (store a v1 s) a v1); [| | |].
    + f_equal. rewrite store_twice. unfold v1. rewrite set_ref_count_twice. simpl.
      replace (ref_count v - 1 + 1) with (ref_count v) by lia.
      rewrite set_ref_count_id. by apply store_same.
    + done.
    + simpl. by rewrite lookup_insert_eq.
    + simpl. lia.
Qed.

Lemma incref_decref_roundtrip_witness :
  is_pool_address demo NULL = false /\
  deref 0 demo = Ok 1000 /\
  heap demo !! 1000 = Some (Value VAL_SCALAR 2 24 RawData) /\
  (incref 0 demo ≫= decref 0) = Ok demo /\
  (1 < ref_count (Value VAL_SCALAR 2 24 RawData) ->
   (decref 0 demo ≫= incref 0) = Ok demo).
Proof.
  split; [reflexivity|]. split; [reflexivity|]. split; [reflexivity|].
  apply (incref_decref_roundtrip 0 demo 1000 (Value VAL_SCALAR 2 24 RawData));
    [reflexivity | reflexivity | reflexivity | simpl; lia].
Defined.

(** X12: on a consistent state [decref] of any handle of the table
    returns, and the state stays consistent.  The table keeps its length and
    capacity and the two halves their places; neither [refs_used] nor
    [mem_used] grows; a handle that resolves afterwards resolved before, to
    the same address, and its value has kept its kind, size and payload. *)
Theorem decref_keeps_steady ref s :
  steady s -> 0 <= ref < num_refs s ->
  exists s', decref ref s = Ok s' /\ steady s' /\
    num_refs s' = num_refs s /\ max_refs s' = max_refs s /\
    from_space s' = from_space s /\ to_space s' = to_space s /\
    refs_used s' <= refs_used s /\ mem_used s' <= mem_used s /\
    forall h a, deref h s' = Ok a ->
      deref h s = Ok a /\
      exists v v', heap s !! a = Some v /\ heap s' !! a = Some v' /\
        type v' = type v /\ data v' = data v /\ value_size v' = value_size v.
Proof.
  intros Hst Hr.
  destruct (decref_steady ref s Hst Hr) as (s' & Hd & Hst' & Hrel).
  exists s'. split; [done|]. split; [done|].
  pose proof (dr_frame _ _ Hrel) as Hf.
  destruct (dr_spaces _ _ Hrel) as (Hfs & Hts & _ & Hmx).
  destruct (decref_rel_accounting s s' (st_pool _ Hst) (st_slots _ Hst) Hrel) as [Hru Hmu].
  split; [by apply num_refs_frame|]. split; [done|]. split; [done|]. split; [done|].
  split; [|split].
  - assert (0 <= released_count s s'); [|lia].
    apply reclaimed_nonneg. intros; lia.
  - assert (0 <= reclaimed_bytes s s'); [|lia].
    apply reclaimed_nonneg. intros p Hp Hne. by apply (steady_size_nonneg s p).
  - intros h a Hda. apply deref_Ok in Hda as [Hs' Hp'].
    assert (Hp : is_pool_address s a = true) by (by rewrite <- (same_frame_pool s s' a Hf)).
    pose proof Hs' as Hs1. apply slot_Ok in Hs1 as [Hr' Hl'].
    rewrite (num_refs_frame s s' Hf) in Hr'.
    destruct (slot_in_range s h Hr') as [p Hs].
    pose proof Hs as Hs2. apply slot_Ok in Hs2 as [_ Hl].
    assert (p = a) as ->.
    { destruct (dr_table _ _ Hrel _ _ Hl) as [E|E]; rewrite E in Hl'; [congruence|].
      injection Hl' as <-. rewrite (pool_null _ (st_pool _ Hst)) in Hp. done. }
    split; [by apply deref_slot|].
    destruct (pool_values _ (st_pool _ Hst) a (slot_elem _ _ _ Hs) Hp) as (v & Hv & _).
    destruct (dr_kept _ _ Hrel a v (slot_elem _ _ _ Hs') Hp Hv) as (v' & Hv' & Ht & Hdt & Hsz & _).
    by exists v, v'.
Qed.

Lemma decref_keeps_steady_witness :
  steady demo /\ 0 <= 1 < num_refs demo /\
  exists s', decref 1 demo = Ok s' /\ steady s' /\
    num_refs s' = num_refs demo /\ max_refs s' = max_refs demo /\
    from_space s' = from_space demo /\ to_space s' = to_space demo /\
    refs_used s' <= refs_used demo /\ mem_used s' <= mem_used demo /\
    forall h a, deref h s' = Ok a ->
      deref h demo = Ok a /\
      exists v v', heap demo !! a = Some v /\ heap s' !! a = Some v' /\
        type v' = type v /\ data v' = data v /\ value_size v' = value_size v.
Proof.
  split; [apply demo_steady|]. split; [done|].
  apply (decref_keeps_steady 1 demo); [apply demo_steady | done].
Defined.

Lemma decref_out_of_range ref s :
  ¬ (0 <= ref < num_refs s) -> decref ref s = Fault.
Proof.
  intros Hr. unfold decref. simpl. unfold decref_body.
  destruct (slot s ref) as [p| |] eqn:E; [|done|].
  - apply slot_Ok in E as [? _]. done.
  - by apply slot_not_OutOfFuel in E.
Qed.

Lemma ref_array_loop_sentinels f entries s :
  (forall e, e ∈ entries -> e = NULL_REF \/ e = TOMBSTONE_REF) ->
  ref_array_loop f entries s = Ok s.
Proof.
  induction entries as [|e entries IH]; intros H; simpl; [done|].
  assert (is_sentinel e = true) as ->.
  { destruct (H e) as [-> | ->]; [left | reflexivity | reflexivity]. }
  simpl. apply IH. intros e' He'. apply H. by right.
Qed.

(** X13: [traverse_decref] checks the handles of a reference array against
    the two sentinels and skips those; it does not check the child of a
    list or the keys of a dict.  So the walk over a value without embedded
    handles, or over an array that holds only sentinels, changes nothing,
    while the walk over a list or dict whose first handle is a sentinel
    calls [decref] on it, which indexes the table outside its range (for any
    handle outside the table [decref] does). *)
Theorem traverse_decref_sentinels s p v :
  heap s !! p = Some v ->
  (type v = VAL_SCALAR -> traverse_decref p s = Ok s) /\
  (forall entries, type v = VAL_REF_ARRAY -> data v = RefArrayData entries ->
     (forall e, e ∈ entries -> e = NULL_REF \/ e = TOMBSTONE_REF) ->
     traverse_decref p s = Ok s) /\
  (forall c, type v = VAL_LIST -> data v = ListData c ->
     c = NULL_REF \/ c = TOMBSTONE_REF -> traverse_decref p s = Fault) /\
  (forall k c, type v = VAL_DICT -> data v = DictData k c ->
     k = NULL_REF \/ k = TOMBSTONE_REF -> traverse_decref p s = Fault) /\
  (forall ref, ¬ (0 <= ref < num_refs s) -> decref ref s = Fault).
Proof.
  intros Hv. unfold traverse_decref, traverse_with, load. rewrite Hv. simpl.
  unfold for_each_child.
  assert (Hneg : forall c, c = NULL_REF \/ c = TOMBSTONE_REF -> decref c s = Fault).
  { intros c Hc. apply decref_out_of_range. unfold num_refs, NULL_REF, TOMBSTONE_REF in *. lia. }
  split; [by intros ->|]. split; [|split; [|split]].
  - intros entries -> -> H. by apply ref_array_loop_sentinels.
  - intros c -> -> Hc. by apply Hneg.
  - intros k c -> -> Hk. by rewrite (Hneg k Hk).
  - intros ref. apply decref_out_of_range.
Qed.

Lemma traverse_decref_sentinels_witness :
  let s := store 1064 (Value VAL_LIST 1 24 (ListData NULL_REF)) demo in
  let v := Value VAL_LIST 1 24 (ListData NULL_REF) in
  heap s !! 1064 = Some v /\
  (type v = VAL_SCALAR -> traverse_decref 1064 s = Ok s) /\
  (forall entries, type v = VAL_REF_ARRAY -> data v = RefArrayData entries ->
     (forall e, e ∈ entries -> e = NULL_REF \/ e = TOMBSTONE_REF) ->
     traverse_decref 1064 s = Ok s) /\
  (forall c, type v = VAL_LIST -> data v = ListData c ->
     c = NULL_REF \/ c = TOMBSTONE_REF -> traverse_decref 1064 s = Fault) /\
  (forall k c, type v = VAL_DICT -> data v = DictData k c ->
     k = NULL_REF \/ k = TOMBSTONE_REF -> traverse_decref 1064 s = Fault) /\
  (forall ref, ¬ (0 <= ref < num_refs s) -> decref ref s = Fault).
Proof.
  split; [reflexivity|].
  apply (traverse_decref_sentinels
           (store 1064 (Value VAL_LIST 1 24 (ListData NULL_REF)) demo) 1064
           (Value VAL_LIST 1 24 (ListData NULL_REF))).
  reflexivity.
Defined.

(** X14: the release of a value releases what it held the last reference
    to.  When [decref] takes the last reference to a list whose child is
    another handle with a count of 1 and no handles of its own, both slots
    are cleared, [refs_used] drops by two and [mem_used] by the sizes of
    both values. *)
Theorem decref_cascade h s p v c q w :
  pool_ok s ->
  slot s h = Ok p -> is_pool_address s p = true -> heap s !! p = Some v ->
  type v = VAL_LIST -> data v = ListData c -> ref_count v = 1 ->
  c ≠ h ->
  slot s c = Ok q -> is_pool_address s q = true -> heap s !! q = Some w ->
  type w = VAL_SCALAR -> ref_count w = 1 ->
  exists s', decref h s = Ok s' /\
    slot s' h = Ok NULL /\ slot s' c = Ok NULL /\
    refs_used s' = refs_used s - 2 /\
    mem_used s' = mem_used s - value_size v - value_size w.
Proof.
  intros Hok Hs Hp Hv Hty Hdt Hrc Hne Hsc Hqp Hw Htw Hrw.
  pose proof (pool_null _ Hok) as Hn.
  rewrite (decref_unfold _ _ Hn). unfold decref_body.
  rewrite Hs. simpl. rewrite Hp, (deref_slot _ _ _ Hs Hp). simpl.
  unfold load at 1. rewrite Hv. simpl. rewrite Hrc. simpl.
  destruct (release_cleared s h p v (wrap_count (1 - 1)) Hok Hs Hp Hv)
    as (Hok2 & Hcnt & Hout & Hl2 & Hf2).
  set (s2 := set_slot h NULL _) in *.
  pose proof Hs as Hs'. apply slot_Ok in Hs' as [Hr Hl].
  pose proof Hsc as Hsc'. apply slot_Ok in Hsc' as [Hrc' Hlc].
  assert (Hpq : q ≠ p).
  { intros ->. apply Hne. by apply (slot_inj s c h p (pool_nodup _ Hok) Hp). }
  assert (Hs2h : slot s2 h = Ok NULL).
  { apply slot_Ok. rewrite (num_refs_frame s s2 Hf2). split; [done|].
    unfold s2. simpl. apply list_lookup_insert_eq. by eapply lookup_lt_Some. }
  assert (Hs2c : slot s2 c = Ok q).
  { apply slot_Ok. rewrite (num_refs_frame s s2 Hf2). split; [done|].
    unfold s2. simpl. rewrite list_lookup_insert_ne; [done|]. lia. }
  assert (Hq2 : is_pool_address s2 q = true) by (by rewrite (same_frame_pool s s2 q Hf2)).
  assert (Hw2 : heap s2 !! q = Some w).
  { unfold s2. simpl. by rewrite lookup_insert_ne. }
  assert (Hru2 : refs_used s2 = refs_used s - 1).
  { rewrite !refs_used_sum. unfold s2. simpl.
    rewrite (sumZ_insert _ _ _ _ NULL Hl). simpl.
    destruct (Z.eqb_spec p NULL) as [->|]; [congruence|]. lia. }
  assert (Hmu2 : mem_used s2 = mem_used s) by done.
  unfold traverse_with. rewrite Hl2. simpl.
  unfold for_each_child. simpl. rewrite Hty, Hdt.
  destruct (decref_last c s2 q w [] Hok2 Hs2c Hq2 Hw2 Hrw)
    as (s3 & Hd3 & Hru3 & Hmu3 & Hs3c).
  { unfold children. by rewrite Htw. }
  { intros x y Hx. by apply elem_of_nil in Hx. }
  destruct (decref_last_cascade c s2 q w Hok2 Hs2c Hq2 Hw2 Hrw)
    as (s3' & Hd3' & Hok3 & Hrel3 & _).
  assert (s3' = s3) as -> by congruence.
  rewrite Hd3. simpl.
  destruct (release_freed s h p v (wrap_count (1 - 1)) s3 Hok Hs Hp Hv eq_refl Hok3 Hrel3)
    as (s4 & Hfree & Hok4 & Hrel4).
  exists s4. split; [done|].
  apply mm_free_Ok in Hfree as (Ht4 & _ & _ & Hb4 & _).
  destruct (pool_values _ Hok p (slot_elem _ _ _ Hs) Hp) as (v0 & Hv0 & _ & Hbl).
  assert (v0 = v) as -> by congruence.
  assert (Hbl3 : (p, value_size v) ∈ blocks s3).
  { destruct (dr_blocks _ _ Hrel3 (p, value_size v)) as [|(_ & Hin & _)]; [done|done|].
    simpl in Hin. done. }
  split; [|split; [|split]].
  - apply slot_Ok. unfold num_refs. rewrite Ht4.
    pose proof (dr_frame _ _ Hrel3) as Hf3.
    apply slot_Ok in Hs2h as [Hr2 Hl2h].
    split; [rewrite <- (num_refs_frame s2 s3 Hf3) in Hr2; exact Hr2|].
    by destruct (dr_table _ _ Hrel3 _ _ Hl2h).
  - apply slot_Ok. unfold num_refs. rewrite Ht4. by apply slot_Ok in Hs3c.
  - unfold refs_used in *. rewrite Ht4. lia.
  - unfold mem_used in *. rewrite Hb4. change (foldr _ 0 ?l) with (sumZ snd l) in *.
    rewrite (sumZ_release p (value_size v)); [lia | apply (pool_blocks_nodup _ Hok3) | done].
Qed.

Lemma chain_pool_ok : pool_ok chain.
Proof.
  split.
  - reflexivity.
  - change (NoDup (filter (fun p => is_pool_address chain p = true) [1000; 1024])).
    rewrite !filter_cons, filter_nil. repeat (rewrite decide_True by reflexivity).
    apply NoDup_ListNoDup. repeat constructor; simpl; lia.
  - change (NoDup [1000; 1024]).
    apply NoDup_ListNoDup. repeat constructor; simpl; lia.
  - intros p Hp _. change (ref_table chain) with [1000; 1024] in Hp.
    apply elem_of_cons in Hp as [->|Hp]; [|apply list_elem_of_singleton in Hp as ->].
    + exists (Value VAL_LIST 1 24 (ListData 1)). split; [reflexivity|]. split.
      * exists [1]. split; [reflexivity|]. intros c Hc.
        apply list_elem_of_singleton in Hc as ->. unfold num_refs. simpl. lia.
      * left.
    + exists (Value VAL_SCALAR 1 24 RawData). split; [reflexivity|]. split.
      * exists []. split; [reflexivity|]. intros c Hc. by apply elem_of_nil in Hc.
      * right. left.
Qed.

Lemma decref_cascade_witness :
  pool_ok chain /\
  slot chain 0 = Ok 1000 /\ is_pool_address chain 1000 = true /\
  heap chain !! 1000 = Some (Value VAL_LIST 1 24 (ListData 1)) /\
  slot chain 1 = Ok 1024 /\ is_pool_address chain 1024 = true /\
  heap chain !! 1024 = Some (Value VAL_SCALAR 1 24 RawData) /\
  exists s', decref 0 chain = Ok s' /\
    slot s' 0 = Ok NULL /\ slot s' 1 = Ok NULL /\
    refs_used s' = refs_used chain - 2 /\
    mem_used s' = mem_used chain - 24 - 24.
Proof.
  split; [apply chain_pool_ok|]. repeat (split; [reflexivity|]).
  apply (decref_cascade 0 chain 1000 (Value VAL_LIST 1 24 (ListData 1)) 1
           1024 (Value VAL_SCALAR 1 24 RawData));
    [apply chain_pool_ok | reflexivity | reflexivity | reflexivity | reflexivity
    | reflexivity | reflexivity | done | reflexivity | reflexivity | reflexivity
    | reflexivity | reflexivity].
Defined.

(** * Further properties of the collector *)

Lemma copy_contents_pooled ref s p :
  slot s ref = Ok p -> is_pool_address s p = true -> copy_contents ref s = Ok s.
Proof.
  intros Hs Hp. unfold copy_contents. simpl. unfold copy_contents_body.
  rewrite Hs. simpl. by rewrite Hp.
Qed.

Lemma foreach_global_app f l k s :
  foreach_global f (l ++ k) s = foreach_global f l s ≫= foreach_global f k.
Proof.
  revert s. induction l as [|a l IH]; intros s; simpl; [done|].
  destruct (f a s); simpl; [apply IH | done | done].
Qed.

Lemma reach_nil s h : ¬ reach s [] h.
Proof. induction 1 as [h Hh|]; [by apply elem_of_nil in Hh | done]. Qed.

Lemma sweep_nothing n : forall i s,
  0 <= i -> i + Z.of_nat n = num_refs s ->
  (forall j p, slot s j = Ok p -> p = NULL \/ is_pool_address s p = true) ->
  sweep n i s = Ok s.
Proof.
  induction n as [|n IH]; intros i s Hi Hn Hall; simpl; [done|].
  assert (Hsl : sweep_slot i s = Ok s).
  { unfold sweep_slot. destruct (slot_in_range s i) as [p Hp]; [lia|].
    rewrite Hp. simpl. destruct (Hall i p Hp) as [->|Hpp].
    - simpl. by rewrite andb_false_r.
    - by rewrite Hpp. }
  rewrite Hsl. simpl. apply IH; [lia | lia | done].
Qed.

Lemma sumZ_pointwise (g g' : Z -> Z) (t : list Z) : forall t',
  length t = length t' ->
  (forall i p p', t !! i = Some p -> t' !! i = Some p' -> g p = g' p') ->
  sumZ g t = sumZ g' t'.
Proof.
  induction t as [|p t IH]; intros [|p' t'] Hlen H; simpl in *; try done.
  unfold sumZ in *. simpl. rewrite (H 0%nat p p') by done.
  rewrite (IH t'); [done | lia |]. intros i q q' Hq Hq'. by apply (H (S i)).
Qed.

(** The copying leaves what every handle designates as it was. *)
Lemma copy_values s s2 h :
  steady s -> copy_inv (mm_init (pool_size s) (to_space s) s) s2 ->
  value_at s2 h = value_at s h.
Proof.
  intros Hst Hci. pose proof (ci_frame _ _ Hci) as Hf.
  assert (Hnum : num_refs s2 = num_refs s) by (by apply num_refs_frame in Hf).
  unfold value_at. destruct (slot s h) as [p| |] eqn:E.
  - destruct (copied_or_left s s2 h p Hst Hci E)
      as [(_ & -> & Hh)|(H0 & q & v & -> & Hq & Hv & Hv2)].
    + by rewrite Hh.
    + destruct (Z.eqb_spec p NULL) as [|_]; [done|].
      destruct (Z.eqb_spec q NULL) as [->|_]; [|congruence].
      rewrite (pool_null _ (ci_pool _ _ Hci)) in Hq. done.
  - destruct (slot s2 h) as [q| |] eqn:E2; [|done|done].
    apply slot_Ok in E2 as [Hr _]. rewrite Hnum in Hr.
    destruct (slot_in_range s h Hr) as [p Hp]. congruence.
  - by apply slot_not_OutOfFuel in E.
Qed.

(** X15: the copying relocates exactly the handles reachable from the
    roots, each into the new region and each once.  After it a handle
    resolves if and only if it is reachable, no two handles resolve to the
    same copy, every handle designates the value it designated, and the slot
    of a handle that is not reachable is as it was. *)
Theorem copy_phase_exact s roots :
  steady s -> (forall h, reach s roots h -> live s h) ->
  exists s2,
    foreach_global copy_contents roots (mm_init (pool_size s) (to_space s) s) = Ok s2 /\
    (forall h, (exists a, deref h s2 = Ok a) <-> reach s roots h) /\
    (forall h a, deref h s2 = Ok a -> to_space s <= a < to_space s + pool_size s) /\
    (forall h h' a, deref h s2 = Ok a -> deref h' s2 = Ok a -> h = h') /\
    (forall h, value_at s2 h = value_at s h) /\
    (forall h, ¬ reach s roots h -> slot s2 h = slot s h).
Proof.
  intros Hst Hlive.
  destruct (collect_ok s roots Hst Hlive)
    as (s2 & s' & Hcopy & _ & _ & Hci & Hreach & _).
  pose proof (ci_frame _ _ Hci) as (Hlen & Hab & Has). simpl in Hlen, Hab, Has.
  exists s2. split; [done|]. split; [|split; [|split; [|split]]].
  - intros h. rewrite <- Hreach. unfold pooled. split.
    + intros [a Ha]. exists a. by apply deref_Ok.
    + intros [a Ha]. exists a. by apply deref_Ok.
  - intros h a Ha. apply deref_Ok in Ha as [_ Ha]. unfold is_pool_address in Ha.
    rewrite Hab, Has in Ha. apply andb_true_iff in Ha as [H1 H2]. lia.
  - intros h h' a Ha Ha'. apply deref_Ok in Ha as [Hs Hp]. apply deref_Ok in Ha' as [Hs' _].
    by apply (slot_inj s2 h h' a (pool_nodup _ (ci_pool _ _ Hci))).
  - intros h. by apply copy_values.
  - intros h Hn. destruct (slot s h) as [p| |] eqn:E.
    + destruct (copied_or_left s s2 h p Hst Hci E)
        as [(_ & Hs2 & _)|(_ & q & v & Hs2 & Hq & _)]; [done|].
      exfalso. apply Hn, Hreach. by exists q.
    + destruct (slot s2 h) as [q| |] eqn:E2; [|done|by apply slot_not_OutOfFuel in E2].
      apply slot_Ok in E2 as [Hr _]. unfold num_refs in Hr. rewrite Hlen in Hr.
      destruct (slot_in_range s h Hr) as [p Hp]. congruence.
    + by apply slot_not_OutOfFuel in E.
Qed.

Lemma copy_phase_exact_witness :
  steady demo /\
  exists s2,
    foreach_global copy_contents [1]
      (mm_init (pool_size demo) (to_space demo) demo) = Ok s2 /\
    (forall h, (exists a, deref h s2 = Ok a) <-> reach demo [1] h) /\
    (forall h a, deref h s2 = Ok a -> to_space demo <= a < to_space demo + pool_size demo) /\
    (forall h h' a, deref h s2 = Ok a -> deref h' s2 = Ok a -> h = h') /\
    (forall h, value_at s2 h = value_at demo h) /\
    (forall h, ¬ reach demo [1] h -> slot s2 h = slot demo h).
Proof.
  split; [apply demo_steady|].
  apply (copy_phase_exact demo [1]); [apply demo_steady | apply demo_live].
Defined.

(** X16: a handle that is reachable from the roots adds nothing as a root
    of its own: [copy_contents] on a handle already relocated does nothing,
    so the collection with it listed after the roots is the collection
    without it. *)
Theorem collect_redundant_root s roots c :
  steady s -> (forall h, reach s roots h -> live s h) -> reach s roots c ->
  collect_garbage (roots ++ [c]) s = collect_garbage roots s /\
  exists s', collect_garbage roots s = Ok s'.
Proof.
  intros Hst Hlive Hc.
  destruct (collect_ok s roots Hst Hlive)
    as (s2 & s' & Hcopy & _ & Hrun & _ & Hreach & _).
  split; [|by exists s'].
  unfold collect_garbage. rewrite foreach_global_app, Hcopy. simpl.
  destruct (proj2 (Hreach c) Hc) as (q & Hq & Hqp).
  by rewrite (copy_contents_pooled c s2 q Hq Hqp).
Qed.

Lemma collect_redundant_root_witness :
  steady demo /\ reach demo [1] 0 /\
  collect_garbage ([1] ++ [0]) demo = collect_garbage [1] demo /\
  exists s', collect_garbage [1] demo = Ok s'.
Proof.
  assert (H0 : reach demo [1] 0) by (apply demo_reach; right; left).
  split; [apply demo_steady|]. split; [exact H0|].
  apply (collect_redundant_root demo [1] 0); [apply demo_steady | apply demo_live | exact H0].
Defined.

(** X17: the roots have to be handles in use.  [copy_contents] reads the
    size of the value through the slot without a check, so a root whose
    slot is unused (no value lies at the null address), or a root outside
    the table, takes the collection down with it. *)
Theorem collect_dead_root s roots h :
  steady s -> heap s !! NULL = None ->
  slot s h = Ok NULL \/ ¬ (0 <= h < num_refs s) ->
  collect_garbage (h :: roots) s = Fault.
Proof.
  intros Hst H0 Hh. unfold collect_garbage. simpl.
  set (s0 := mm_init (pool_size s) (to_space s) s).
  assert (E : copy_contents h s0 = Fault); [|by rewrite E].
  unfold copy_contents. simpl. unfold copy_contents_body.
  destruct Hh as [Hs|Hr].
  - assert (Hs0 : slot s0 h = Ok NULL) by exact Hs.
    pose proof (cs_null _ (steady_copy_start s Hst)) as Hn. fold s0 in Hn.
    rewrite Hs0. simpl. rewrite Hn. simpl.
    unfold load. change (heap s0) with (heap s). by rewrite H0.
  - destruct (slot s0 h) as [p| |] eqn:E; [|done|by apply slot_not_OutOfFuel in E].
    apply slot_Ok in E as [? _]. done.
Qed.

Lemma collect_dead_root_witness :
  steady demo /\ heap demo !! NULL = None /\
  collect_garbage [7; 1] demo = Fault.
Proof.
  split; [apply demo_steady|]. split; [reflexivity|].
  apply (collect_dead_root demo [1] 7); [apply demo_steady | reflexivity |].
  right. unfold num_refs. simpl. lia.
Defined.

(** ** What a collection leaves *)

Lemma table_slot s i p :
  ref_table s !! i = Some p -> slot s (Z.of_nat i) = Ok p.
Proof.
  intros Hi. apply slot_Ok. rewrite Nat2Z.id. split; [|done].
  apply lookup_lt_Some in Hi. unfold num_refs. lia.
Qed.

(** A slot that was unused before the collection is unused after it. *)
Lemma collect_unused_stay s s2 s' :
  steady s -> copy_inv (mm_init (pool_size s) (to_space s) s) s2 ->
  decref_rel (swap_spaces s2) s' ->
  (forall j p, slot s' j = Ok p -> p = NULL \/ is_pool_address s' p = true) ->
  forall i, ref_table s !! i = Some NULL -> ref_table s' !! i = Some NULL.
Proof.
  intros Hst Hci Hrel Hall i Hi.
  destruct (collect_cases s s2 s' Hst Hci Hrel Hall i NULL Hi)
    as [(_ & _ & H' & _)|(H0 & _)]; done.
Qed.

(** The slots a collection takes out of use, counted. *)
Lemma collect_refs_used s s2 s' :
  steady s -> copy_inv (mm_init (pool_size s) (to_space s) s) s2 ->
  decref_rel (swap_spaces s2) s' ->
  (forall j p, slot s' j = Ok p -> p = NULL \/ is_pool_address s' p = true) ->
  refs_used s - refs_used s' = released_count s s' /\ 0 <= released_count s s'.
Proof.
  intros Hst Hci Hrel Hall. split.
  - rewrite !refs_used_sum. unfold released_count.
    rewrite (sum_reclaimed (fun p => if p =? NULL then 0 else 1)
               (fun p => if p =? NULL then 0 else 1) (fun _ => 1)
               (ref_table s) (ref_table s')); [lia | |].
    + destruct (dr_frame _ _ Hrel) as (Hlen & _). destruct (ci_frame _ _ Hci) as (Hlen2 & _).
      simpl in Hlen, Hlen2. congruence.
    + intros i p p' Hp Hp'. destruct (Z.eqb_spec p NULL) as [->|Hne]; simpl.
      * rewrite (collect_unused_stay s s2 s' Hst Hci Hrel Hall i Hp) in Hp'.
        injection Hp' as <-. done.
      * destruct (p' =? NULL); lia.
  - apply reclaimed_nonneg. intros; lia.
Qed.

(** X18: a collection without roots reclaims everything: it returns, every
    slot of the table is unused afterwards, and [refs_used] and [mem_used]
    are 0. *)
Theorem collect_no_roots s :
  steady s ->
  exists s', collect_garbage [] s = Ok s' /\
    num_refs s' = num_refs s /\
    (forall i, 0 <= i < num_refs s -> slot s' i = Ok NULL) /\
    refs_used s' = 0 /\ mem_used s' = 0.
Proof.
  intros Hst.
  destruct (collect_ok s [] Hst) as (s2 & s' & _ & _ & Hrun & Hci & Hreach & Hok' & Hrel & Hall).
  { intros h Hh. by apply reach_nil in Hh. }
  exists s'. split; [done|].
  pose proof (dr_frame _ _ Hrel) as Hf. pose proof (ci_frame _ _ Hci) as Hf2.
  assert (Hnum : num_refs s' = num_refs s).
  { rewrite (num_refs_frame _ _ Hf). change (num_refs (swap_spaces s2)) with (num_refs s2).
    by rewrite (num_refs_frame _ _ Hf2). }
  assert (Hnull : forall i p, slot s' i = Ok p -> p = NULL).
  { intros i p Hs. destruct (Hall i p Hs) as [|Hpp]; [done|]. exfalso.
    apply (reach_nil s i), Hreach. exists p.
    rewrite (same_frame_pool _ _ p Hf) in Hpp.
    pose proof (pooled_entry_back _ _ _ Hrel (pool_null _ (ci_pool _ _ Hci)) Hpp
                  (slot_elem _ _ _ Hs)) as Hin.
    split; [|done]. apply slot_Ok in Hs as [Hr Hl]. apply slot_Ok.
    rewrite Hnum in Hr. rewrite (num_refs_frame _ _ Hf2). split; [done|].
    destruct (lookup_lt_is_Some_2 (ref_table s2) (Z.to_nat i)) as [q Hq].
    { destruct Hf2 as [Hlen _]. simpl in Hlen. unfold num_refs in Hr. lia. }
    destruct (dr_table _ _ Hrel _ _ Hq) as [E|E]; rewrite E in Hl; [congruence|].
    injection Hl as <-.
    assert (Hn : is_pool_address (swap_spaces s2) NULL = false)
      by apply (pool_null _ (ci_pool _ _ Hci)).
    rewrite Hn in Hpp. done. }
  split; [done|]. split; [|split].
  - intros i Hi. rewrite <- Hnum in Hi. destruct (slot_in_range s' i Hi) as [p Hp].
    by rewrite Hp, (Hnull i p Hp).
  - rewrite refs_used_sum. apply sumZ_zero. intros p Hp.
    apply list_elem_of_lookup in Hp as [i Hi].
    by rewrite (Hnull _ p (table_slot s' i p Hi)).
  - destruct (collect_bytes s s2 s' Hst Hci Hok' Hrel Hall) as [-> _].
    apply sumZ_zero. intros p Hp. apply list_elem_of_lookup in Hp as [i Hi].
    by rewrite (Hnull _ p (table_slot s' i p Hi)), (pool_null _ Hok').
Qed.

Lemma collect_no_roots_witness :
  steady demo /\
  exists s', collect_garbage [] demo = Ok s' /\
    num_refs s' = num_refs demo /\
    (forall i, 0 <= i < num_refs demo -> slot s' i = Ok NULL) /\
    refs_used s' = 0 /\ mem_used s' = 0.
Proof. split; [apply demo_steady|]. apply (collect_no_roots demo), demo_steady. Defined.

(** X19: a collection exchanges the two halves and leaves every value that
    is still in use in the new active half.  The table keeps its length and
    its capacity, the halves their size; a slot is unused afterwards or
    holds an address of what was [to_space]; a slot that was unused stays
    unused, so [refs_used] drops by the number of slots cleared; and
    [mem_used] fits the half. *)
Theorem collect_new_region s roots :
  steady s -> (forall h, reach s roots h -> live s h) ->
  exists s', collect_garbage roots s = Ok s' /\
    from_space s' = to_space s /\ to_space s' = from_space s /\
    pool_size s' = pool_size s /\
    num_refs s' = num_refs s /\ max_refs s' = max_refs s /\
    (forall i p, slot s' i = Ok p ->
       p = NULL \/ to_space s <= p < to_space s + pool_size s) /\
    (forall i, slot s i = Ok NULL -> slot s' i = Ok NULL) /\
    refs_used s - refs_used s' = released_count s s' /\
    0 <= released_count s s' /\
    0 <= mem_used s' <= pool_size s.
Proof.
  intros Hst Hlive.
  destruct (collect_ok s roots Hst Hlive)
    as (s2 & s' & _ & _ & Hrun & Hci & Hreach & Hok' & Hrel & Hall).
  destruct (collect_steady s s2 s' Hst Hci Hok' Hrel Hall) as (Hst' & Hfrom & Hto).
  destruct (collect_refs_used s s2 s' Hst Hci Hrel Hall) as [Hru Hrc].
  pose proof (dr_frame _ _ Hrel) as Hf. pose proof (ci_frame _ _ Hci) as Hf2.
  destruct (dr_spaces _ _ Hrel) as (_ & _ & Hsz & Hmx). simpl in Hsz, Hmx.
  destruct (ci_spaces _ _ Hci) as (_ & _ & Hsz2 & Hmx2). simpl in Hsz2, Hmx2.
  assert (Hnum : num_refs s' = num_refs s).
  { rewrite (num_refs_frame _ _ Hf). change (num_refs (swap_spaces s2)) with (num_refs s2).
    by rewrite (num_refs_frame _ _ Hf2). }
  exists s'. split; [done|]. split; [done|]. split; [done|].
  split; [congruence|]. split; [done|]. split; [congruence|].
  split; [|split; [|split; [done|split; [done|]]]].
  - intros i p Hs. destruct (Hall i p Hs) as [|Hpp]; [by left|]. right.
    unfold is_pool_address in Hpp. destruct (st_arena _ Hst') as [Eb Es].
    rewrite Eb, Es, Hfrom in Hpp. apply andb_true_iff in Hpp as [H1 H2].
    assert (pool_size s' = pool_size s) by congruence. lia.
  - intros i Hs. apply slot_Ok in Hs as [Hr Hl]. apply slot_Ok. rewrite Hnum.
    split; [done|]. by apply (collect_unused_stay s s2 s' Hst Hci Hrel Hall).
  - split.
    + unfold mem_used. change (foldr _ 0 ?l) with (sumZ snd l).
      apply sumZ_nonneg. intros b Hb. by apply (st_blocks _ Hst').
    + pose proof (st_fit _ Hst'). congruence.
Qed.

Lemma collect_new_region_witness :
  steady demo /\
  exists s', collect_garbage [1] demo = Ok s' /\
    from_space s' = to_space demo /\ to_space s' = from_space demo /\
    pool_size s' = pool_size demo /\
    num_refs s' = num_refs demo /\ max_refs s' = max_refs demo /\
    (forall i p, slot s' i = Ok p ->
       p = NULL \/ to_space demo <= p < to_space demo + pool_size demo) /\
    (forall i, slot demo i = Ok NULL -> slot s' i = Ok NULL) /\
    refs_used demo - refs_used s' = released_count demo s' /\
    0 <= released_count demo s' /\
    0 <= mem_used s' <= pool_size demo.
Proof.
  split; [apply demo_steady|].
  apply (collect_new_region demo [1]); [apply demo_steady | apply demo_live].
Defined.

(** A collection when every handle in use is reachable from the roots. *)
Lemma collect_identity s roots :
  steady s -> (forall h, reach s roots h -> live s h) ->
  (forall h, live s h -> reach s roots h) ->
  exists s', collect_garbage roots s = Ok s' /\
    (forall h, value_at s' h = value_at s h) /\
    refs_used s' = refs_used s /\
    mem_used s' = slot_bytes s /\ mem_used s' <= mem_used s.
Proof.
  intros Hst Hlive Hall.
  destruct (collect_ok s roots Hst Hlive)
    as (s2 & s' & _ & Hsw & Hrun & Hci & Hreach & Hok' & Hrel & Hall').
  pose proof (ci_frame _ _ Hci) as Hf2.
  pose proof (ci_pool _ _ Hci) as Hok2.
  assert (Hslots : forall j p, slot s2 j = Ok p -> p = NULL \/ is_pool_address s2 p = true).
  { intros j p Hs. destruct (Z.eq_dec p NULL) as [|Hne]; [by left|]. right.
    pose proof Hs as Hs1. apply slot_Ok in Hs1 as [Hr _].
    rewrite (num_refs_frame _ _ Hf2) in Hr.
    destruct (slot_in_range s j Hr) as [p0 Hp0].
    destruct (copied_or_left s s2 j p0 Hst Hci Hp0)
      as [(Hnp & Hs2 & _)|(_ & q & v & Hs2 & Hq & _)].
    - exfalso. apply Hnp, Hreach, Hall. exists p0. split; [done|]. congruence.
    - congruence. }
  assert (s' = swap_spaces s2) as ->.
  { rewrite (sweep_nothing _ 0 (swap_spaces s2)) in Hsw; [congruence | lia | | exact Hslots].
    unfold num_refs. simpl. lia. }
  exists (swap_spaces s2). split; [done|].
  assert (Hval : forall h, value_at (swap_spaces s2) h = value_at s h).
  { intros h. change (value_at (swap_spaces s2) h) with (value_at s2 h). by apply copy_values. }
  destruct (Hf2) as (Hlen & _). simpl in Hlen.
  assert (Hpt : forall i p p', ref_table s !! i = Some p -> ref_table s2 !! i = Some p' ->
    (p = NULL /\ p' = NULL) \/
    (p ≠ NULL /\ p' ≠ NULL /\ is_pool_address s p = true /\
     is_pool_address s2 p' = true /\ size_at s2 p' = size_at s p)).
  { intros i p p' Hp Hp'.
    destruct (copied_or_left s s2 (Z.of_nat i) p Hst Hci (table_slot s i p Hp))
      as [(Hnp & Hs2 & _)|(H0 & q & v & Hs2 & Hq & Hv & Hv2)].
    - apply slot_Ok in Hs2 as [_ Hs2]. rewrite Nat2Z.id in Hs2.
      assert (p' = p) as -> by congruence.
      destruct (Hslots _ p (table_slot s2 i p Hp')) as [->|Hpp]; [by left|].
      exfalso. apply Hnp. exists p. split; [by apply table_slot | done].
    - apply slot_Ok in Hs2 as [_ Hs2]. rewrite Nat2Z.id in Hs2.
      assert (p' = q) as -> by congruence. right. split; [done|].
      split; [intros ->; by rewrite (pool_null _ Hok2) in Hq|].
      split; [apply (steady_pooled s p Hst); [by eapply list_elem_of_lookup_2 | done]|].
      split; [done|]. unfold size_at. by rewrite Hv, Hv2. }
  split; [done|]. split; [|split].
  - rewrite !refs_used_sum. simpl. apply sumZ_pointwise; [done|].
    intros i p' p Hp' Hp. destruct (Hpt i p p' Hp Hp') as [[-> ->]|(H1 & H2 & _)]; [done|].
    destruct (Z.eqb_spec p NULL), (Z.eqb_spec p' NULL); done.
  - change (mem_used (swap_spaces s2)) with (mem_used s2). rewrite (ci_exact _ _ Hci).
    unfold slot_bytes. apply sumZ_pointwise; [done|].
    intros i p' p Hp' Hp. destruct (Hpt i p p' Hp Hp') as [[-> ->]|(_ & _ & -> & -> & E)]; [|done].
    by rewrite (pool_null _ Hok2), (pool_null _ (st_pool _ Hst)).
  - destruct (collect_bytes s s2 (swap_spaces s2) Hst Hci Hok' Hrel Hall') as [_ Hle].
    assert (0 <= reclaimed_bytes s (swap_spaces s2)); [|lia].
    apply reclaimed_nonneg. intros p Hp H0. by apply steady_size_nonneg.
Qed.

(** X20: when every handle in use is reachable from the roots, a
    collection reclaims nothing and is invisible through the handles: every
    handle designates the same value as before, count included, no slot is
    cleared, [refs_used] is as it was, and [mem_used] is the bytes of the
    values in the table. *)
Theorem collect_without_garbage s roots :
  steady s -> (forall h, reach s roots h -> live s h) ->
  (forall h, live s h -> reach s roots h) ->
  exists s', collect_garbage roots s = Ok s' /\
    (forall h, value_at s' h = value_at s h) /\
    (forall h, live s' h <-> live s h) /\
    refs_used s' = refs_used s /\ released_count s s' = 0 /\
    mem_used s' = slot_bytes s /\ mem_used s' <= mem_used s.
Proof.
  intros Hst Hlive Hall.
  destruct (collect_identity s roots Hst Hlive Hall) as (s' & Hrun & Hval & Hru & Hmu & Hle).
  destruct (collect_ok s roots Hst Hlive)
    as (s2 & s0' & _ & _ & Hrun' & Hci & _ & Hok' & Hrel & Hall').
  assert (s0' = s') as -> by congruence.
  destruct (collect_refs_used s s2 s' Hst Hci Hrel Hall') as [Hacc _].
  destruct (collect_steady s s2 s' Hst Hci Hok' Hrel Hall') as (Hst' & _).
  assert (Hnum : num_refs s' = num_refs s).
  { rewrite (num_refs_frame _ _ (dr_frame _ _ Hrel)).
    change (num_refs (swap_spaces s2)) with (num_refs s2).
    by rewrite (num_refs_frame _ _ (ci_frame _ _ Hci)). }
  assert (Hlv : forall t h, steady t -> live t h <-> is_Some (value_at t h)).
  { intros t h Ht. unfold live, value_at. split.
    - intros (p & Hs & Hp). rewrite Hs. destruct (Z.eqb_spec p NULL) as [|_]; [done|].
      pose proof (slot_elem _ _ _ Hs) as Hin.
      destruct (pool_values _ (st_pool _ Ht) p Hin (steady_pooled t p Ht Hin Hp))
        as (v & -> & _). done.
    - destruct (slot t h) as [p| |]; [|by intros [? ?]|by intros [? ?]].
      destruct (Z.eqb_spec p NULL) as [|Hne]; [by intros [? ?]|].
      intros _. by exists p. }
  exists s'. split; [done|]. split; [done|]. split.
  { intros h. by rewrite (Hlv s' h Hst'), (Hlv s h Hst), Hval. }
  split; [done|]. split; [lia|]. done.
Qed.

Lemma chain_steady : steady chain.
Proof.
  split.
  - simpl. lia.
  - simpl. lia.
  - simpl. lia.
  - left. simpl. lia.
  - done.
  - intros p Hp. right. change (ref_table chain) with [1000; 1024] in Hp.
    apply elem_of_cons in Hp as [->|Hp]; [done|].
    by apply list_elem_of_singleton in Hp as ->.
  - apply chain_pool_ok.
  - intros p v Hp _ Hv. change (ref_table chain) with [1000; 1024] in Hp.
    apply elem_of_cons in Hp as [->|Hp]; [|apply list_elem_of_singleton in Hp as ->];
      (assert (Hv' := Hv); vm_compute in Hv'; injection Hv' as <-; simpl; lia).
  - intros b Hb. change (blocks chain) with [(1000, 24); (1024, 24)] in Hb.
    apply elem_of_cons in Hb as [->|Hb]; [simpl; lia|].
    apply list_elem_of_singleton in Hb as ->. simpl. lia.
  - vm_compute. discriminate.
Qed.

Lemma chain_reach h : reach chain [0] h <-> live chain h.
Proof.
  split.
  - apply (reach_closed chain [0] (live chain)).
    + intros r Hr. apply list_elem_of_singleton in Hr as ->.
      exists 1000. split; [reflexivity | done].
    + intros x c [p [Hs Hp]] Hc. apply slot_Ok in Hs as [Hr Hl].
      unfold num_refs in Hr. simpl in Hr.
      assert (x = 0 \/ x = 1) as [-> | ->] by lia; vm_compute in Hc.
      * apply list_elem_of_singleton in Hc as ->. exists 1024. split; [reflexivity | done].
      * by apply elem_of_nil in Hc.
  - intros [p [Hs Hp]]. apply slot_Ok in Hs as [Hr Hl].
    unfold num_refs in Hr. simpl in Hr.
    assert (h = 0 \/ h = 1) as [-> | ->] by lia.
    + apply reach_root. left.
    + apply (reach_child _ _ 0); [apply reach_root; left|]. vm_compute. left.
Qed.

Lemma collect_without_garbage_witness :
  steady chain /\
  (forall h, reach chain [0] h -> live chain h) /\
  (forall h, live chain h -> reach chain [0] h) /\
  exists s', collect_garbage [0] chain = Ok s' /\
    (forall h, value_at s' h = value_at chain h) /\
    (forall h, live s' h <-> live chain h) /\
    refs_used s' = refs_used chain /\ released_count chain s' = 0 /\
    mem_used s' = slot_bytes chain /\ mem_used s' <= mem_used chain.
Proof.
  split; [apply chain_steady|].
  split; [intros h; apply chain_reach|]. split; [intros h; apply chain_reach|].
  apply (collect_without_garbage chain [0]);
    [apply chain_steady | intros h; apply chain_reach | intros h; apply chain_reach].
Defined.

(** ** Telling failure from success *)

(** X21: the handle [make_ref] returns tells whether the value was
    created.  It is [NULL_REF] exactly when the allocator had no storage,
    and then the state is untouched; any other handle returned is an index
    of the table, so it is neither sentinel. *)
Theorem make_ref_null_iff (INITIAL_SIZE SIZEOF_VALUE_T : Z) ty size s h s' :
  make_ref INITIAL_SIZE SIZEOF_VALUE_T ty size s = Ok (h, s') ->
  (h = NULL_REF <-> mm_malloc (align_size size) s = None) /\
  (h = NULL_REF -> s' = s) /\
  (h ≠ NULL_REF -> 0 <= h < num_refs s' /\ h ≠ TOMBSTONE_REF).
Proof.
  intros Hm. destruct (mm_malloc (align_size size) s) as [[p s1]|] eqn:E.
  - assert (Hh : 0 <= h < num_refs s').
    { unfold make_ref in Hm. rewrite E in Hm.
      destruct (load s1 p) as [v| |]; simpl in Hm; [|done|done].
      destruct (decide (type v = VAL_FREE)); [|done].
      destruct (fill_payload SIZEOF_VALUE_T p _) as [s3| |]; simpl in Hm; [|done|done].
      injection Hm as Hm. unfold assign_reference in Hm.
      destruct (find_slot NULL (ref_table s3) 0) as [j|] eqn:Hf.
      - injection Hm as <- <-.
        pose proof (find_slot_lt _ _ _ _ Hf) as Hlt.
        apply find_slot_Some in Hf as (Hle & _ & _).
        unfold num_refs. simpl. rewrite length_insert. lia.
      - injection Hm as <- <-. unfold num_refs. simpl.
        destruct (Z.of_nat (length (ref_table s3)) =? max_refs s3); simpl;
          rewrite length_app; simpl; lia. }
    unfold NULL_REF, TOMBSTONE_REF. split; [split; [lia | done]|]. split; lia.
  - unfold make_ref in Hm. rewrite E in Hm. injection Hm as <- <-.
    split; [done|]. split; [done|]. done.
Qed.

Lemma make_ref_null_iff_witness :
  exists s',
    make_ref 8 16 VAL_SCALAR 2000 demo = Ok (NULL_REF, s') /\
    (NULL_REF = NULL_REF <-> mm_malloc (align_size 2000) demo = None) /\
    (NULL_REF = NULL_REF -> s' = demo) /\
    (NULL_REF ≠ NULL_REF -> 0 <= NULL_REF < num_refs s' /\ NULL_REF ≠ TOMBSTONE_REF).
Proof.
  exists demo. split; [reflexivity|].
  apply (make_ref_null_iff 8 16 VAL_SCALAR 2000 demo NULL_REF demo). reflexivity.
Defined.

(** ** Two collections in a row *)

(** What stays in use across a collection keeps its embedded handles, and
    was reachable. *)
Lemma collect_survivor s roots s2 s' h :
  steady s -> copy_inv (mm_init (pool_size s) (to_space s) s) s2 ->
  (forall x, pooled s2 x <-> reach s roots x) ->
  decref_rel (swap_spaces s2) s' ->
  (forall j p, slot s' j = Ok p -> p = NULL \/ is_pool_address s' p = true) ->
  live s' h -> kids s' h = kids s h /\ reach s roots h.
Proof.
  intros Hst Hci Hreach Hrel Hall (p' & Hs' & Hp').
  pose proof (dr_frame _ _ Hrel) as Hf. pose proof (ci_frame _ _ Hci) as Hf2.
  assert (Hnum : num_refs s' = num_refs s).
  { rewrite (num_refs_frame _ _ Hf). change (num_refs (swap_spaces s2)) with (num_refs s2).
    by rewrite (num_refs_frame _ _ Hf2). }
  pose proof Hs' as Hs1. apply slot_Ok in Hs1 as [Hr Hl']. rewrite Hnum in Hr.
  destruct (slot_in_range s h Hr) as [p0 Hs0].
  pose proof Hs0 as Hs2. apply slot_Ok in Hs2 as [_ Hl0].
  destruct (collect_cases s s2 s' Hst Hci Hrel Hall _ p0 Hl0)
    as [(_ & _ & E & _)|(H0 & p2 & v & Hl2 & Hp2 & Hv & Hv2 & [E|E])];
    try congruence.
  assert (p2 = p') as -> by congruence.
  assert (Hs2' : slot s2 h = Ok p').
  { apply slot_Ok. rewrite (num_refs_frame _ _ Hf2). split; [exact Hr | done]. }
  destruct (dr_kept _ _ Hrel p' v (slot_elem _ _ _ Hs') Hp2 Hv2)
    as (v' & Hv' & Ht & Hd & _).
  split.
  - unfold kids, value_at. rewrite Hs', Hs0.
    destruct (Z.eqb_spec p' NULL) as [|_]; [done|].
    destruct (Z.eqb_spec p0 NULL) as [|_]; [done|].
    rewrite Hv', Hv. unfold children. by rewrite Ht, Hd.
  - apply Hreach. by exists p'.
Qed.

(** X22: a second collection right after the first finds nothing to do.
    When the first collection kept every handle reachable from the roots in
    use, a second one with the same roots returns, leaves every handle
    designating the value it designated, and leaves [refs_used] and
    [mem_used] as they were. *)
Theorem collect_twice s roots s' :
  steady s -> (forall h, reach s roots h -> live s h) ->
  collect_garbage roots s = Ok s' ->
  (forall h, reach s roots h -> live s' h) ->
  exists s'', collect_garbage roots s' = Ok s'' /\
    (forall h, value_at s'' h = value_at s' h) /\
    refs_used s'' = refs_used s' /\ mem_used s'' = mem_used s'.
Proof.
  intros Hst Hlive Hrun Hkeep.
  destruct (collect_ok s roots Hst Hlive)
    as (s2 & s0' & _ & _ & Hrun' & Hci & Hreach & Hok' & Hrel & Hall).
  assert (s0' = s') as -> by congruence.
  destruct (collect_steady s s2 s' Hst Hci Hok' Hrel Hall) as (Hst' & _).
  destruct (collect_bytes s s2 s' Hst Hci Hok' Hrel Hall) as [Hexact _].
  pose proof (fun h => collect_survivor s roots s2 s' h Hst Hci Hreach Hrel Hall) as Hsurv.
  assert (Hback : forall h, reach s' roots h -> reach s roots h).
  { intros h. apply (reach_closed s' roots (fun x => reach s roots x));
      [intros r Hr; by apply reach_root|].
    intros x c Hx Hc. apply (reach_child _ _ x); [done|].
    by rewrite <- (proj1 (Hsurv x (Hkeep x Hx))). }
  assert (Hforth : forall h, reach s roots h -> reach s' roots h).
  { intros h Hh.
    apply (reach_closed s roots (fun x => reach s roots x /\ reach s' roots x)) in Hh;
      [by destruct Hh | by intros r Hr; split; apply reach_root |].
    intros x c [Hx Hx'] Hc. split; [by apply (reach_child _ _ x)|].
    apply (reach_child _ _ x); [done|].
    by rewrite (proj1 (Hsurv x (Hkeep x Hx))). }
  destruct (collect_identity s' roots Hst') as (s'' & Hrun2 & Hval & Hru & Hmu & _).
  - intros h Hh. by apply Hkeep, Hback.
  - intros h Hh. by apply Hforth, (Hsurv h).
  - exists s''. split; [done|]. split; [done|]. split; [done|]. congruence.
Qed.

Lemma demo_collected_run : collect_garbage [1] demo = Ok demo_collected.
Proof. vm_compute. reflexivity. Qed.

Lemma collect_twice_witness :
  steady demo /\
  collect_garbage [1] demo = Ok demo_collected /\
  (forall h, reach demo [1] h -> live demo_collected h) /\
  exists s'', collect_garbage [1] demo_collected = Ok s'' /\
    (forall h, value_at s'' h = value_at demo_collected h) /\
    refs_used s'' = refs_used demo_collected /\
    mem_used s'' = mem_used demo_collected.
Proof.
  assert (Hkeep : forall h, reach demo [1] h -> live demo_collected h).
  { intros h Hh. apply demo_reach in Hh.
    repeat (apply elem_of_cons in Hh as [->|Hh]); try (by apply elem_of_nil in Hh);
      eexists; (split; [vm_compute; reflexivity | done]). }
  split; [apply demo_steady|]. split; [apply demo_collected_run|]. split; [exact Hkeep|].
  apply (collect_twice demo [1] demo_collected);
    [apply demo_steady | apply demo_live | apply demo_collected_run | exact Hkeep].
Defined.

(** * The life of a handle *)

Lemma deref_unused h s :
  slot s h = Ok NULL -> is_pool_address s NULL = false -> deref h s = Fault.
Proof.
  intros Hs Hn. unfold deref. rewrite Hs. simpl. rewrite Hn. by destruct (_ && _).
Qed.

(** X23: after the [decref] that takes the last reference, the handle is
    dead.  Its slot is unused, so [deref] and [incref] on it fail their
    assertion, a further [decref] on it silently does nothing, and [get_ref]
    no longer finds the address the value had. *)
Theorem release_then_use h s p v :
  pool_ok s -> deref h s = Ok p -> heap s !! p = Some v -> ref_count v = 1 ->
  exists s', decref h s = Ok s' /\
    slot s' h = Ok NULL /\ deref h s' = Fault /\ incref h s' = Fault /\
    decref h s' = Ok s' /\ get_ref p s' = Fault.
Proof.
  intros Hok Hd Hv Hrc. apply deref_Ok in Hd as [Hs Hp].
  destruct (decref_last_cascade h s p v Hok Hs Hp Hv Hrc) as (s' & Hrun & Hok' & Hrel & Hs').
  pose proof (pool_null _ Hok') as Hn'.
  assert (Hdead : deref h s' = Fault) by (by apply deref_unused).
  exists s'. split; [done|]. split; [done|]. split; [done|]. split; [|split].
  - unfold incref. by rewrite Hdead.
  - by apply (decref_skips h s' NULL).
  - apply get_ref_Fault. intros Hin. apply list_elem_of_lookup in Hin as [i Hi].
    assert (Hne : p ≠ NULL).
    { intros ->. rewrite (pool_null _ Hok) in Hp. done. }
    destruct (lookup_lt_is_Some_2 (ref_table s) i) as [q Hq].
    { destruct (dr_frame _ _ Hrel) as [Hlen _]. rewrite <- Hlen. by eapply lookup_lt_Some. }
    assert (q = p) as ->.
    { destruct (dr_table _ _ Hrel _ _ Hq) as [E|E]; rewrite E in Hi; congruence. }
    assert (Z.of_nat i = h).
    { apply (slot_inj s (Z.of_nat i) h p (pool_nodup _ Hok) Hp); [by apply table_slot | done]. }
    subst h. apply slot_Ok in Hs' as [_ Hs']. rewrite Nat2Z.id in Hs'. congruence.
Qed.

Lemma release_then_use_witness :
  pool_ok demo /\ deref 2 demo = Ok 1064 /\
  heap demo !! 1064 = Some (Value VAL_LIST 1 24 (ListData 2)) /\
  exists s', decref 2 demo = Ok s' /\
    slot s' 2 = Ok NULL /\ deref 2 s' = Fault /\ incref 2 s' = Fault /\
    decref 2 s' = Ok s' /\ get_ref 1064 s' = Fault.
Proof.
  split; [apply demo_pool_ok|]. split; [reflexivity|]. split; [reflexivity|].
  apply (release_then_use 2 demo 1064 (Value VAL_LIST 1 24 (ListData 2)));
    [apply demo_pool_ok | reflexivity | reflexivity | reflexivity].
Defined.

Lemma sumZ_ones {A} (l : list A) : sumZ (fun _ => 1) l = Z.of_nat (length l).
Proof. induction l as [|a l IH]; simpl; [done|]. unfold sumZ in *. simpl. lia. Qed.

(** X24: on a consistent state [refs_used] counts exactly the handles that
    resolve: it is the number of slots that hold an address of the active
    region, and every handle of the table either resolves or has an unused
    slot. *)
Theorem refs_used_resolving s :
  steady s ->
  refs_used s = Z.of_nat (pool_slots s) /\
  forall h, 0 <= h < num_refs s ->
    (exists a, deref h s = Ok a /\ a ≠ NULL) \/
    (slot s h = Ok NULL /\ deref h s = Fault).
Proof.
  intros Hst. pose proof (pool_null _ (st_pool _ Hst)) as Hn. split.
  - rewrite refs_used_sum. unfold pool_slots. rewrite <- sumZ_ones.
    rewrite <- (sumZ_filter_bool (is_pool_address s) (fun _ => 1)).
    apply sumZ_ext. intros p Hp. destruct (st_slots _ Hst p Hp) as [->|Hpp].
    + by rewrite Hn.
    + rewrite Hpp. destruct (Z.eqb_spec p NULL) as [->|]; [congruence|done].
  - intros h Hr. destruct (slot_in_range s h Hr) as [p Hs].
    destruct (st_slots _ Hst p (slot_elem _ _ _ Hs)) as [->|Hpp].
    + right. split; [done|]. by apply deref_unused.
    + left. exists p. split; [by apply deref_slot|]. intros ->. congruence.
Qed.

Lemma refs_used_resolving_witness :
  steady demo /\
  refs_used demo = Z.of_nat (pool_slots demo) /\
  forall h, 0 <= h < num_refs demo ->
    (exists a, deref h demo = Ok a /\ a ≠ NULL) \/
    (slot demo h = Ok NULL /\ deref h demo = Fault).
Proof. split; [apply demo_steady|]. apply (refs_used_resolving demo), demo_steady. Defined.

Lemma find_slot_app_r p t k : forall i,
  p ∉ t -> find_slot p (t ++ k) i = find_slot p k (i + Z.of_nat (length t)).
Proof.
  induction t as [|q t IH]; intros i Hn; simpl.
  - by rewrite Z.add_0_r.
  - apply not_elem_of_cons in Hn as [Hne Hn].
    destruct (Z.eqb_spec q p) as [|_]; [congruence|].
    rewrite (IH (i + 1) Hn). f_equal. lia.
Qed.

Lemma insert_block_elem b bs : b ∈ insert_block b bs.
Proof.
  induction bs as [|c bs IH]; simpl; [left|].
  destruct (fst b <? fst c); [left | by right].
Qed.

(** The table after the slot a successful [make_ref] took is cleared again:
    the slots there were are as they were, and the slot is the first
    unused one. *)
Lemma make_ref_slot_cleared (INITIAL_SIZE SIZEOF_VALUE_T : Z) ty size s p s1 h s' :
  0 <= SIZEOF_VALUE_T <= align_size size ->
  mm_malloc (align_size size) s = Some (p, s1) -> p ≠ NULL ->
  make_ref INITIAL_SIZE SIZEOF_VALUE_T ty size s = Ok (h, s') ->
  ref_table s' !! Z.to_nat h = Some p /\ 0 <= h < num_refs s' /\
  find_slot NULL (<[Z.to_nat h := NULL]> (ref_table s')) 0 = Some h /\
  (forall i a, ref_table s !! i = Some a ->
     <[Z.to_nat h := NULL]> (ref_table s') !! i = Some a) /\
  sumZ (fun q => if q =? NULL then 0 else 1) (<[Z.to_nat h := NULL]> (ref_table s')) =
  sumZ (fun q => if q =? NULL then 0 else 1) (ref_table s).
Proof.
  intros Hsz Hm Hp Hr.
  destruct (make_ref_Ok INITIAL_SIZE SIZEOF_VALUE_T ty size s p s1 Hsz Hm)
    as (h0 & s0 & Hr0 & _ & _ & _ & _ & _ & _ & _ & Hcase).
  rewrite Hr in Hr0. injection Hr0 as <- <-.
  destruct Hcase as [(Hf & Ht & _)|(Hf & -> & Ht & _)].
  - pose proof (find_slot_lt _ _ _ _ Hf) as Hlt. pose proof Hf as Hf'.
    apply find_slot_Some in Hf' as (Hle & Hl & _). rewrite Z.sub_0_r in Hl.
    assert (Hback : <[Z.to_nat h := NULL]> (ref_table s') = ref_table s).
    { rewrite Ht, list_insert_insert_eq. by apply list_insert_id. }
    rewrite Hback. split; [|split; [|split; [done|split; [done|done]]]].
    + rewrite Ht. apply list_lookup_insert_eq. by eapply lookup_lt_Some.
    + unfold num_refs. rewrite Ht, length_insert. lia.
  - apply find_slot_None in Hf.
    assert (Hback : <[Z.to_nat (num_refs s) := NULL]> (ref_table s') = ref_table s ++ [NULL]).
    { rewrite Ht. unfold num_refs. rewrite Nat2Z.id.
      replace (length (ref_table s)) with (length (ref_table s) + 0)%nat at 1 by lia.
      by rewrite insert_app_r. }
    rewrite Hback. split; [|split; [|split; [|split]]].
    + rewrite Ht. unfold num_refs. rewrite Nat2Z.id.
      rewrite lookup_app_r by lia. by rewrite Nat.sub_diag.
    + unfold num_refs. rewrite Ht, length_app. simpl. lia.
    + rewrite (find_slot_app_r NULL _ _ 0 Hf). simpl. done.
    + intros i a Hi. by apply lookup_app_l_Some.
    + rewrite sumZ_app. unfold sumZ at 2. simpl. lia.
Qed.

(** X25: a handle is recycled.  A value without embedded handles that is
    created (in storage no smaller than the header of a value) and then
    released by [decref] leaves [refs_used] where it was and every other
    slot as it was (the table does not shrink back); the slot is the first
    unused one again, so [get_ref] of the null pointer finds it, and the
    next successful [make_ref] returns the same handle. *)
Theorem make_ref_decref_recycles (INITIAL_SIZE SIZEOF_VALUE_T : Z) size s p s1 :
  is_pool_address s NULL = false -> is_pool_address s p = true ->
  0 <= SIZEOF_VALUE_T <= align_size size ->
  mm_malloc (align_size size) s = Some (p, s1) ->
  exists h s' s'',
    make_ref INITIAL_SIZE SIZEOF_VALUE_T VAL_SCALAR size s = Ok (h, s') /\
    decref h s' = Ok s'' /\
    slot s'' h = Ok NULL /\ refs_used s'' = refs_used s /\
    num_refs s'' = num_refs s' /\
    (forall i a, slot s i = Ok a -> slot s'' i = Ok a) /\
    get_ref NULL s'' = Ok h /\
    forall ty size2 p2 s3,
      0 <= SIZEOF_VALUE_T <= align_size size2 ->
      mm_malloc (align_size size2) s'' = Some (p2, s3) ->
      exists s4, make_ref INITIAL_SIZE SIZEOF_VALUE_T ty size2 s'' = Ok (h, s4).
Proof.
  intros Hn Hp Hsz Hm.
  assert (Hpne : p ≠ NULL) by (intros ->; congruence).
  destruct (make_ref_Ok INITIAL_SIZE SIZEOF_VALUE_T VAL_SCALAR size s p s1 Hsz Hm)
    as (h & s' & Hr & Hh & Hb & Hab & Has & _ & _ & _ & _).
  destruct (make_ref_slot_cleared INITIAL_SIZE SIZEOF_VALUE_T VAL_SCALAR size s p s1 h s'
              Hsz Hm Hpne Hr)
    as (Hl & Hrange & Hfind & Hkeep & Hsum).
  assert (Hs' : slot s' h = Ok p) by (by apply slot_Ok).
  assert (Hn' : is_pool_address s' NULL = false)
    by (by rewrite (is_pool_address_frame s s' NULL Hab Has)).
  assert (Hp' : is_pool_address s' p = true)
    by (by rewrite (is_pool_address_frame s s' p Hab Has)).
  assert (Hv' : heap s' !! p = Some (Value VAL_SCALAR 1 (align_size size) RawData)).
  { rewrite Hh. apply lookup_insert_eq. }
  set (s2 := set_slot h NULL
               (store p (Value VAL_SCALAR 0 (align_size size) RawData) s')).
  assert (He : existsb (fun b => fst b =? p) (blocks s2) = true).
  { apply existsb_exists. exists (p, align_size size). split; [|apply Z.eqb_refl].
    apply list_elem_of_In. unfold s2. simpl. rewrite Hb. apply insert_block_elem. }
  assert (Hrun : decref h s' =
                 Ok (with_blocks (filter (fun b => fst b ≠ p) (blocks s2))
                       (with_heap (alter (set_type VAL_FREE) p (heap s2)) s2))).
  { rewrite (decref_unfold _ _ Hn'). unfold decref_body.
    rewrite Hs'. simpl. rewrite Hp', (deref_slot _ _ _ Hs' Hp'). simpl.
    unfold load at 1. rewrite Hv'. simpl.
    unfold traverse_with, load. simpl. rewrite lookup_insert_eq. simpl.
    transitivity (mm_free p s2); [reflexivity|]. unfold mm_free. by rewrite He. }
  eexists h, s', _. split; [done|]. split; [exact Hrun|].
  assert (Hfs : get_ref NULL
                  (with_blocks (filter (fun b => fst b ≠ p) (blocks s2))
                     (with_heap (alter (set_type VAL_FREE) p (heap s2)) s2)) = Ok h).
  { unfold get_ref. simpl. by rewrite Hfind. }
  split; [|split; [|split; [|split; [|split; [done|]]]]].
  - apply slot_Ok. unfold num_refs. simpl. rewrite length_insert. split; [exact Hrange|].
    apply list_lookup_insert_eq. unfold num_refs in Hrange. lia.
  - rewrite !refs_used_sum. simpl. exact Hsum.
  - unfold num_refs. simpl. by rewrite length_insert.
  - intros i a Hs. apply slot_Ok in Hs as [Hri Hli]. apply slot_Ok.
    pose proof (Hkeep _ _ Hli) as Hk. unfold num_refs. simpl. split; [|done].
    apply lookup_lt_Some in Hk. lia.
  - intros ty size2 p2 s3 Hsz2 Hm2.
    destruct (make_ref_Ok INITIAL_SIZE SIZEOF_VALUE_T ty size2 _ p2 s3 Hsz2 Hm2)
      as (h4 & s4 & Hr4 & _ & _ & _ & _ & _ & _ & _ & Hcase).
    unfold get_ref in Hfs. exists s4.
    destruct Hcase as [(Hf & _)|(Hf & _)]; rewrite Hf in Hfs; [|done].
    by injection Hfs as ->.
Qed.

Lemma make_ref_decref_recycles_witness :
  is_pool_address demo NULL = false /\ is_pool_address demo 1120 = true /\
  0 <= 16 <= align_size 24 /\
  mm_malloc (align_size 24) demo =
    Some (1120, with_blocks (insert_block (1120, 24) (blocks demo))
                  (store 1120 (Value VAL_FREE 0 24 RawData) demo)) /\
  exists h s' s'',
    make_ref 8 16 VAL_SCALAR 24 demo = Ok (h, s') /\
    decref h s' = Ok s'' /\
    slot s'' h = Ok NULL /\ refs_used s'' = refs_used demo /\
    num_refs s'' = num_refs s' /\
    (forall i a, slot demo i = Ok a -> slot s'' i = Ok a) /\
    get_ref NULL s'' = Ok h /\
    forall ty size2 p2 s3,
      0 <= 16 <= align_size size2 ->
      mm_malloc (align_size size2) s'' = Some (p2, s3) ->
      exists s4, make_ref 8 16 ty size2 s'' = Ok (h, s4).
Proof.
  split; [reflexivity|]. split; [reflexivity|].
  split; [vm_compute; split; discriminate|]. split; [reflexivity|].
  eapply (make_ref_decref_recycles 8 16 24 demo 1120);
    [reflexivity | reflexivity | vm_compute; split; discriminate | reflexivity].
Defined.

(** X26: [decref] on a handle whose value has other references left only
    takes one off the count: the value keeps its kind, size and payload, no
    slot is cleared and no storage released, every other value is as it
    was, every handle resolves as before, and a consistent state stays
    consistent. *)
Theorem decref_shared h s a v :
  is_pool_address s NULL = false ->
  deref h s = Ok a -> heap s !! a = Some v -> 1 < ref_count v < 2 ^ 32 ->
  exists s', decref h s = Ok s' /\
    heap s' !! a = Some (Value (type v) (ref_count v - 1) (value_size v) (data v)) /\
    (forall b, b ≠ a -> heap s' !! b = heap s !! b) /\
    ref_table s' = ref_table s /\ max_refs s' = max_refs s /\ blocks s' = blocks s /\
    refs_used s' = refs_used s /\ mem_used s' = mem_used s /\
    (forall i, deref i s' = deref i s) /\
    (steady s -> steady s').
Proof.
  intros Hn Hd Hv Hc. apply deref_Ok in Hd as [Hs Hp].
  eexists. split; [apply (decref_positive h s a v Hn Hs Hp Hv); lia|].
  split; [simpl; by rewrite lookup_insert_eq|].
  split; [intros b Hb; simpl; by rewrite lookup_insert_ne|].
  repeat (split; [done|]).
  intros Hst. apply steady_store; [done | done | lia].
Qed.

Lemma decref_shared_witness :
  is_pool_address demo NULL = false /\ deref 0 demo = Ok 1000 /\
  heap demo !! 1000 = Some (Value VAL_SCALAR 2 24 RawData) /\
  exists s', decref 0 demo = Ok s' /\
    heap s' !! 1000 = Some (Value VAL_SCALAR (2 - 1) 24 RawData) /\
    (forall b, b ≠ 1000 -> heap s' !! b = heap demo !! b) /\
    ref_table s' = ref_table demo /\ max_refs s' = max_refs demo /\
    blocks s' = blocks demo /\
    refs_used s' = refs_used demo /\ mem_used s' = mem_used demo /\
    (forall i, deref i s' = deref i demo) /\
    (steady demo -> steady s').
Proof.
  split; [reflexivity|]. split; [reflexivity|]. split; [reflexivity|].
  apply (decref_shared 0 demo 1000 (Value VAL_SCALAR 2 24 RawData));
    [reflexivity | reflexivity | reflexivity | simpl; lia].
Defined.

Lemma deref_out_of_range h s : ¬ (0 <= h < num_refs s) -> deref h s = Fault.
Proof.
  intros Hr. unfold deref.
  destruct (Z.leb_spec 0 h), (Z.ltb_spec h (num_refs s)); simpl; try done. lia.
Qed.

(** X27: [init_refs] establishes the consistent state the other
    operations keep.  On it a collection (there is nothing to be a root)
    returns and only exchanges the two halves; every [decref] and [incref]
    fails, since the table has no slot to index. *)
Theorem init_refs_consistent memory_size memory_pool :
  0 <= memory_size -> 0 < memory_pool ->
  let s := init_refs memory_size memory_pool in
  steady s /\
  (exists s', collect_garbage [] s = Ok s' /\ steady s' /\
     from_space s' = to_space s /\ to_space s' = from_space s /\
     ref_table s' = [] /\ refs_used s' = 0 /\ mem_used s' = 0) /\
  (forall h, decref h s = Fault) /\ (forall h, incref h s = Fault).
Proof.
  intros Hm Hp s. pose proof (init_refs_steady memory_size memory_pool Hm Hp) as Hst.
  fold s in Hst. split; [done|]. split; [|split].
  - destruct (collect_ok s [] Hst) as (s2 & s' & Hcopy & _ & Hrun & Hci & _ & Hok' & Hrel & Hall).
    { intros h Hh. by apply reach_nil in Hh. }
    destruct (collect_steady s s2 s' Hst Hci Hok' Hrel Hall) as (Hst' & Hfrom & Hto).
    simpl in Hcopy. injection Hcopy as <-.
    exists s'. split; [done|]. split; [done|]. split; [done|]. split; [done|].
    assert (Ht : ref_table s' = []).
    { destruct (dr_frame _ _ Hrel) as [Hlen _]. simpl in Hlen.
      by apply nil_length_inv. }
    split; [done|]. split.
    + unfold refs_used. by rewrite Ht.
    + destruct (collect_bytes s _ s' Hst Hci Hok' Hrel Hall) as [-> _].
      unfold slot_bytes. by rewrite Ht.
  - intros h. apply decref_out_of_range. unfold num_refs. simpl. lia.
  - intros h. unfold incref. rewrite deref_out_of_range; [done|].
    unfold num_refs. simpl. lia.
Qed.

Lemma init_refs_consistent_witness :
  0 <= 4096 /\ 0 < 1000 /\
  let s := init_refs 4096 1000 in
  steady s /\
  (exists s', collect_garbage [] s = Ok s' /\ steady s' /\
     from_space s' = to_space s /\ to_space s' = from_space s /\
     ref_table s' = [] /\ refs_used s' = 0 /\ mem_used s' = 0) /\
  (forall h, decref h s = Fault) /\ (forall h, incref h s = Fault).
Proof.
  split; [lia|]. split; [lia|]. apply (init_refs_consistent 4096 1000); lia.
Defined.

(** X28: [make_ref] does not check the size against the header of a value
    before it fills the payload.  When the rounded size is smaller than
    [sizeof(value_t)] and the allocator serves it, the length of the fill
    wraps in [size_t] and the fill runs past the storage: the call does not
    return a handle. *)
Theorem make_ref_short_storage (INITIAL_SIZE SIZEOF_VALUE_T : Z) ty size s p s1 :
  align_size size < SIZEOF_VALUE_T < 2 ^ 64 ->
  mm_malloc (align_size size) s = Some (p, s1) ->
  fill_payload SIZEOF_VALUE_T p
    (store p (Value ty 1 (align_size size) RawData) s1) = Fault /\
  make_ref INITIAL_SIZE SIZEOF_VALUE_T ty size s = Fault.
Proof.
  intros Hsz Hm. split; [|by apply (make_ref_short INITIAL_SIZE SIZEOF_VALUE_T ty size s p s1)].
  apply (fill_payload_Fault SIZEOF_VALUE_T p _ (Value ty 1 (align_size size) RawData)).
  - simpl. apply lookup_insert_eq.
  - simpl. pose proof (align_size_range size). lia.
  - lia.
Qed.

Lemma make_ref_short_storage_witness :
  align_size 8 < 16 < 2 ^ 64 /\
  mm_malloc (align_size 8) demo =
    Some (1120, with_blocks (insert_block (1120, 8) (blocks demo))
                  (store 1120 (Value VAL_FREE 0 8 RawData) demo)) /\
  fill_payload 16 1120
    (store 1120 (Value VAL_SCALAR 1 (align_size 8) RawData)
       (with_blocks (insert_block (1120, 8) (blocks demo))
          (store 1120 (Value VAL_FREE 0 8 RawData) demo))) = Fault /\
  make_ref 8 16 VAL_SCALAR 8 demo = Fault.
Proof.
  split; [vm_compute; split; reflexivity|]. split; [reflexivity|].
  apply (make_ref_short_storage 8 16 VAL_SCALAR 8 demo 1120
           (with_blocks (insert_block (1120, 8) (blocks demo))
              (store 1120 (Value VAL_FREE 0 8 RawData) demo)));
    [vm_compute; split; reflexivity | reflexivity].
Defined.
